(** * stl-bench: the mesh geometry engine

    A shallow embedding of the STL decoders ([bin2ascii.ts], [stl_utils.ts])
    and of the metric bundle ([bench.ts]), with the properties the
    specification states about them.

    Numbers.  A JavaScript [number] is modelled by [num]: the three special
    values NaN, +Infinity, -Infinity, and the finite values, which are taken
    as exact rationals.  The special values follow IEEE 754; finite
    arithmetic is exact: rounding, overflow to an infinity and the sign of
    zero are not modelled.  Operations return reduced fractions, so that two
    computed finite numbers are equal exactly when they denote the same
    rational.

    [Math.sqrt] is not a rational function; its finite part is a parameter
    [sqrtQ] of the geometry section, and the theorems that depend on it
    state what they use of it (it is non-negative, monotone, at most 1 at
    1).  [sqrt_fix] is an instance used for evaluation.

    Strings are sequences of code units below 256. *)

From Stdlib Require Import String Ascii Strings.Byte.
From Stdlib Require Import ZArith QArith Qround Qabs Qpower.
From Stdlib Require Import List Bool.
From Stdlib Require Import Lia Lqa Permutation Sorted.
Import ListNotations.

Local Open Scope Z_scope.

(* ================================================================== *)
(** * Definitions *)
(* ================================================================== *)

(** ** Outcome of a call that may throw *)

Inductive result (A : Type) : Type :=
| Ok (a : A)
| Throw (msg : string)
| Diverge.
Arguments Ok {A} a.
Arguments Throw {A} msg.
Arguments Diverge {A}.

Definition bind {A B} (r : result A) (k : A -> result B) : result B :=
  match r with
  | Ok a => k a
  | Throw m => Throw m
  | Diverge => Diverge
  end.

Notation "x <- c ;; k" := (bind c (fun x => k))
  (at level 61, c at next level, right associativity).

(** ** JavaScript numbers *)

Module JsNumber.

Inductive num : Type :=
| NaN
| PInf
| NInf
| Fin (q : Q).

Definition fin (q : Q) : num := Fin (Qred q).
Arguments fin : simpl never.
Definition ofZ (z : Z) : num := Fin (inject_Z z).

Definition zero : num := Fin 0.
Definition one : num := Fin 1.

(** The infinity (or NaN) with the sign of a comparison against zero. *)
Definition signed_inf (c : comparison) : num :=
  match c with
  | Eq => NaN
  | Gt => PInf
  | Lt => NInf
  end.

Definition nneg (a : num) : num :=
  match a with
  | NaN => NaN
  | PInf => NInf
  | NInf => PInf
  | Fin x => fin (- x)
  end.

Definition nadd (a b : num) : num :=
  match a, b with
  | NaN, _ | _, NaN => NaN
  | PInf, NInf | NInf, PInf => NaN
  | PInf, _ | _, PInf => PInf
  | NInf, _ | _, NInf => NInf
  | Fin x, Fin y => fin (x + y)
  end.

Definition nsub (a b : num) : num :=
  match a, b with
  | NaN, _ | _, NaN => NaN
  | PInf, PInf | NInf, NInf => NaN
  | PInf, _ | _, NInf => PInf
  | NInf, _ | _, PInf => NInf
  | Fin x, Fin y => fin (x - y)
  end.

Definition nmul (a b : num) : num :=
  match a, b with
  | NaN, _ | _, NaN => NaN
  | Fin x, Fin y => fin (x * y)
  | Fin x, PInf | PInf, Fin x => signed_inf (x ?= 0)%Q
  | Fin x, NInf | NInf, Fin x => signed_inf (CompOpp (x ?= 0)%Q)
  | PInf, PInf | NInf, NInf => PInf
  | PInf, NInf | NInf, PInf => NInf
  end.

Definition ndiv (a b : num) : num :=
  match a, b with
  | NaN, _ | _, NaN => NaN
  | Fin x, Fin y =>
      if Qeq_bool y 0 then signed_inf (x ?= 0)%Q else fin (x / y)
  | Fin _, PInf | Fin _, NInf => Fin 0
  | PInf, Fin y => if Qle_bool 0 y then PInf else NInf
  | NInf, Fin y => if Qle_bool 0 y then NInf else PInf
  | _, _ => NaN
  end.

(** Comparison; [None] when an operand is NaN. *)
Definition ncompare (a b : num) : option comparison :=
  match a, b with
  | NaN, _ | _, NaN => None
  | PInf, PInf | NInf, NInf => Some Eq
  | PInf, _ | _, NInf => Some Gt
  | NInf, _ | _, PInf => Some Lt
  | Fin x, Fin y => Some (x ?= y)%Q
  end.

Definition nlt (a b : num) : bool :=
  match ncompare a b with Some Lt => true | _ => false end.
Definition ngt (a b : num) : bool :=
  match ncompare a b with Some Gt => true | _ => false end.
Definition nle (a b : num) : bool :=
  match ncompare a b with Some Lt | Some Eq => true | _ => false end.
Definition nge (a b : num) : bool :=
  match ncompare a b with Some Gt | Some Eq => true | _ => false end.
(** [===] on numbers. *)
Definition nseq (a b : num) : bool :=
  match ncompare a b with Some Eq => true | _ => false end.

Definition Math_max (a b : num) : num :=
  match ncompare a b with
  | None => NaN
  | Some Lt => b
  | Some _ => a
  end.

Definition Math_min (a b : num) : num :=
  match ncompare a b with
  | None => NaN
  | Some Gt => b
  | Some _ => a
  end.

Definition Math_abs (a : num) : num :=
  match a with
  | NaN => NaN
  | PInf | NInf => PInf
  | Fin x => fin (Qabs x)
  end.

Definition Math_floor (a : num) : num :=
  match a with
  | Fin x => ofZ (Qfloor x)
  | _ => a
  end.

Definition Number_isFinite (a : num) : bool :=
  match a with Fin _ => true | _ => false end.

(** ToBoolean: 0 and NaN are falsy. *)
Definition truthy (a : num) : bool :=
  match a with
  | NaN => false
  | Fin x => negb (Qeq_bool x 0)
  | _ => true
  end.

(** [a || b] on numbers. *)
Definition or_else (a b : num) : num := if truthy a then a else b.

(** [a ?? b] where [a] may be undefined. *)
Definition nullish {A} (a : option A) (b : A) : A :=
  match a with Some x => x | None => b end.

Section Sqrt.
Variable sqrtQ : Q -> Q.

Definition Math_sqrt (a : num) : num :=
  match a with
  | NaN | NInf => NaN
  | PInf => PInf
  | Fin x => if Qle_bool 0 x then fin (sqrtQ x) else NaN
  end.
End Sqrt.

(** A square root for evaluation: the root of the argument truncated to a
  multiple of 2^-32. *)
Definition sqrt_fix (x : Q) : Q :=
Z.sqrt (Qfloor (x * inject_Z (2 ^ 64))) # (2 ^ 32).

(** ToInt32, and [x >> k] on it. *)
Definition toInt32 (x : Z) : Z := (x + 2 ^ 31) mod 2 ^ 32 - 2 ^ 31.
Definition sar (x k : Z) : Z := Z.shiftr (toInt32 x) k.

(** [arr[k]] for a number [k]: an element when [k] is an integer index in
  range, undefined otherwise. *)
Definition index_of (k : num) : option nat :=
match k with
| Fin q =>
    let r := Qred q in
    if (Qden r =? 1)%positive && (0 <=? Qnum r) then Some (Z.to_nat (Qnum r))
    else None
| _ => None
end.

Definition Array_get {A} (l : list A) (k : num) : option A :=
match index_of k with
| Some i => nth_error l i
| None => None
end.

(** [arr[k]] for an integer [k]. *)
Definition Array_getZ {A} (l : list A) (k : Z) : option A :=
if k <? 0 then None else nth_error l (Z.to_nat k).

(** [Array.prototype.sort(comparefn)]: a stable sort; an element moves
  behind another only when [comparefn] is positive on the pair (a NaN
  from [comparefn] counts as 0). *)
Fixpoint insert_by (cmp : num -> num -> num) (x : num) (l : list num) : list num :=
match l with
| [] => [x]
| y :: l' => if ngt (cmp x y) zero then y :: insert_by cmp x l' else x :: l
end.

Definition Array_sort (cmp : num -> num -> num) (l : list num) : list num :=
fold_right (insert_by cmp) [] l.

End JsNumber.
Import JsNumber.

(** ** JavaScript strings and the string built-ins the decoders use *)

Module JsString.

Definition LF : ascii := "010"%char.
Definition CR : ascii := "013"%char.

Definition code (c : ascii) : Z := Z.of_N (N_of_ascii c).

(** WhiteSpace and LineTerminator below 256: what [trim], [\s] and the
    string-to-number conversion strip. *)
Definition isWhiteSpace (c : ascii) : bool :=
  let n := code c in
  ((9 <=? n) && (n <=? 13)) || (n =? 32) || (n =? 160).

Definition isDigit (c : ascii) : bool :=
  let n := code c in (48 <=? n) && (n <=? 57).

Definition isEmpty (s : string) : bool :=
  match s with EmptyString => true | _ => false end.

Fixpoint trimStart (s : string) : string :=
  match s with
  | EmptyString => EmptyString
  | String c s' => if isWhiteSpace c then trimStart s' else s
  end.

Fixpoint trimEnd (s : string) : string :=
  match s with
  | EmptyString => EmptyString
  | String c s' =>
      let t := trimEnd s' in
      if isEmpty t && isWhiteSpace c then EmptyString else String c t
  end.

Definition trim (s : string) : string := trimEnd (trimStart s).

Definition startsWith (s p : string) : bool := String.prefix p s.

(** [s.replace(/\r\n/g, '\n')] *)
Fixpoint replace_crlf (s : string) : string :=
  match s with
  | EmptyString => EmptyString
  | String c1 s' =>
      match s' with
      | String c2 r =>
          if Ascii.eqb c1 CR && Ascii.eqb c2 LF then String LF (replace_crlf r)
          else String c1 (replace_crlf s')
      | EmptyString => String c1 EmptyString
      end
  end.

(** [s.split(sep)] for a one-character separator. *)
Fixpoint split_on (sep : ascii) (s : string) : list string :=
  match s with
  | EmptyString => [EmptyString]
  | String c s' =>
      if Ascii.eqb c sep then EmptyString :: split_on sep s'
      else
        match split_on sep s' with
        | cur :: rest => String c cur :: rest
        | [] => [String c EmptyString]
        end
  end.

(** [s.split(/\s+/)]; [in_ws] tells that the previous character was white
    space. *)
Fixpoint split_ws_from (in_ws : bool) (s : string) : list string :=
  match s with
  | EmptyString => [EmptyString]
  | String c s' =>
      if isWhiteSpace c then
        if in_ws then split_ws_from true s'
        else EmptyString :: split_ws_from true s'
      else
        match split_ws_from false s' with
        | cur :: rest => String c cur :: rest
        | [] => [String c EmptyString]
        end
  end.

Definition split_ws (s : string) : list string := split_ws_from false s.

(** [lines.join(sep)] *)
Definition join (sep : string) (lines : list string) : string :=
  String.concat sep lines.

(** [s.indexOf(c) !== -1] *)
Fixpoint contains (c : ascii) (s : string) : bool :=
  match s with
  | EmptyString => false
  | String d s' => Ascii.eqb d c || contains c s'
  end.

Fixpoint forallb_str (p : ascii -> bool) (s : string) : bool :=
  match s with
  | EmptyString => true
  | String c s' => p c && forallb_str p s'
  end.

(** The longest prefix of characters satisfying [p], and the rest. *)
Fixpoint span (p : ascii -> bool) (s : string) : string * string :=
  match s with
  | EmptyString => (EmptyString, EmptyString)
  | String c s' =>
      if p c then let '(a, b) := span p s' in (String c a, b)
      else (EmptyString, s)
  end.

(** *** Decimal digits *)

Definition digit_char (d : Z) : ascii := ascii_of_N (Z.to_N (48 + d)).

Fixpoint digits_from (fuel : nat) (n : Z) (acc : string) : string :=
  match fuel with
  | O => acc
  | S fuel' =>
      let acc' := String (digit_char (n mod 10)) acc in
      if n <? 10 then acc' else digits_from fuel' (n / 10) acc'
  end.

(** The decimal representation of [n >= 0]. *)
Definition Z_to_digits (n : Z) : string :=
  digits_from (S (Z.to_nat (Z.log2 n))) n EmptyString.

(** The value of a digit string in base [radix], after [acc]. *)
Fixpoint digits_value_from (radix : Z) (val : ascii -> Z) (acc : Z) (s : string) : Z :=
  match s with
  | EmptyString => acc
  | String c s' => digits_value_from radix val (radix * acc + val c) s'
  end.

Definition decimal_val (c : ascii) : Z := code c - 48.
Definition digits_value (s : string) : Z := digits_value_from 10 decimal_val 0 s.

Definition isHexDigit (c : ascii) : bool :=
  let n := code c in
  isDigit c || ((97 <=? n) && (n <=? 102)) || ((65 <=? n) && (n <=? 70)).
Definition hex_val (c : ascii) : Z :=
  let n := code c in
  if isDigit c then n - 48 else if 97 <=? n then n - 87 else n - 55.
Definition isOctalDigit (c : ascii) : bool :=
  let n := code c in (48 <=? n) && (n <=? 55).
Definition isBinaryDigit (c : ascii) : bool :=
  let n := code c in (48 <=? n) && (n <=? 49).

Definition pow10 (k : Z) : Q := inject_Z (10 ^ k).

(** *** Number(string): StringToNumber *)

Definition parse_radix (radix : Z) (isd : ascii -> bool) (val : ascii -> Z)
    (s : string) : num :=
  if negb (isEmpty s) && forallb_str isd s
  then ofZ (digits_value_from radix val 0 s)
  else NaN.

(** ExponentPart, or nothing. *)
Definition parse_exponent (s : string) : option Z :=
  match s with
  | EmptyString => Some 0
  | String c r =>
      if Ascii.eqb c "e"%char || Ascii.eqb c "E"%char then
        let '(neg, d) :=
          match r with
          | String "+"%char d => (false, d)
          | String "-"%char d => (true, d)
          | _ => (false, r)
          end in
        if negb (isEmpty d) && forallb_str isDigit d
        then Some (if neg then - digits_value d else digits_value d)
        else None
      else None
  end.

(** StrUnsignedDecimalLiteral *)
Definition parse_unsigned (s : string) : num :=
  if String.eqb s "Infinity"%string then PInf
  else
    let '(ip, r1) := span isDigit s in
    let '(fp, r2) :=
      match r1 with
      | String "."%char r => span isDigit r
      | _ => (EmptyString, r1)
      end in
    if isEmpty ip && isEmpty fp then NaN
    else
      match parse_exponent r2 with
      | None => NaN
      | Some e =>
          fin ((inject_Z (digits_value ip)
                + inject_Z (digits_value fp) / pow10 (Z.of_nat (String.length fp)))
               * Qpower 10 e)
      end.

Definition Number (s : string) : num :=
  match trim s with
  | EmptyString => zero
  | String "+"%char r => parse_unsigned r
  | String "-"%char r => nneg (parse_unsigned r)
  | String "0"%char (String "x"%char r) | String "0"%char (String "X"%char r) =>
      parse_radix 16 isHexDigit hex_val r
  | String "0"%char (String "o"%char r) | String "0"%char (String "O"%char r) =>
      parse_radix 8 isOctalDigit decimal_val r
  | String "0"%char (String "b"%char r) | String "0"%char (String "B"%char r) =>
      parse_radix 2 isBinaryDigit decimal_val r
  | t => parse_unsigned t
  end.

(** *** Number.prototype.toFixed *)

Fixpoint zeros (k : nat) : string :=
  match k with
  | O => EmptyString
  | S k' => String "0"%char (zeros k')
  end.

(** Fixed notation of [a >= 0] with [f] fraction digits. *)
Definition fixed_digits (a : Q) (f : Z) : string :=
  let n := Qfloor (a * pow10 f + (1 # 2)) in
  let m := Z_to_digits n in
  if f =? 0 then m
  else
    let k := Z.of_nat (String.length m) in
    let m := if k <=? f then (zeros (Z.to_nat (f + 1 - k)) ++ m)%string else m in
    let k := Z.of_nat (String.length m) in
    (substring 0 (Z.to_nat (k - f)) m ++ "."
       ++ substring (Z.to_nat (k - f)) (Z.to_nat f) m)%string.

Fixpoint strip_trailing_zeros (s : string) : string :=
  match s with
  | EmptyString => EmptyString
  | String c s' =>
      let t := strip_trailing_zeros s' in
      if isEmpty t && Ascii.eqb c "0"%char then EmptyString else String c t
  end.

(** The least [m' >= m] with [a * 10^m'] an integer, if the fuel reaches it. *)
Fixpoint find_scale (fuel : nat) (a : Q) (m : Z) : option Z :=
  if (Qden (Qred (a * pow10 m)) =? 1)%positive then Some m
  else
    match fuel with
    | O => None
    | S fuel' => find_scale fuel' a (m + 1)
    end.

(** Number::toString for [a >= 10^21]: significant digits, then the
    exponent.  The digits are those of [a] when it is a decimal fraction
    (every number read from a text or a binary file is); otherwise, those
    of its integer part. *)
Definition toString_large (a : Q) : string :=
  let '(i, m) :=
    match find_scale (Z.to_nat (Z.log2 (Z.pos (Qden (Qred a))))) a 0 with
    | Some m => (Qnum (Qred (a * pow10 m)), m)
    | None => (Qfloor a, 0)
    end in
  let d := Z_to_digits i in
  let e := Z.of_nat (String.length d) - m - 1 in
  match strip_trailing_zeros d with
  | String d1 EmptyString => String d1 ("e+" ++ Z_to_digits e)%string
  | String d1 rest => String d1 ("." ++ rest ++ "e+" ++ Z_to_digits e)%string
  | EmptyString => "0"%string
  end.

Definition toFixed (x : num) (fractionDigits : Z) : result string :=
  if (fractionDigits <? 0) || (100 <? fractionDigits)
  then Throw "RangeError: toFixed() digits argument must be between 0 and 100"
  else
    match x with
    | NaN => Ok "NaN"%string
    | PInf => Ok "Infinity"%string
    | NInf => Ok "-Infinity"%string
    | Fin q =>
        let s := match (q ?= 0)%Q with Lt => "-"%string | _ => EmptyString end in
        let a := Qabs q in
        if Qle_bool (pow10 21) a then Ok (s ++ toString_large a)%string
        else Ok (s ++ fixed_digits a fractionDigits)%string
    end.

End JsString.
Import JsString.
(** ** The mesh types, declared alike in bin2ascii.ts and stl_utils.ts *)

Definition Vec3 : Type := num * num * num.

Record Triangle : Type := mkTriangle {
  normal : Vec3;
  vertices : Vec3 * Vec3 * Vec3
}.

(** ** DataView over an ArrayBuffer *)

Module DataView.

Definition le32 (b0 b1 b2 b3 : byte) : Z :=
  Z.of_N (Byte.to_N b0)
  + Z.shiftl (Z.of_N (Byte.to_N b1)) 8
  + Z.shiftl (Z.of_N (Byte.to_N b2)) 16
  + Z.shiftl (Z.of_N (Byte.to_N b3)) 24.

(** The number a binary32 bit pattern stands for. *)
Definition float32_of_bits (w : Z) : num :=
  let sign := Z.testbit w 31 in
  let e := Z.land (Z.shiftr w 23) 255 in
  let m := Z.land w (2 ^ 23 - 1) in
  if e =? 255 then
    if m =? 0 then (if sign then NInf else PInf) else NaN
  else
    let mag :=
      if e =? 0 then (inject_Z m * Qpower 2 (-149))%Q
      else (inject_Z (2 ^ 23 + m) * Qpower 2 (e - 150))%Q in
    fin (if sign then (- mag)%Q else mag).

Definition rangeError {A} : result A :=
  Throw "RangeError: Offset is outside the bounds of the DataView".

(** [view.getUint32(byteOffset, true)] *)
Definition getUint32 (view : list byte) (byteOffset : nat) : result Z :=
  match skipn byteOffset view with
  | b0 :: b1 :: b2 :: b3 :: _ => Ok (le32 b0 b1 b2 b3)
  | _ => rangeError
  end.

(** [view.getFloat32(byteOffset, true)] *)
Definition getFloat32 (view : list byte) (byteOffset : nat) : result num :=
  match skipn byteOffset view with
  | b0 :: b1 :: b2 :: b3 :: _ => Ok (float32_of_bits (le32 b0 b1 b2 b3))
  | _ => rangeError
  end.

End DataView.
Import DataView.

(** ** bin2ascii.ts *)

Module Bin2Ascii.

Definition isLikelyBinaryStl (fileSize : Z) (headerAndCount : list byte)
  : result bool :=
  if fileSize <? 84 then Ok false
  else
    triangleCount <- getUint32 headerAndCount 80 ;;
    let expected := 84 + triangleCount * 50 in
    Ok (expected =? fileSize).

Definition readFloat3 (view : list byte) (offset : nat) : result Vec3 :=
  x <- getFloat32 view (offset + 0) ;;
  y <- getFloat32 view (offset + 4) ;;
  z <- getFloat32 view (offset + 8) ;;
  Ok (x, y, z).

(** The [for] loop of [parseBinaryStl], [count] triangles left to read. *)
Fixpoint readTriangles (view : list byte) (count : nat) (offset : nat)
  : result (list Triangle) :=
  match count with
  | O => Ok []
  | S count' =>
      normal <- readFloat3 view offset ;;
      v1 <- readFloat3 view (offset + 12) ;;
      v2 <- readFloat3 view (offset + 24) ;;
      v3 <- readFloat3 view (offset + 36) ;;
      rest <- readTriangles view count' (offset + 50) ;;
      Ok ({| normal := normal; vertices := (v1, v2, v3) |} :: rest)
  end.

Definition parseBinaryStl (buffer : list byte) : result (list Triangle) :=
  let view := buffer in
  let fileSize := Z.of_nat (length buffer) in
  if fileSize <? 84 then Throw "File too small to be a valid binary STL."
  else
    likely <- isLikelyBinaryStl fileSize view ;;
    if negb likely
    then Throw "Input does not look like a binary STL (size/count mismatch)."
    else
      triangleCount <- getUint32 view 80 ;;
      readTriangles view (Z.to_nat triangleCount) 84.

(** [s.replace(/\.0+$/u, '')]: the match is the leftmost point followed by
    zeros only, to the end. *)
Fixpoint replaceDotZeros (s : string) : string :=
  match s with
  | EmptyString => EmptyString
  | String c s' =>
      if Ascii.eqb c "." && negb (isEmpty s')
         && forallb_str (Ascii.eqb "0") s'
      then EmptyString
      else String c (replaceDotZeros s')
  end.

(** [s.replace(/(\.\d*?)0+$/u, '$1')]: the match is the leftmost point
    followed by digits only with a last 0; the group is the point and the
    digits before the final run of zeros. *)
Fixpoint replaceFractionZeros (s : string) : string :=
  match s with
  | EmptyString => EmptyString
  | String c s' =>
      if Ascii.eqb c "." && forallb_str isDigit s'
         && negb (String.eqb (strip_trailing_zeros s') s')
      then String c (strip_trailing_zeros s')
      else String c (replaceFractionZeros s')
  end.

Definition trimTrailingZeros (numStr : string) : string :=
  if negb (contains "." numStr) then numStr
  else replaceFractionZeros (replaceDotZeros numStr).

(** The sign of zero is not modelled, so [Object.is(value, -0)] has no
    counterpart here. *)
Definition formatFloat (value : num) (precision : Z) : result string :=
  if negb (Number_isFinite value) then Ok "0"%string
  else
    fixed <- toFixed value precision ;;
    Ok (trimTrailingZeros fixed).

Definition formatFloat3 (v : Vec3) (precision : Z) : result string :=
  let '(x, y, z) := v in
  sx <- formatFloat x precision ;;
  sy <- formatFloat y precision ;;
  sz <- formatFloat z precision ;;
  Ok (sx ++ " " ++ sy ++ " " ++ sz)%string.

(** The lines pushed for one triangle. *)
Definition facetLines (tri : Triangle) (precision : Z) : result (list string) :=
  n <- formatFloat3 (normal tri) precision ;;
  let '(a, b, c) := vertices tri in
  sa <- formatFloat3 a precision ;;
  sb <- formatFloat3 b precision ;;
  sc <- formatFloat3 c precision ;;
  Ok [("  facet normal " ++ n)%string;
      "    outer loop"%string;
      ("      vertex " ++ sa)%string;
      ("      vertex " ++ sb)%string;
      ("      vertex " ++ sc)%string;
      "    endloop"%string;
      "  endfacet"%string].

Fixpoint allFacetLines (triangles : list Triangle) (precision : Z)
  : result (list string) :=
  match triangles with
  | [] => Ok []
  | tri :: rest =>
      ls <- facetLines tri precision ;;
      more <- allFacetLines rest precision ;;
      Ok (ls ++ more)
  end.

Definition trianglesToAscii (triangles : list Triangle) (solidName : string)
    (precision : Z) : result string :=
  body <- allFacetLines triangles precision ;;
  let lines :=
    [("solid " ++ solidName)%string] ++ body
      ++ [("endsolid " ++ solidName)%string] in
  Ok (join (String LF EmptyString) lines).

Definition isBinaryStl (buffer : list byte) : result bool :=
  isLikelyBinaryStl (Z.of_nat (length buffer)) buffer.


End Bin2Ascii.
(** ** stl_utils.ts: geometry, sampling, Chamfer statistics *)

Module StlUtils.

Definition parseFloatsFromLine (line : string) : list num :=
  map Number (skipn 2 (split_ws (trim line))).

(** [vals[i] || 0], where [vals[i]] may be undefined. *)
Definition orZero (v : option num) : num :=
  match v with
  | Some x => or_else x zero
  | None => zero
  end.

Definition vec3Of (vals : list num) : Vec3 :=
  (orZero (nth_error vals 0), orZero (nth_error vals 1), orZero (nth_error vals 2)).

(** [(lines[i] ?? '').trim()] *)
Definition lineAt (lines : list string) (i : nat) : string :=
  trim (nth i lines EmptyString).

(** [while (i < lines.length && !lines[i].trim().startsWith(tok)) i++],
    with [rest] the lines from index [i] on. *)
Fixpoint scanTo (tok : string) (rest : list string) (i : nat) : nat :=
  match rest with
  | [] => i
  | l :: rest' => if startsWith (trim l) tok then i else scanTo tok rest' (S i)
  end.

Definition skipUntil (tok : string) (lines : list string) (i : nat) : nat :=
  scanTo tok (skipn i lines) i.

(** The vertex loop, [k] rounds left, [rest] the lines from index [i] on:
    the vertices read and the index reached. *)
Fixpoint readVertices (k : nat) (rest : list string) (i : nat) : list Vec3 * nat :=
  match k with
  | O => ([], i)
  | S k' =>
      match rest with
      | [] => ([], i)
      | l :: rest' =>
          let vline := trim l in
          if negb (startsWith vline "vertex") then ([], i)
          else
            let vals := map Number (skipn 1 (split_ws vline)) in
            let '(verts, j) := readVertices k' rest' (S i) in
            (vec3Of vals :: verts, j)
      end
  end.

(** The body of the main loop at a [facet normal] line: the triangle
    pushed, if any, and the index of the line the scan for [endfacet]
    stopped at. *)
Definition parseFacet (lines : list string) (i : nat) : option Triangle * nat :=
  let normal := vec3Of (parseFloatsFromLine (lineAt lines i)) in
  let i := S i in
  let i := skipUntil "outer loop" lines i in
  let i := S i in
  let '(verts, i) := readVertices 3 (skipn i lines) i in
  let i := skipUntil "endfacet" lines i in
  match verts with
  | [v0; v1; v2] => (Some {| normal := normal; vertices := (v0, v1, v2) |}, i)
  | _ => (None, i)
  end.

(** The main [while (i < lines.length)] loop. *)
Fixpoint parseLoop (fuel : nat) (lines : list string) (i : nat)
    (triangles : list Triangle) : result (list Triangle) :=
  if (i <? length lines)%nat then
    match fuel with
    | O => Diverge
    | S fuel' =>
        if startsWith (lineAt lines i) "facet normal" then
          let '(t, j) := parseFacet lines i in
          let triangles :=
            match t with
            | Some tri => triangles ++ [tri]
            | None => triangles
            end in
          parseLoop fuel' lines (S j) triangles
        else parseLoop fuel' lines (S i) triangles
    end
  else Ok triangles.

Definition parseAsciiStl (text : string) : result (list Triangle) :=
  let lines := split_on LF (replace_crlf text) in
  parseLoop (length lines) lines 0%nat [].

Record Aabb : Type := mkAabb {
  min : Vec3;
  max : Vec3
}.

Definition vectorSubtract (a b : Vec3) : Vec3 :=
  let '(a0, a1, a2) := a in
  let '(b0, b1, b2) := b in
  (nsub a0 b0, nsub a1 b1, nsub a2 b2).

Definition vectorAdd (a b : Vec3) : Vec3 :=
  let '(a0, a1, a2) := a in
  let '(b0, b1, b2) := b in
  (nadd a0 b0, nadd a1 b1, nadd a2 b2).

Definition vectorScale (a : Vec3) (s : num) : Vec3 :=
  let '(a0, a1, a2) := a in
  (nmul a0 s, nmul a1 s, nmul a2 s).

(** One pass of the innermost loops of [aabbOfTriangles] for a vertex. *)
Definition aabbExtend (box : Aabb) (v : Vec3) : Aabb :=
  let '(v0, v1, v2) := v in
  let '(m0, m1, m2) := min box in
  let '(M0, M1, M2) := max box in
  {| min := (if nlt v0 m0 then v0 else m0,
             if nlt v1 m1 then v1 else m1,
             if nlt v2 m2 then v2 else m2);
     max := (if ngt v0 M0 then v0 else M0,
             if ngt v1 M1 then v1 else M1,
             if ngt v2 M2 then v2 else M2) |}.

Definition aabbOfTriangles (triangles : list Triangle) : Aabb :=
  fold_left
    (fun box t =>
       let '(a, b, c) := vertices t in
       aabbExtend (aabbExtend (aabbExtend box a) b) c)
    triangles
    {| min := (PInf, PInf, PInf); max := (NInf, NInf, NInf) |}.

Definition aabbVolume (box : Aabb) : num :=
  let '(m0, m1, m2) := min box in
  let '(M0, M1, M2) := max box in
  let dx := Math_max zero (nsub M0 m0) in
  let dy := Math_max zero (nsub M1 m1) in
  let dz := Math_max zero (nsub M2 m2) in
  nmul (nmul dx dy) dz.

Definition aabbIntersection (a b : Aabb) : option Aabb :=
  let '(am0, am1, am2) := min a in
  let '(aM0, aM1, aM2) := max a in
  let '(bm0, bm1, bm2) := min b in
  let '(bM0, bM1, bM2) := max b in
  let '(m0, m1, m2) := (Math_max am0 bm0, Math_max am1 bm1, Math_max am2 bm2) in
  let '(M0, M1, M2) := (Math_min aM0 bM0, Math_min aM1 bM1, Math_min aM2 bM2) in
  if nlt M0 m0 || nlt M1 m1 || nlt M2 m2 then None
  else Some {| min := (m0, m1, m2); max := (M0, M1, M2) |}.

Definition aabbIou (a b : Aabb) : num :=
  match aabbIntersection a b with
  | None => zero
  | Some inter =>
      let vI := aabbVolume inter in
      let vU := nsub (nadd (aabbVolume a) (aabbVolume b)) vI in
      if ngt vU zero then ndiv vI vU else zero
  end.

Definition cross (a b : Vec3) : Vec3 :=
  let '(a0, a1, a2) := a in
  let '(b0, b1, b2) := b in
  (nsub (nmul a1 b2) (nmul a2 b1),
   nsub (nmul a2 b0) (nmul a0 b2),
   nsub (nmul a0 b1) (nmul a1 b0)).

Definition dot (a b : Vec3) : num :=
  let '(a0, a1, a2) := a in
  let '(b0, b1, b2) := b in
  nadd (nadd (nmul a0 b0) (nmul a1 b1)) (nmul a2 b2).

Definition squaredDistance (a b : Vec3) : num :=
  let '(a0, a1, a2) := a in
  let '(b0, b1, b2) := b in
  let dx := nsub a0 b0 in
  let dy := nsub a1 b1 in
  let dz := nsub a2 b2 in
  nadd (nadd (nmul dx dx) (nmul dy dy)) (nmul dz dz).

Definition translatePoints (points : list Vec3) (delta : Vec3) : list Vec3 :=
  map (fun p => vectorAdd p delta) points.

Definition scalePoints (points : list Vec3) (s : num) : list Vec3 :=
  map (fun p => vectorScale p s) points.

Definition signedVolume (triangles : list Triangle) : num :=
  let vol6 :=
    fold_left
      (fun sum t =>
         let '(p0, p1, p2) := vertices t in
         nadd sum (dot p0 (cross p1 p2)))
      triangles zero in
  ndiv vol6 (ofZ 6).

Record ChamferStats : Type := mkChamferStats {
  meanAB : num;
  meanBA : num;
  p95AB : num;
  p95BA : num;
  maxAB : num;
  maxBA : num
}.

(** The random source: [rng k] is the value of the k-th call. *)
Definition Rng : Type := nat -> num.

Section Geometry.
Variable sqrtQ : Q -> Q.

Definition triangleArea (t : Triangle) : num :=
  let '(a, b, c) := vertices t in
  let ab := vectorSubtract b a in
  let ac := vectorSubtract c a in
  let cr := cross ab ac in
  let mag := Math_sqrt sqrtQ (dot cr cr) in
  nmul (Fin (1 # 2)) mag.

Definition surfaceArea (triangles : list Triangle) : num :=
  fold_left (fun sum t => nadd sum (triangleArea t)) triangles zero.


Definition aabbDiagonal (box : Aabb) : num :=
  let '(m0, m1, m2) := min box in
  let '(M0, M1, M2) := max box in
  let dx := nsub M0 m0 in
  let dy := nsub M1 m1 in
  let dz := nsub M2 m2 in
  Math_sqrt sqrtQ (nadd (nadd (nmul dx dx) (nmul dy dy)) (nmul dz dz)).

(** *** sampleSurfacePoints *)

(** [areas] after the first two loops: the triangle areas, or all 1 when
    they sum to 0. *)
Definition sampleWeights (triangles : list Triangle) : list num :=
  let areas := map triangleArea triangles in
  let total := fold_left nadd areas zero in
  if nseq total zero then map (fun _ => one) areas else areas.

(** The prefix-sum loop: [areas[i]] becomes [areas[0] + ... + areas[i]]. *)
Fixpoint prefixFrom (cumulative : num) (rest : list num) : list num :=
  match rest with
  | [] => []
  | current :: rest' =>
      let cumulative' := nadd cumulative current in
      cumulative' :: prefixFrom cumulative' rest'
  end.

Definition prefixSums (areas : list num) : list num :=
  match areas with
  | [] => []
  | a0 :: rest => a0 :: prefixFrom a0 rest
  end.

(** The [while (lo < hi)] loop of [pickTriangleIndex]; [None] when the
    fuel runs out. *)
Fixpoint bsearch (fuel : nat) (areas : list num) (r : num) (lo hi : Z)
  : option Z :=
  if lo <? hi then
    match fuel with
    | O => None
    | S fuel' =>
        let mid := sar (lo + hi) 1 in
        let cutoff := nullish (Array_getZ areas mid) zero in
        if nle r cutoff then bsearch fuel' areas r lo mid
        else bsearch fuel' areas r (mid + 1) hi
    end
  else Some lo.

Section Sampler.
Variable rng : Rng.

(** [k] counts the calls of [rng] made so far. *)
Definition pickTriangleIndex (areas : list num) (k : nat) : result Z :=
  let n := Z.of_nat (length areas) in
  let totalArea := nullish (Array_getZ areas (n - 1)) zero in
  let r := nmul (rng k) totalArea in
  match bsearch (length areas) areas r 0 (n - 1) with
  | Some lo => Ok lo
  | None => Diverge
  end.

Definition samplePointInTriangle (a b c : Vec3) (k : nat) : Vec3 :=
  let '(a0, a1, a2) := a in
  let '(b0, b1, b2) := b in
  let '(c0, c1, c2) := c in
  let r1 := Math_sqrt sqrtQ (rng k) in
  let r2 := rng (S k) in
  let u := nsub one r1 in
  let v := nmul r1 (nsub one r2) in
  let w := nmul r1 r2 in
  (nadd (nadd (nmul u a0) (nmul v b0)) (nmul w c0),
   nadd (nadd (nmul u a1) (nmul v b1)) (nmul w c1),
   nadd (nadd (nmul u a2) (nmul v b2)) (nmul w c2)).

(** The final [for] loop, [count] iterations left. *)
Fixpoint sampleLoop (triangles : list Triangle) (areas : list num)
    (count : nat) (k : nat) : result (list Vec3) :=
  match count with
  | O => Ok []
  | S count' =>
      idx <- pickTriangleIndex areas k ;;
      match Array_getZ triangles idx with
      | None => Throw "TypeError: undefined is not an object"
      | Some tri =>
          let '(a, b, c) := vertices tri in
          let p := samplePointInTriangle a b c (S k) in
          pts <- sampleLoop triangles areas count' (3 + k)%nat ;;
          Ok (p :: pts)
      end
  end.

Definition sampleSurfacePoints (triangles : list Triangle)
    (sampleCount : Z) : result (list Vec3) :=
  let n := length triangles in
  if (n =? 0)%nat || (sampleCount <=? 0) then Ok []
  else
    sampleLoop triangles (prefixSums (sampleWeights triangles))
      (Z.to_nat sampleCount) 0%nat.
End Sampler.

(** *** chamferDistance *)

Definition nearestSquared (p : Vec3) (b : list Vec3) : num :=
  fold_left
    (fun best q =>
       let d2 := squaredDistance p q in
       if nlt d2 best then d2 else best)
    b PInf.

Definition oneWay (a b : list Vec3) : num * num * num :=
  let mins := map (fun p => Math_sqrt sqrtQ (nearestSquared p b)) a in
  let mins := Array_sort (fun x y => nsub x y) mins in
  let len := ofZ (Z.of_nat (length mins)) in
  let mean := ndiv (fold_left (fun s x => nadd s x) mins zero) (or_else len one) in
  let p95Index := Math_min (nsub len one) (Math_floor (nmul len (Fin (95 # 100)))) in
  let p95 := nullish (Array_get mins p95Index) zero in
  let max := nullish (Array_get mins (nsub len one)) zero in
  (mean, p95, max).

Definition chamferDistance (pointsA pointsB : list Vec3) : ChamferStats :=
  let '(abMean, abP95, abMax) := oneWay pointsA pointsB in
  let '(baMean, baP95, baMax) := oneWay pointsB pointsA in
  {| meanAB := abMean; meanBA := baMean;
     p95AB := abP95; p95BA := baP95;
     maxAB := abMax; maxBA := baMax |}.

End Geometry.

End StlUtils.

(** ** bench.ts: the metric bundle *)

Module Bench.

Record Metrics : Type := mkMetrics {
  aabbIou : num;
  surfaceAreaRatio : num;
  volumeRatio : num;
  chamfer : StlUtils.ChamferStats
}.

Section Compare.
Variable sqrtQ : Q -> Q.
(** [Math.random]: both sampling calls draw from the one stream. *)
Variable random : StlUtils.Rng.

Definition compareAsciiStlText (srcText genText : string) : result Metrics :=
  srcTris <- StlUtils.parseAsciiStl srcText ;;
  genTris <- StlUtils.parseAsciiStl genText ;;
  let aabbSrc := StlUtils.aabbOfTriangles srcTris in
  let aabbGen := StlUtils.aabbOfTriangles genTris in
  let iou := StlUtils.aabbIou aabbSrc aabbGen in
  let areaSrc := StlUtils.surfaceArea sqrtQ srcTris in
  let areaGen := StlUtils.surfaceArea sqrtQ genTris in
  let volSrc := Math_abs (StlUtils.signedVolume srcTris) in
  let volGen := Math_abs (StlUtils.signedVolume genTris) in
  let sampleN := 2000 in
  ptsSrc <- StlUtils.sampleSurfacePoints sqrtQ random srcTris sampleN ;;
  let random' := fun k => random (3 * length ptsSrc + k)%nat in
  ptsGen <- StlUtils.sampleSurfacePoints sqrtQ random' genTris sampleN ;;
  let chamfer := StlUtils.chamferDistance sqrtQ ptsSrc ptsGen in
  let diag :=
    Math_max (Fin (1 # 1000000000))
      (Math_max (StlUtils.aabbDiagonal sqrtQ aabbSrc)
                (StlUtils.aabbDiagonal sqrtQ aabbGen)) in
  let scaledChamfer :=
    {| StlUtils.meanAB := ndiv (StlUtils.meanAB chamfer) diag;
       StlUtils.meanBA := ndiv (StlUtils.meanBA chamfer) diag;
       StlUtils.p95AB := ndiv (StlUtils.p95AB chamfer) diag;
       StlUtils.p95BA := ndiv (StlUtils.p95BA chamfer) diag;
       StlUtils.maxAB := ndiv (StlUtils.maxAB chamfer) diag;
       StlUtils.maxBA := ndiv (StlUtils.maxBA chamfer) diag |} in
  Ok {| aabbIou := iou;
        surfaceAreaRatio :=
          if ngt areaGen zero && ngt areaSrc zero
          then ndiv (Math_min areaGen areaSrc) (Math_max areaGen areaSrc)
          else zero;
        volumeRatio :=
          if ngt volGen zero && ngt volSrc zero
          then ndiv (Math_min volGen volSrc) (Math_max volGen volSrc)
          else zero;
        chamfer := scaledChamfer |}.
End Compare.

End Bench.

(** ** Reference definitions and sample inputs *)

Import StlUtils.

(** *** The binary layout, read off the buffer by position *)

Definition byteAt (buffer : list byte) (i : nat) : byte := nth i buffer x00.

Definition uint32At (buffer : list byte) (off : nat) : Z :=
  le32 (byteAt buffer off) (byteAt buffer (off + 1))
       (byteAt buffer (off + 2)) (byteAt buffer (off + 3)).

Definition float32At (buffer : list byte) (off : nat) : num :=
  float32_of_bits (uint32At buffer off).

Definition float3At (buffer : list byte) (off : nat) : Vec3 :=
  (float32At buffer off, float32At buffer (off + 4), float32At buffer (off + 8)).

(** The little-endian count held at offset 80. *)
Definition embeddedCount (buffer : list byte) : Z := uint32At buffer 80.

(** The record that starts at byte [off]. *)
Definition recordAt (view : list byte) (off : nat) : Triangle :=
  {| normal := float3At view off;
     vertices := (float3At view (off + 12), float3At view (off + 24),
                  float3At view (off + 36)) |}.

(** The [i]-th 50-byte record after the 84-byte header. *)
Definition triangleAt (buffer : list byte) (i : nat) : Triangle :=
  let off := (84 + 50 * i)%nat in
  {| normal := float3At buffer off;
     vertices := (float3At buffer (off + 12), float3At buffer (off + 24),
                  float3At buffer (off + 36)) |}.

(** *** Sample meshes *)

(** The mesh of the specification's scenario: one triangle in the plane
    z = 0. *)
Definition flatMesh : list Triangle :=
  [ {| normal := (Fin 0, Fin 0, Fin 1);
       vertices := ((Fin 0, Fin 0, Fin 0), (Fin 1, Fin 0, Fin 0), (Fin 0, Fin 1, Fin 0)) |} ].



(** *** Sample buffers *)

(** 134 zero bytes: the length of a file with one triangle, the count
    field says none. *)
Definition zeroBuffer134 : list byte := repeat x00 134.

(** An 84-byte header announcing one triangle, and one zero record. *)
Definition oneTriangleBuffer : list byte :=
  repeat x00 80 ++ [x01; x00; x00; x00] ++ repeat x00 50.

(** *** Finite meshes, convex combinations, points inside a box *)

Definition isFinite (a : num) : Prop := Number_isFinite a = true.

(** The rational a finite number stands for. *)
Definition qval (a : num) : Q :=
  match a with
  | Fin q => q
  | _ => 0
  end.

Definition coord (i : nat) (v : Vec3) : num :=
  let '(x, y, z) := v in
  match i with
  | 0%nat => x
  | 1%nat => y
  | _ => z
  end.

Definition finiteVec (v : Vec3) : Prop :=
  forall i, isFinite (coord i v).

Definition finiteTriangle (t : Triangle) : Prop :=
  let '(a, b, c) := vertices t in
  finiteVec a /\ finiteVec b /\ finiteVec c.

Definition finiteMesh (triangles : list Triangle) : Prop :=
  Forall finiteTriangle triangles.

Definition finitePoints (points : list Vec3) : Prop :=
  Forall finiteVec points.

(** [p = u a + v b + w c] with non-negative weights of sum 1. *)
Definition convexCombination (p a b c : Vec3) : Prop :=
  finiteVec p /\
  exists u v w : Q,
    (0 <= u /\ 0 <= v /\ 0 <= w /\ u + v + w == 1)%Q /\
    forall i,
      (qval (coord i p) ==
         u * qval (coord i a) + v * qval (coord i b) + w * qval (coord i c))%Q.

Definition insideAabb (p : Vec3) (box : Aabb) : Prop :=
  forall i,
    nle (coord i (min box)) (coord i p) = true
    /\ nle (coord i p) (coord i (max box)) = true.

(** No bound of the box is NaN. *)
Definition properBox (box : Aabb) : Prop :=
  forall i, coord i (min box) <> NaN /\ coord i (max box) <> NaN.

(** The loop body of [aabbOfTriangles] for one triangle. *)
Definition aabbStep (box : Aabb) (t : Triangle) : Aabb :=
  let '(a, b, c) := vertices t in
  aabbExtend (aabbExtend (aabbExtend box a) b) c.

(** A random source with values in [0, 1). *)
Definition unitRng (rng : Rng) : Prop :=
  forall k, exists q, rng k = Fin q /\ (0 <= q < 1)%Q.

(** A constant source for evaluation. *)
Definition rngHalf : Rng := fun _ => Fin (1 # 2).

(** Two triangles of area 1/2 and 2. *)
Definition twoTriangles : list Triangle :=
  [ {| normal := (Fin 0, Fin 0, Fin 1);
       vertices := ((Fin 0, Fin 0, Fin 0), (Fin 1, Fin 0, Fin 0), (Fin 0, Fin 1, Fin 0)) |};
    {| normal := (Fin 0, Fin 0, Fin 1);
       vertices := ((Fin 0, Fin 0, Fin 1), (Fin 2, Fin 0, Fin 1), (Fin 0, Fin 2, Fin 1)) |} ].

(** *** The Chamfer statistics, as the specification words them *)

Definition num_le (x y : num) : Prop := nle x y = true.

(** The Euclidean distance of two points. *)
Definition distance (sqrtQ : Q -> Q) (p q : Vec3) : num :=
  Math_sqrt sqrtQ (squaredDistance p q).

(** [d] is the least of the distances from [p] to the points of [target]. *)
Definition isNearestDistance (sqrtQ : Q -> Q) (target : list Vec3)
    (p : Vec3) (d : num) : Prop :=
  (exists q, In q target /\ d = distance sqrtQ p q)
  /\ forall q, In q target -> num_le d (distance sqrtQ p q).

(** The exact sum of finite numbers. *)
Fixpoint qsum (l : list num) : Q :=
  match l with
  | [] => 0
  | x :: l' => qval x + qsum l'
  end.

Definition sumOf (ds : list num) : num := fold_left nadd ds zero.

(** Mean, 95th percentile and maximum of the distances [ds]: with the
    distances sorted ascending, the average, the value at index
    [floor (0.95 * count)] clamped to [count - 1], and the last value. *)
Definition isStatsOf (ds : list num) (mean p95 max : num) : Prop :=
  let count := Z.of_nat (length ds) in
  exists sorted,
    Permutation sorted ds
    /\ Sorted num_le sorted
    /\ mean = ndiv (sumOf ds) (ofZ count)
    /\ nth_error sorted
         (Z.to_nat (Z.min (count - 1) (Qfloor ((95 # 100) * inject_Z count))))
       = Some p95
    /\ nth_error sorted (Z.to_nat (count - 1)) = Some max.

(** Two small point clouds. *)
Definition cloudA : list Vec3 :=
  [(Fin 0, Fin 0, Fin 0); (Fin 1, Fin 0, Fin 0); (Fin 0, Fin 5, Fin 0)].
Definition cloudB : list Vec3 :=
  [(Fin 0, Fin 0, Fin 0); (Fin 3, Fin 0, Fin 0)].

(** *** Sample texts *)

(** The single triangle of the specification's scenario. *)
Definition oneTriangleStl : string :=
"solid t
  facet normal 0 0 1
    outer loop
      vertex 0 0 0
      vertex 1 0 0
      vertex 0 1 0
    endloop
  endfacet
endsolid t".

(** *** Lines of a text mesh *)

Definition linesOf (text : string) : list string :=
  split_on LF (replace_crlf text).

Definition isFacetLine (l : string) : bool := startsWith (trim l) "facet normal".
Definition isOuterLoopLine (l : string) : bool := startsWith (trim l) "outer loop".
Definition isVertexLine (l : string) : bool := startsWith (trim l) "vertex".
Definition isEndFacetLine (l : string) : bool := startsWith (trim l) "endfacet".

(** The vertex a [vertex x y z] line stands for. *)
Definition vertexOfLine (l : string) : Vec3 :=
  vec3Of (map Number (skipn 1 (split_ws (trim l)))).

(** The normal a [facet normal x y z] line stands for. *)
Definition normalOfLine (l : string) : Vec3 :=
  vec3Of (parseFloatsFromLine (trim l)).

(** A facet block with a fourth vertex line, and one with a blank line
    before its vertex lines. *)
Definition fourVertexStl : string :=
"facet normal 0 0 1
outer loop
vertex 0 0 0
vertex 1 0 0
vertex 0 1 0
vertex 5 5 5
endloop
endfacet".

Definition gapStl : string :=
"facet normal 0 0 1
outer loop

vertex 0 0 0
vertex 1 0 0
vertex 0 1 0
endloop
endfacet".

(** *** The round trip through the text format *)

Definition notWhiteSpace (c : ascii) : bool := negb (isWhiteSpace c).

(** A non-empty white-space-free string. *)
Definition isToken (s : string) : Prop :=
  s <> EmptyString /\ forallb_str notWhiteSpace s = true.


Definition tolerance : Q := 1 # 1000000.

(** [|a - b| <= tol], computed on numbers. *)
Definition within (tol : Q) (a b : num) : Prop :=
  nle (Math_abs (nsub a b)) (Fin tol) = true.

Definition closeVec (tol : Q) (p q : Vec3) : Prop :=
  forall i, within tol (coord i p) (coord i q).

Definition closeTriangle (tol : Q) (t t' : Triangle) : Prop :=
  let '(a, b, c) := vertices t in
  let '(a', b', c') := vertices t' in
  closeVec tol a a' /\ closeVec tol b b' /\ closeVec tol c c'.

(** Same number of triangles, vertices within [tol] of one another. *)
Definition closeMesh (tol : Q) (m m' : list Triangle) : Prop :=
  Forall2 (closeTriangle tol) m m'.

(** Encode with precision 6, and decode again. *)
Definition reencode (triangles : list Triangle) (solidName : string)
  : result (list Triangle) :=
  text <- Bin2Ascii.trianglesToAscii triangles solidName 6 ;;
  StlUtils.parseAsciiStl text.

(** A rational with a finite decimal expansion. *)
Definition decimalQ (q : Q) : Prop :=
  exists z j, 0 <= j /\ (q == inject_Z z / pow10 j)%Q.

(** A number with a finite decimal expansion, or an infinity. *)
Definition decimalNum (a : num) : Prop :=
  match a with
  | NaN => False
  | Fin q => decimalQ q
  | _ => True
  end.

(** A facet with an infinite coordinate. *)
Definition infinityStl : string :=
"facet normal 0 0 1
outer loop
vertex Infinity 0 0
vertex 1 0 0
vertex 0 1 0
endloop
endfacet".

(** A facet with long and large coordinates. *)
Definition longStl : string :=
"facet normal 0 0 1
outer loop
vertex 0.12345678 -2.5e-7 1e21
vertex 1000000000000000000000.5 0 0x10
vertex 0 1.0000005 -3
endloop
endfacet".

(** An exponent part ["e+ds"] of value [e], or nothing. *)
Definition exponentPart (ex : string) (e : Z) : Prop :=
  (ex = EmptyString /\ e = 0)
  \/ exists ds,
       ex = String "e" (String "+" ds) /\ ds <> EmptyString
       /\ forallb_str isDigit ds = true /\ e = digits_value ds.

(** The shape of the numerals [formatFloat] prints: sign, integer digits,
    fraction, exponent. *)
Definition numeral (neg dot : bool) (ip fp ex : string) : string :=
  ((if neg then "-" else "") ++ ip
     ++ (if dot then String "." fp else EmptyString) ++ ex)%string.

(** A line without its final carriage return, if it has one. *)
Fixpoint dropCR (s : string) : string :=
  match s with
  | EmptyString => EmptyString
  | String c s' =>
      match s' with
      | EmptyString => if Ascii.eqb c CR then EmptyString else s
      | _ => String c (dropCR s')
      end
  end.

(** A line with no line feed and no final carriage return. *)
Definition plainLine (l : string) : Prop :=
  contains LF l = false /\ dropCR l = l.

(** Every coordinate of the triangle, normal included, is a decimal
    fraction or an infinity. *)
Definition decimalVec (v : Vec3) : Prop := forall i, decimalNum (coord i v).

Definition decimalTriangle (t : Triangle) : Prop :=
  let '(a, b, c) := vertices t in
  decimalVec (normal t) /\ decimalVec a /\ decimalVec b /\ decimalVec c.

(** Three tokens separated by single spaces. *)
Definition triple (x y z : string) : string :=
  (x ++ String " " (y ++ String " " z))%string.

(** The seven lines of a facet block. *)
Definition blockOf (lf l1 l2 l3 : string) : list string :=
  [lf; "    outer loop"%string; l1; l2; l3; "    endloop"%string;
   "  endfacet"%string].

(** The mesh [longStl] decodes to. *)
Definition longMesh : list Triangle :=
  [ {| normal := (Fin 0, Fin 0, Fin 1);
       vertices :=
         ((Fin (6172839 # 50000000), Fin (-1 # 4000000),
           Fin (inject_Z (10 ^ 21))),
          (Fin (2000000000000000000001 # 2), Fin 0, Fin 16),
          (Fin 0, Fin (2000001 # 2000000), Fin (-3))) |} ].
(** *** Numbers up to the representation of a fraction *)

(** The same number: the same special value, or equal rationals. *)
Definition neqv (a b : num) : Prop :=
  match a, b with
  | NaN, NaN | PInf, PInf | NInf, NInf => True
  | Fin x, Fin y => (x == y)%Q
  | _, _ => False
  end.

(** NaN, +Infinity, or a finite number that is not negative. *)
Definition nonnegOrNaN (a : num) : Prop :=
  match a with
  | NaN | PInf => True
  | NInf => False
  | Fin q => (0 <= q)%Q
  end.

(** *** Vertices of a mesh *)

(** [v] is one of the three vertices of a triangle of the mesh. *)
Definition isVertexOf (v : Vec3) (triangles : list Triangle) : Prop :=
  exists t a b c,
    In t triangles /\ vertices t = (a, b, c) /\ (v = a \/ v = b \/ v = c).

(** Each bound of the box is the coordinate of a vertex that satisfies [P]. *)
Definition boundsAttained (P : Vec3 -> Prop) (box : Aabb) : Prop :=
  forall i,
    (exists v, P v /\ coord i (min box) = coord i v)
    /\ (exists v, P v /\ coord i (max box) = coord i v).

(** The same, or the bound is still the initial sentinel. *)
Definition boundsAttainedOrInitial (P : Vec3 -> Prop) (box : Aabb) : Prop :=
  forall i,
    (coord i (min box) = PInf \/ exists v, P v /\ coord i (min box) = coord i v)
    /\ (coord i (max box) = NInf
        \/ exists v, P v /\ coord i (max box) = coord i v).

(** The triangle with its winding reversed: the last two vertices
    exchanged. *)
Definition reverseWinding (t : Triangle) : Triangle :=
  let '(a, b, c) := vertices t in
  {| normal := normal t; vertices := (a, c, b) |}.

(** A finite number that is not negative. *)
Definition isNonnegFinite (a : num) : Prop :=
  exists r, a = Fin r /\ (0 <= r)%Q.

(** *** Cumulative weights *)

(** The sum of the weights of index 0 to [i]. *)
Definition cumulative (w : list num) (i : nat) : Q := qsum (firstn (S i) w).

(** *** Printing with a given precision *)




(** Half a unit of the [p]-th decimal. *)
Definition halfUnit (p : Z) : Q := (1 # 2) / pow10 p.






(** A binary file with one triangle: normal (0, 0, 1), vertices
    (1.5, -2, 0.1f), (NaN, 0, 0), (0, 1, +Infinity). *)
Definition sampleBinaryStl : list byte :=
  repeat x00 80 ++ [x01; x00; x00; x00]
    ++ [x00; x00; x00; x00;  x00; x00; x00; x00;  x00; x00; x80; x3f]
    ++ [x00; x00; xc0; x3f;  x00; x00; x00; xc0;  xcd; xcc; xcc; x3d]
    ++ [x00; x00; xc0; x7f;  x00; x00; x00; x00;  x00; x00; x00; x00]
    ++ [x00; x00; x00; x00;  x00; x00; x80; x3f;  x00; x00; x80; x7f]
    ++ [x00; x00].

(** Some coordinate of the vector is finite. *)
Definition anyFiniteVec (v : Vec3) : bool :=
  let '(x, y, z) := v in
  Number_isFinite x || Number_isFinite y || Number_isFinite z.

(** Some coordinate of the triangle, its normal included, is finite. *)
Definition anyFinite (t : Triangle) : bool :=
  let '(a, b, c) := vertices t in
  anyFiniteVec (normal t) || anyFiniteVec a || anyFiniteVec b || anyFiniteVec c.

Definition toFixedRangeError : string :=
  "RangeError: toFixed() digits argument must be between 0 and 100".

(** *** The metric bundle *)



(** The text of [twoTriangles]. *)
Definition twoTrianglesStl : string :=
"solid two
  facet normal 0 0 1
    outer loop
      vertex 0 0 0
      vertex 1 0 0
      vertex 0 1 0
    endloop
  endfacet
  facet normal 0 0 1
    outer loop
      vertex 0 0 1
      vertex 2 0 1
      vertex 0 2 1
    endloop
  endfacet
endsolid two".

(** The bytes of a binary STL file that hold data: the count at offsets
    80 to 83, and the first 48 bytes of each 50-byte record after it.  The
    others are the 80-byte header and the two attribute bytes that end
    each record. *)
Definition isPayloadByte (i : nat) : bool :=
  ((80 <=? i) && (i <? 84) || (84 <=? i) && ((i - 84) mod 50 <? 48))%nat.

(** [sampleBinaryStl] with another header and other attribute bytes. *)
Definition sampleBinaryStlRelabelled : list byte :=
  repeat x41 80 ++ firstn 52 (skipn 80 sampleBinaryStl) ++ [xff; x7f].

(** The two buffers hold the same data bytes, checked position by
    position. *)
Definition samePayload (b1 b2 : list byte) : bool :=
  forallb (fun i => implb (isPayloadByte i) (Byte.eqb (byteAt b1 i) (byteAt b2 i)))
          (seq 0 (length b1)).

(** ** More string built-ins *)

Module JsText.

Fixpoint map_str (f : ascii -> ascii) (s : string) : string :=
  match s with
  | EmptyString => EmptyString
  | String c s' => String (f c) (map_str f s')
  end.

(** [s.replace(/[...]/g, r)] for a class of single characters. *)
Definition replace_class (cls : ascii -> bool) (r : ascii) (s : string) : string :=
  map_str (fun c => if cls c then r else c) s.

(** [s.replace(/\s+/g, ' ')]; [in_ws] tells that the previous character
    was white space. *)
Fixpoint collapse_ws (in_ws : bool) (s : string) : string :=
  match s with
  | EmptyString => EmptyString
  | String c s' =>
      if isWhiteSpace c then
        if in_ws then collapse_ws true s'
        else String " "%char (collapse_ws true s')
      else String c (collapse_ws false s')
  end.

(** [toLowerCase] on code units below 256: the letters A-Z and the
    capital letters of Latin-1 (192-222 but the multiplication sign). *)
Definition toLowerChar (c : ascii) : ascii :=
  let n := code c in
  if ((65 <=? n) && (n <=? 90))
     || ((192 <=? n) && (n <=? 222) && negb (n =? 215))
  then ascii_of_N (Z.to_N (n + 32))
  else c.

Definition toLowerCase (s : string) : string := map_str toLowerChar s.

(** The first index at or after [i] where [pat] occurs in [s], [s] being
    the text from index [i] on; -1 when there is none. *)
Fixpoint indexOf_from (pat s : string) (i : Z) : Z :=
  if String.prefix pat s then i
  else
    match s with
    | EmptyString => -1
    | String _ s' => indexOf_from pat s' (i + 1)
    end.

(** [s.indexOf(pat)] *)
Definition indexOf (s pat : string) : Z := indexOf_from pat s 0.

(** The last index at or after [i] where [pat] occurs. *)
Fixpoint lastIndexOf_from (pat s : string) (i : Z) : Z :=
  let later :=
    match s with
    | EmptyString => -1
    | String _ s' => lastIndexOf_from pat s' (i + 1)
    end in
  if later =? -1 then (if String.prefix pat s then i else -1) else later.

(** [s.lastIndexOf(pat)] *)
Definition lastIndexOf (s pat : string) : Z := lastIndexOf_from pat s 0.

(** The text from index [n] on. *)
Fixpoint drop (n : nat) (s : string) : string :=
  match n, s with
  | O, _ => s
  | S n', String _ s' => drop n' s'
  | S _, EmptyString => EmptyString
  end.

(** [s.indexOf(pat, position)]: the position is clamped to the string. *)
Definition indexOfAt (s pat : string) (position : Z) : Z :=
  let len := Z.of_nat (String.length s) in
  let start := Z.min (Z.max position 0) len in
  indexOf_from pat (drop (Z.to_nat start) s) start.

(** [s.slice(a, b)]: a negative index counts from the end. *)
Definition slice (s : string) (a b : Z) : string :=
  let len := Z.of_nat (String.length s) in
  let from := if a <? 0 then Z.max (len + a) 0 else Z.min a len in
  let to := if b <? 0 then Z.max (len + b) 0 else Z.min b len in
  substring (Z.to_nat from) (Z.to_nat (Z.max (to - from) 0)) s.

End JsText.
Import JsText.

(** ** download_stls.ts: file names *)

Module DownloadStls.

(** [/[\u0000-\u001f]/] *)
Definition isControl (c : ascii) : bool := code c <? 32.

(** The class of backslash, slash, colon, star, question mark, double
    quote, angle brackets and bar. *)
Definition isReserved (c : ascii) : bool :=
  let n := code c in
  (n =? 92) || (n =? 47) || (n =? 58) || (n =? 42) || (n =? 63)
  || (n =? 34) || (n =? 60) || (n =? 62) || (n =? 124).

Definition sanitizeFilename (name : string) : string :=
  trim
    (collapse_ws false
       (replace_class isReserved "-"%char
          (replace_class isControl " "%char name))).

End DownloadStls.

(** ** generate_stl.ts: cleaning the text of a model *)

Module GenerateStl.

(** [/^```/.test(line.trim())] *)
Definition isFenceLine (line : string) : bool :=
  startsWith (trim line) "```".

Definition cleanStlText (raw : string) : string :=
  let text :=
    trim
      (join (String LF EmptyString)
         (filter (fun line => negb (isFenceLine line))
            (split_on LF (replace_crlf raw)))) in
  let startIdx := indexOf (toLowerCase text) "solid " in
  let endIdx := lastIndexOf (toLowerCase text) "endsolid" in
  if negb (startIdx =? -1) && negb (endIdx =? -1) && (startIdx <? endIdx)
  then
    let endLineBreak := indexOfAt text (String LF EmptyString) endIdx in
    trim
      (slice text startIdx
         (if endLineBreak =? -1 then Z.of_nat (String.length text)
          else endLineBreak))
  else text.

End GenerateStl.

(** *** Clean file names *)

(** No control or reserved character, and white space only as single
    spaces; [prev_ws] tells that the previous character was a space. *)
Fixpoint cleanFrom (prev_ws : bool) (s : string) : bool :=
  match s with
  | EmptyString => true
  | String c s' =>
      negb (DownloadStls.isControl c) && negb (DownloadStls.isReserved c)
      && (if isWhiteSpace c
          then Ascii.eqb c " "%char && negb prev_ws && cleanFrom true s'
          else cleanFrom false s')
  end.

(** A name that [sanitizeFilename] has nothing to change in. *)
Definition cleanName (s : string) : Prop :=
  cleanFrom false s = true /\ trim s = s.

(** The answer of a language model: a model between two fence lines. *)
Definition fencedLines : list string :=
  ["```stl"; "solid x"; "facet normal 0 0 1"; "endsolid x"; "```"]%string.

(* ================================================================== *)
(** * Properties *)
(* ================================================================== *)

(** ** Numbers *)

Lemma fin_eq (x y : Q) : (x == y)%Q -> fin x = fin y.
Proof. intros H. unfold fin. f_equal. now apply Qred_complete. Qed.

Lemma fin_Qred (x : Q) : fin (Qred x) = fin x.
Proof. apply fin_eq, Qred_correct. Qed.

Lemma fin_inv (x q : Q) : fin x = Fin q -> (q == x)%Q.
Proof.
  intros H. assert (E : q = Qred x) by (unfold fin in H; congruence).
  rewrite E. apply Qred_correct.
Qed.

Lemma nlt_Fin (x y : Q) : nlt (Fin x) (Fin y) = true <-> (x < y)%Q.
Proof.
  unfold nlt; simpl. rewrite Qlt_alt. destruct (x ?= y)%Q; split; congruence.
Qed.

Lemma ngt_Fin (x y : Q) : ngt (Fin x) (Fin y) = true <-> (y < x)%Q.
Proof.
  unfold ngt; simpl. change (y < x)%Q with (x > y)%Q. rewrite Qgt_alt.
  destruct (x ?= y)%Q; split; congruence.
Qed.

Lemma nle_Fin (x y : Q) : nle (Fin x) (Fin y) = true <-> (x <= y)%Q.
Proof.
  unfold nle; simpl. rewrite Qle_alt.
  destruct (x ?= y)%Q; split; congruence.
Qed.

Lemma nlt_Fin_false (x y : Q) : nlt (Fin x) (Fin y) = false <-> (y <= x)%Q.
Proof.
  rewrite <- not_true_iff_false, nlt_Fin. split.
  - apply Qnot_lt_le.
  - apply Qle_not_lt.
Qed.

Lemma ngt_Fin_false (x y : Q) : ngt (Fin x) (Fin y) = false <-> (x <= y)%Q.
Proof.
  rewrite <- not_true_iff_false, ngt_Fin. split.
  - apply Qnot_lt_le.
  - apply Qle_not_lt.
Qed.



(** A finite positive product has finite positive factors, when the
    factors are not negative. *)
Lemma nmul_Fin_inv (a b : num) (v : Q) :
  nmul a b = Fin v -> exists x y, a = Fin x /\ b = Fin y /\ (v == x * y)%Q.
Proof.
  destruct a as [| | |x], b as [| | |y]; simpl; try discriminate;
    try (destruct (_ ?= 0)%Q; discriminate).
  intros H. exists x, y. repeat split.
  assert (E : v = Qred (x * y)) by (unfold fin in H; congruence).
  rewrite E. apply Qred_correct.
Qed.


(** ** The evaluation instance of the square root *)

Lemma sqrt_fix_nonneg (x : Q) : (0 <= sqrt_fix x)%Q.
Proof.
  unfold sqrt_fix, Qle; simpl. rewrite Z.mul_1_r. apply Z.sqrt_nonneg.
Qed.

Lemma sqrt_fix_mono (x y : Q) : (x <= y)%Q -> (sqrt_fix x <= sqrt_fix y)%Q.
Proof.
  intros H. unfold sqrt_fix, Qle; cbn [Qnum Qden].
  apply Z.mul_le_mono_nonneg_r; [lia|].
  apply Z.sqrt_le_mono, Qfloor_resp_le.
  apply Qmult_le_compat_r; [exact H|]. unfold Qle; simpl; lia.
Qed.

Lemma sqrt_fix_one : (sqrt_fix 1 == 1)%Q.
Proof. reflexivity. Qed.

Lemma sqrt_fix_unit (q : Q) : (0 <= q < 1)%Q -> (0 <= sqrt_fix q <= 1)%Q.
Proof.
  intros [H0 H1]. split; [apply sqrt_fix_nonneg|].
  rewrite <- sqrt_fix_one. apply sqrt_fix_mono. lra.
Qed.

(** ** Bounding boxes *)

Lemma Math_max_zero_nonneg (d : num) (v : Q) :
  Math_max zero d = Fin v -> (0 <= v)%Q.
Proof.
  destruct d as [| | |x]; unfold Math_max, zero; simpl; try discriminate.
  - intros [= <-]. apply Qle_refl.
  - destruct (0 ?= x)%Q eqn:E; intros [= <-]; try apply Qle_refl.
    apply Qlt_le_weak. now apply Qlt_alt.
Qed.









(** ** Chamfer statistics of empty clouds *)

(** C10: on two empty point clouds [chamferDistance] returns 0 for all six
    statistics: the mean divides by [length || 1], and the two index
    lookups at -1 are undefined and replaced by 0. *)
Theorem C10_chamfer_empty (sqrtQ : Q -> Q) :
  chamferDistance sqrtQ [] [] =
    {| meanAB := zero; meanBA := zero;
       p95AB := zero; p95BA := zero;
       maxAB := zero; maxBA := zero |}.
Proof.
  reflexivity.
Qed.

(** ** The binary decoder *)

Import Bin2Ascii.

Lemma skipn_four (view : list byte) (off : nat) :
  (off + 4 <= length view)%nat ->
  skipn off view =
    byteAt view off :: byteAt view (off + 1) :: byteAt view (off + 2)
      :: byteAt view (off + 3) :: skipn (off + 4) view.
Proof.
  revert view. induction off as [|off IH]; intros view H.
  - destruct view as [|b0 [|b1 [|b2 [|b3 r]]]]; simpl in H; try lia.
    reflexivity.
  - destruct view as [|b view']; simpl in H; [lia|].
    simpl skipn. rewrite IH by lia. reflexivity.
Qed.

Lemma getUint32_in_range (view : list byte) (off : nat) :
  (off + 4 <= length view)%nat -> getUint32 view off = Ok (uint32At view off).
Proof.
  intros H. unfold getUint32. now rewrite skipn_four.
Qed.

Lemma getFloat32_in_range (view : list byte) (off : nat) :
  (off + 4 <= length view)%nat -> getFloat32 view off = Ok (float32At view off).
Proof.
  intros H. unfold getFloat32. now rewrite skipn_four.
Qed.

Lemma readFloat3_in_range (view : list byte) (off : nat) :
  (off + 12 <= length view)%nat -> readFloat3 view off = Ok (float3At view off).
Proof.
  intros H. unfold readFloat3.
  rewrite !getFloat32_in_range by lia. simpl.
  unfold float3At. now rewrite Nat.add_0_r.
Qed.

Lemma readTriangles_in_range (view : list byte) (count off : nat) :
  (off + 50 * count <= length view)%nat ->
  readTriangles view count off =
    Ok (map (fun i => recordAt view (off + 50 * i)) (seq 0 count)).
Proof.
  revert off. induction count as [|count IH]; intros off H.
  - reflexivity.
  - cbn [readTriangles].
    rewrite !readFloat3_in_range by lia. cbn [bind].
    rewrite IH by lia. cbn [bind seq map].
    rewrite <- seq_shift, map_map.
    do 2 f_equal.
    + unfold recordAt. now rewrite Nat.mul_0_r, Nat.add_0_r.
    + apply map_ext. intros i. f_equal. lia.
Qed.

Lemma le32_nonneg (b0 b1 b2 b3 : byte) : 0 <= le32 b0 b1 b2 b3.
Proof.
  unfold le32. rewrite !Z.shiftl_mul_pow2 by lia. lia.
Qed.

Lemma isBinaryStl_spec (buffer : list byte) :
  isBinaryStl buffer =
    Ok ((84 <=? Z.of_nat (length buffer))
        && (84 + embeddedCount buffer * 50 =? Z.of_nat (length buffer))).
Proof.
  unfold isBinaryStl, isLikelyBinaryStl.
  destruct (Z.ltb_spec (Z.of_nat (length buffer)) 84) as [L|L].
  - replace (84 <=? Z.of_nat (length buffer)) with false; [reflexivity|].
    symmetry. apply Z.leb_gt. exact L.
  - rewrite getUint32_in_range by lia. cbn [bind].
    replace (84 <=? Z.of_nat (length buffer)) with true; [reflexivity|].
    symmetry. apply Z.leb_le. exact L.
Qed.

(** C6, as stated, fails: a buffer whose length is 84 + 50 * 1 is not
    classified as binary when its count field does not say 1. *)
Lemma C6_length_alone_does_not_classify :
  Z.of_nat (length zeroBuffer134) = 84 + 50 * 1
  /\ isBinaryStl zeroBuffer134 = Ok false.
Proof.
  split; reflexivity.
Qed.

(** C6, amended: the predicate never throws; it classifies a buffer as
    binary exactly when the buffer has at least 84 bytes and its length is
    84 + 50 * (the count at offset 80).  So a buffer of length 84 + 50 * k
    whose count field holds k is binary, and a buffer shorter than 84
    bytes (83, say), or of a length not of the form 84 + 50 * k, or whose
    count field is not that k, is not. *)
Theorem C6_isBinaryStl (buffer : list byte) :
  let len := Z.of_nat (length buffer) in
  (isBinaryStl buffer = Ok true
     <-> 84 <= len /\ len = 84 + 50 * embeddedCount buffer)
  /\ (isBinaryStl buffer = Ok false
     <-> len < 84 \/ len <> 84 + 50 * embeddedCount buffer)
  /\ (forall k, 0 <= k -> len = 84 + 50 * k -> embeddedCount buffer = k ->
      isBinaryStl buffer = Ok true)
  /\ (len = 83 -> isBinaryStl buffer = Ok false)
  /\ ((forall k, 0 <= k -> len <> 84 + 50 * k) -> isBinaryStl buffer = Ok false).
Proof.
  intros len. rewrite isBinaryStl_spec. fold len.
  assert (Hc : 0 <= embeddedCount buffer) by apply le32_nonneg.
  destruct (Z.leb_spec 84 len) as [L|L];
    destruct (Z.eqb_spec (84 + embeddedCount buffer * 50) len) as [E|E];
    cbn [andb]; repeat split; intros; try discriminate; try reflexivity;
    try lia;
    try (exfalso; apply (H (embeddedCount buffer)); lia).
Qed.

(** C4: [parseBinaryStl] throws exactly when the buffer is shorter than 84
    bytes or 84 + 50 * count differs from its length; otherwise it returns
    [count] triangles, the i-th of them made of the four little-endian
    float triples of the i-th 50-byte record, in file order. *)
Theorem C4_parseBinaryStl (buffer : list byte) :
  let len := Z.of_nat (length buffer) in
  let count := embeddedCount buffer in
  ((exists msg, parseBinaryStl buffer = Throw msg)
     <-> len < 84 \/ 84 + 50 * count <> len)
  /\ (84 <= len /\ 84 + 50 * count = len ->
      exists tris,
        parseBinaryStl buffer = Ok tris
        /\ length tris = Z.to_nat count
        /\ forall i, (i < Z.to_nat count)%nat ->
             nth_error tris i = Some (triangleAt buffer i))
  /\ parseBinaryStl buffer <> Diverge.
Proof.
  intros len count.
  assert (Hc : 0 <= count) by apply le32_nonneg.
  unfold parseBinaryStl. fold len.
  destruct (Z.ltb_spec len 84) as [L|L].
  { repeat split; try discriminate.
    - intros _. now left.
    - intros _. eauto.
    - intros [? _]. lia. }
  unfold isLikelyBinaryStl.
  destruct (Z.ltb_spec len 84) as [L'|_]; [lia|].
  rewrite getUint32_in_range by lia. cbn [bind]. fold (embeddedCount buffer).
  fold count.
  destruct (Z.eqb_spec (84 + count * 50) len) as [E|E]; cbn [negb].
  - rewrite readTriangles_in_range by lia.
    repeat split; try discriminate.
    + intros [msg H]. discriminate.
    + intros [?|?]; lia.
    + intros _. eexists. split; [reflexivity|]. split.
      * now rewrite length_map, length_seq.
      * intros i Hi. rewrite nth_error_map, nth_error_seq.
        destruct (Nat.ltb_spec i (Z.to_nat count)); [|lia].
        reflexivity.
  - repeat split; try discriminate.
    + intros _. right. lia.
    + intros _. eauto.
    + intros [_ ?]. lia.
Qed.

Lemma C4_parseBinaryStl_witness :
  exists tris,
    parseBinaryStl oneTriangleBuffer = Ok tris
    /\ length tris = 1%nat
    /\ forall i, (i < 1)%nat -> nth_error tris i = Some (triangleAt oneTriangleBuffer i).
Proof.
  apply (C4_parseBinaryStl oneTriangleBuffer). split; vm_compute; congruence.
Defined.

(** ** The surface sampler *)

Lemma toInt32_small (x : Z) : 0 <= x < 2 ^ 31 -> toInt32 x = x.
Proof.
  intros H. unfold toInt32. rewrite Z.mod_small by lia. lia.
Qed.

Lemma sar_one_small (x : Z) : 0 <= x < 2 ^ 31 -> sar x 1 = x / 2.
Proof.
  intros H. unfold sar. rewrite toInt32_small by exact H.
  now rewrite Z.shiftr_div_pow2 by lia.
Qed.

(** The binary search ends within [hi - lo] rounds, on an index of the
    range it started from. *)
Lemma bsearch_in_range (areas : list num) (r : num) (fuel : nat) :
  forall lo hi,
    0 <= lo <= hi -> hi < 2 ^ 30 -> (Z.to_nat (hi - lo) <= fuel)%nat ->
    exists idx, bsearch fuel areas r lo hi = Some idx /\ lo <= idx <= hi.
Proof.
  induction fuel as [|fuel IH]; intros lo hi Hlo Hhi Hfuel.
  - assert (lo = hi) by lia. subst hi. cbn [bsearch].
    rewrite Z.ltb_irrefl. exists lo. split; [reflexivity|lia].
  - cbn [bsearch]. destruct (Z.ltb_spec lo hi) as [L|L].
    + rewrite sar_one_small by lia.
      assert (Hmid : lo <= (lo + hi) / 2 < hi).
      { split.
        - apply Z.div_le_lower_bound; lia.
        - apply Z.div_lt_upper_bound; lia. }
      destruct (nle r _).
      * destruct (IH lo ((lo + hi) / 2)) as (idx & E & R); try lia.
        exists idx. split; [exact E|lia].
      * destruct (IH ((lo + hi) / 2 + 1) hi) as (idx & E & R); try lia.
        exists idx. split; [exact E|lia].
    + exists lo. split; [reflexivity|lia].
Qed.

Lemma length_prefixFrom (c : num) (l : list num) :
  length (prefixFrom c l) = length l.
Proof.
  revert c. induction l as [|a l IH]; intros c; simpl; [reflexivity|].
  now rewrite IH.
Qed.

Lemma length_prefixSums (l : list num) : length (prefixSums l) = length l.
Proof.
  destruct l as [|a l]; simpl; [reflexivity|]. now rewrite length_prefixFrom.
Qed.

Lemma length_sampleWeights (sqrtQ : Q -> Q) (triangles : list Triangle) :
  length (sampleWeights sqrtQ triangles) = length triangles.
Proof.
  unfold sampleWeights. destruct (nseq _ _); now rewrite ?length_map.
Qed.

Lemma pickTriangleIndex_in_range (rng : Rng) (areas : list num) (k : nat) :
  (0 < length areas)%nat -> Z.of_nat (length areas) <= 2 ^ 30 ->
  exists idx,
    pickTriangleIndex rng areas k = Ok idx /\ 0 <= idx < Z.of_nat (length areas).
Proof.
  intros Hpos Hmax. unfold pickTriangleIndex.
  destruct (bsearch_in_range areas
              (nmul (rng k) (nullish (Array_getZ areas (Z.of_nat (length areas) - 1)) zero))
              (length areas) 0 (Z.of_nat (length areas) - 1))
    as (idx & E & R); try lia.
  rewrite E. exists idx. split; [reflexivity|lia].
Qed.

Lemma Array_getZ_in_range {A} (l : list A) (idx : Z) :
  0 <= idx < Z.of_nat (length l) ->
  exists x, Array_getZ l idx = Some x /\ In x l.
Proof.
  intros H. unfold Array_getZ.
  destruct (Z.ltb_spec idx 0) as [L|_]; [lia|].
  destruct (nth_error l (Z.to_nat idx)) as [x|] eqn:E.
  - exists x. split; [reflexivity|]. eapply nth_error_In; eassumption.
  - apply nth_error_None in E. lia.
Qed.

(** The sampling loop returns [count] points, each drawn in a triangle of
    the mesh. *)
Lemma sampleLoop_ok (sqrtQ : Q -> Q) (rng : Rng)
    (triangles : list Triangle) (areas : list num) (P : Vec3 -> Prop) :
  length areas = length triangles ->
  (0 < length triangles)%nat ->
  Z.of_nat (length triangles) <= 2 ^ 30 ->
  (forall tri k a b c,
      In tri triangles -> vertices tri = (a, b, c) ->
      P (samplePointInTriangle sqrtQ rng a b c k)) ->
  forall count k,
    exists pts,
      sampleLoop sqrtQ rng triangles areas count k = Ok pts
      /\ length pts = count /\ Forall P pts.
Proof.
  intros Hlen Hpos Hmax HP.
  induction count as [|count IH]; intros k.
  - exists []. repeat split. constructor.
  - cbn [sampleLoop].
    destruct (pickTriangleIndex_in_range rng areas k) as (idx & E & R);
      try (rewrite Hlen; assumption).
    rewrite E. cbn [bind].
    rewrite Hlen in R.
    destruct (Array_getZ_in_range triangles idx R) as (tri & G & I).
    rewrite G.
    destruct (vertices tri) as [[a b] c] eqn:V.
    destruct (IH (3 + k)%nat) as (pts & L & N & F).
    rewrite L. cbn [bind].
    eexists. split; [reflexivity|]. split.
    + simpl. now rewrite N.
    + constructor; [|exact F]. eapply HP; eassumption.
Qed.



(** *** Sampled points are convex combinations *)

Lemma finiteVec_inv (v : Vec3) :
  finiteVec v -> exists x y z, v = (Fin x, Fin y, Fin z).
Proof.
  destruct v as [[a b] c]. intros H.
  pose proof (H 0%nat) as H0. pose proof (H 1%nat) as H1.
  pose proof (H 2%nat) as H2.
  unfold isFinite in *; simpl in *.
  destruct a, b, c; try discriminate. eauto.
Qed.

Lemma finiteVec_Fin (x y z : Q) : finiteVec (Fin x, Fin y, Fin z).
Proof.
  intros [|[|i]]; reflexivity.
Qed.

Lemma samplePoint_convex (sqrtQ : Q -> Q) (rng : Rng) (a b c : Vec3) (k : nat) :
  (forall q, (0 <= q < 1)%Q -> (0 <= sqrtQ q <= 1)%Q) ->
  unitRng rng ->
  finiteVec a -> finiteVec b -> finiteVec c ->
  convexCombination (samplePointInTriangle sqrtQ rng a b c k) a b c.
Proof.
  intros Hsqrt Hrng Ha Hb Hc.
  destruct (finiteVec_inv a Ha) as (a0 & a1 & a2 & ->).
  destruct (finiteVec_inv b Hb) as (b0 & b1 & b2 & ->).
  destruct (finiteVec_inv c Hc) as (c0 & c1 & c2 & ->).
  destruct (Hrng k) as (q1 & E1 & R1).
  destruct (Hrng (S k)) as (q2 & E2 & R2).
  pose proof (Hsqrt q1 R1) as Hs.
  unfold samplePointInTriangle. rewrite E1, E2.
  unfold Math_sqrt.
  assert (B : Qle_bool 0 q1 = true) by (apply Qle_bool_iff; tauto).
  rewrite B.
  repeat (unfold fin, one; cbn [nsub nmul nadd]).
  split; [apply finiteVec_Fin|].
  exists (1 - sqrtQ q1)%Q, (sqrtQ q1 * (1 - q2))%Q, (sqrtQ q1 * q2)%Q.
  split.
  - repeat split.
    + lra.
    + apply Qmult_le_0_compat; lra.
    + apply Qmult_le_0_compat; lra.
    + ring.
  - intros [|[|i]]; cbn [coord qval]; rewrite !Qred_correct; ring.
Qed.

(** *** The bounding box bounds the vertices *)

Lemma nle_trans (a b c : num) :
  nle a b = true -> nle b c = true -> nle a c = true.
Proof.
  destruct a as [| | |x], b as [| | |y], c as [| | |z];
    try discriminate; try reflexivity.
  rewrite !nle_Fin. apply Qle_trans.
Qed.

Lemma nle_refl_Fin (x : Q) : nle (Fin x) (Fin x) = true.
Proof. apply nle_Fin, Qle_refl. Qed.

Lemma keep_smaller (v m : num) :
  isFinite v -> m <> NaN ->
  let m' := if nlt v m then v else m in
  nle m' v = true /\ nle m' m = true /\ m' <> NaN.
Proof.
  intros Hv Hm. destruct v as [| | |x]; try discriminate.
  destruct m as [| | |y]; try congruence; cbv zeta.
  - cbn. repeat split; try discriminate. apply nle_refl_Fin.
  - cbn. repeat split; discriminate.
  - destruct (nlt (Fin x) (Fin y)) eqn:E.
    + apply nlt_Fin in E. repeat split; try discriminate.
      * apply nle_refl_Fin.
      * apply nle_Fin. lra.
    + apply nlt_Fin_false in E. repeat split; try discriminate.
      * now apply nle_Fin.
      * apply nle_refl_Fin.
Qed.

Lemma keep_larger (v m : num) :
  isFinite v -> m <> NaN ->
  let m' := if ngt v m then v else m in
  nle v m' = true /\ nle m m' = true /\ m' <> NaN.
Proof.
  intros Hv Hm. destruct v as [| | |x]; try discriminate.
  destruct m as [| | |y]; try congruence; cbv zeta.
  - cbn. repeat split; discriminate.
  - cbn. repeat split; try discriminate. apply nle_refl_Fin.
  - destruct (ngt (Fin x) (Fin y)) eqn:E.
    + apply ngt_Fin in E. repeat split; try discriminate.
      * apply nle_refl_Fin.
      * apply nle_Fin. lra.
    + apply ngt_Fin_false in E. repeat split; try discriminate.
      * now apply nle_Fin.
      * apply nle_refl_Fin.
Qed.

Lemma coord_min_extend (box : Aabb) (v : Vec3) (i : nat) :
  coord i (min (aabbExtend box v)) =
    if nlt (coord i v) (coord i (min box)) then coord i v else coord i (min box).
Proof.
  destruct box as [[[m0 m1] m2] [[M0 M1] M2]], v as [[v0 v1] v2].
  destruct i as [|[|i]]; reflexivity.
Qed.

Lemma coord_max_extend (box : Aabb) (v : Vec3) (i : nat) :
  coord i (max (aabbExtend box v)) =
    if ngt (coord i v) (coord i (max box)) then coord i v else coord i (max box).
Proof.
  destruct box as [[[m0 m1] m2] [[M0 M1] M2]], v as [[v0 v1] v2].
  destruct i as [|[|i]]; reflexivity.
Qed.

Lemma aabbExtend_bounds (box : Aabb) (v : Vec3) :
  finiteVec v -> properBox box ->
  properBox (aabbExtend box v)
  /\ insideAabb v (aabbExtend box v)
  /\ forall p, insideAabb p box -> insideAabb p (aabbExtend box v).
Proof.
  intros Hv Hbox.
  assert (K : forall i,
    let m' := coord i (min (aabbExtend box v)) in
    let M' := coord i (max (aabbExtend box v)) in
    (nle m' (coord i v) = true /\ nle m' (coord i (min box)) = true /\ m' <> NaN)
    /\ (nle (coord i v) M' = true /\ nle (coord i (max box)) M' = true /\ M' <> NaN)).
  { intros i. cbv zeta. rewrite coord_min_extend, coord_max_extend.
    destruct (Hbox i) as [Hm HM]. split.
    - apply keep_smaller; [apply Hv | exact Hm].
    - apply keep_larger; [apply Hv | exact HM]. }
  repeat split.
  - apply (K i).
  - apply (K i).
  - apply (K i).
  - apply (K i).
  - eapply nle_trans; [apply (K i) | apply (H i)].
  - eapply nle_trans; [apply (H i) | apply (K i)].
Qed.

Lemma aabbOfTriangles_fold (triangles : list Triangle) :
  aabbOfTriangles triangles =
    fold_left aabbStep triangles
      {| min := (PInf, PInf, PInf); max := (NInf, NInf, NInf) |}.
Proof. reflexivity. Qed.

Lemma aabbStep_bounds (box : Aabb) (t : Triangle) :
  finiteTriangle t -> properBox box ->
  properBox (aabbStep box t)
  /\ (forall a b c, vertices t = (a, b, c) ->
        insideAabb a (aabbStep box t) /\ insideAabb b (aabbStep box t)
        /\ insideAabb c (aabbStep box t))
  /\ forall p, insideAabb p box -> insideAabb p (aabbStep box t).
Proof.
  unfold finiteTriangle, aabbStep.
  destruct (vertices t) as [[a b] c]. intros (Ha & Hb & Hc) Hbox.
  destruct (aabbExtend_bounds box a Ha Hbox) as (P1 & I1 & K1).
  destruct (aabbExtend_bounds _ b Hb P1) as (P2 & I2 & K2).
  destruct (aabbExtend_bounds _ c Hc P2) as (P3 & I3 & K3).
  split; [exact P3|]. split.
  - intros a' b' c' [= <- <- <-]. auto.
  - intros p Hp. auto.
Qed.

Lemma fold_aabbStep_bounds (triangles : list Triangle) :
  finiteMesh triangles ->
  forall box, properBox box ->
    let box' := fold_left aabbStep triangles box in
    properBox box'
    /\ (forall p, insideAabb p box -> insideAabb p box')
    /\ forall t a b c, In t triangles -> vertices t = (a, b, c) ->
         insideAabb a box' /\ insideAabb b box' /\ insideAabb c box'.
Proof.
  induction 1 as [|t ts Ht Hts IH]; intros box Hbox; cbn [fold_left].
  - split; [exact Hbox|]. split; [auto|]. intros t a b c [].
  - destruct (aabbStep_bounds box t Ht Hbox) as (P & V & K).
    destruct (IH _ P) as (P' & K' & V').
    split; [exact P'|]. split.
    + intros p Hp. auto.
    + intros t' a b c [<-|Hin] Hv.
      * destruct (V a b c Hv) as (Ia & Ib & Ic). auto.
      * eapply V'; eassumption.
Qed.

Lemma aabbOfTriangles_bounds (triangles : list Triangle) :
  finiteMesh triangles ->
  forall t a b c, In t triangles -> vertices t = (a, b, c) ->
    insideAabb a (aabbOfTriangles triangles)
    /\ insideAabb b (aabbOfTriangles triangles)
    /\ insideAabb c (aabbOfTriangles triangles).
Proof.
  intros Hm. rewrite aabbOfTriangles_fold.
  apply fold_aabbStep_bounds; [exact Hm|].
  intros [|[|i]]; split; discriminate.
Qed.



Lemma unitRng_rngHalf : unitRng rngHalf.
Proof.
  intros k. exists (1 # 2). split; [reflexivity|]. split; lra.
Qed.

Lemma finiteMesh_twoTriangles : finiteMesh twoTriangles.
Proof.
  repeat constructor; apply finiteVec_Fin.
Qed.


(** ** Chamfer statistics *)

Lemma Qred_inject_Z (z : Z) : Qred (inject_Z z) = inject_Z z.
Proof.
  unfold Qred, inject_Z.
  pose proof (Z.ggcd_gcd z 1) as G.
  pose proof (Z.ggcd_correct_divisors z 1) as D.
  destruct (Z.ggcd z 1) as [g [aa bb]]. cbn [fst snd] in *.
  rewrite Z.gcd_1_r in G. subst g. destruct D as [D1 D2].
  assert (Ea : aa = z) by lia. assert (Eb : bb = 1) by lia.
  rewrite Ea, Eb. reflexivity.
Qed.

Lemma fin_inject_Z (q : Q) (z : Z) : (q == inject_Z z)%Q -> fin q = ofZ z.
Proof.
  intros E. unfold fin, ofZ. f_equal.
  rewrite (Qred_complete _ _ E). apply Qred_inject_Z.
Qed.

Lemma index_of_ofZ (z : Z) : 0 <= z -> index_of (ofZ z) = Some (Z.to_nat z).
Proof.
  intros H. unfold index_of, ofZ. rewrite Qred_inject_Z. cbn [inject_Z Qden Qnum].
  rewrite Pos.eqb_refl. destruct (Z.leb_spec 0 z); [reflexivity|lia].
Qed.

Lemma Math_min_ofZ (x y : Z) : Math_min (ofZ x) (ofZ y) = ofZ (Z.min x y).
Proof.
  unfold Math_min, ofZ; cbn [ncompare].
  unfold Qcompare; cbn [inject_Z Qnum Qden]. rewrite !Z.mul_1_r. unfold Z.min.
  destruct (x ?= y); reflexivity.
Qed.

(** *** Squared distances and the nearest point *)

Lemma Qsquare_nonneg (x : Q) : (0 <= x * x)%Q.
Proof.
  destruct (Qlt_le_dec x 0) as [L|L].
  - assert (E : (x * x == (- x) * (- x))%Q) by ring.
    rewrite E. apply Qmult_le_0_compat; lra.
  - apply Qmult_le_0_compat; assumption.
Qed.

Lemma squaredDistance_Fin (a0 a1 a2 b0 b1 b2 : Q) :
  exists x,
    squaredDistance (Fin a0, Fin a1, Fin a2) (Fin b0, Fin b1, Fin b2) = Fin x
    /\ (0 <= x)%Q.
Proof.
  unfold squaredDistance.
  repeat (unfold fin; cbn [nsub nmul nadd]).
  eexists. split; [reflexivity|].
  rewrite !Qred_correct.
  pose proof (Qsquare_nonneg (a0 - b0)).
  pose proof (Qsquare_nonneg (a1 - b1)).
  pose proof (Qsquare_nonneg (a2 - b2)).
  lra.
Qed.

Lemma squaredDistance_finite (p q : Vec3) :
  finiteVec p -> finiteVec q ->
  exists x, squaredDistance p q = Fin x /\ (0 <= x)%Q.
Proof.
  intros Hp Hq.
  destruct (finiteVec_inv p Hp) as (a0 & a1 & a2 & ->).
  destruct (finiteVec_inv q Hq) as (b0 & b1 & b2 & ->).
  apply squaredDistance_Fin.
Qed.

(** The inner loop keeps the least squared distance met so far. *)
Lemma nearest_fold (p : Vec3) (target : list Vec3) :
  finiteVec p -> finitePoints target ->
  forall best, best <> NaN ->
    let r :=
      fold_left
        (fun best q =>
           let d2 := squaredDistance p q in if nlt d2 best then d2 else best)
        target best in
    (r = best \/ exists q, In q target /\ r = squaredDistance p q)
    /\ nle r best = true
    /\ forall q, In q target -> nle r (squaredDistance p q) = true.
Proof.
  intros Hp. induction 1 as [|q0 qs Hq0 Hqs IH]; intros best Hbest; cbn [fold_left].
  - repeat split.
    + now left.
    + destruct best as [| | |x]; try congruence; try reflexivity.
      apply nle_refl_Fin.
    + intros q [].
  - destruct (squaredDistance_finite p q0 Hp Hq0) as (x & Ex & Px).
    assert (Fx : isFinite (squaredDistance p q0)) by (rewrite Ex; reflexivity).
    destruct (keep_smaller (squaredDistance p q0) best Fx Hbest) as (K1 & K2 & K3).
    cbv zeta in K1, K2, K3.
    destruct (IH _ K3) as (I1 & I2 & I3). cbv zeta in I1, I2, I3.
    split; [|split].
    + destruct I1 as [I1|(q & Hin & Eq)].
      * rewrite I1. destruct (nlt (squaredDistance p q0) best).
        -- right. exists q0. split; [now left|reflexivity].
        -- now left.
      * right. exists q. split; [now right|exact Eq].
    + eapply nle_trans; eassumption.
    + intros q [<-|Hin].
      * eapply nle_trans; eassumption.
      * now apply I3.
Qed.

Lemma nearestSquared_spec (p : Vec3) (target : list Vec3) :
  finiteVec p -> finitePoints target -> target <> [] ->
  (exists q, In q target /\ nearestSquared p target = squaredDistance p q)
  /\ forall q, In q target ->
       nle (nearestSquared p target) (squaredDistance p q) = true.
Proof.
  intros Hp Hb Hne. unfold nearestSquared.
  destruct (nearest_fold p target Hp Hb PInf) as (I1 & _ & I3); [discriminate|].
  cbv zeta in I1, I3. split; [|exact I3].
  destruct I1 as [I1|I1]; [|exact I1].
  exfalso. destruct target as [|q0 qs]; [congruence|].
  specialize (I3 q0 (or_introl eq_refl)). rewrite I1 in I3.
  inversion Hb as [|? ? Hq0 _]; subst.
  destruct (squaredDistance_finite p q0 Hp Hq0) as (x & Ex & _).
  rewrite Ex in I3. discriminate.
Qed.

Section ChamferFacts.
Variable sqrtQ : Q -> Q.
Hypothesis sqrtQ_mono :
  forall a b, (0 <= a <= b)%Q -> (sqrtQ a <= sqrtQ b)%Q.

Lemma Math_sqrt_mono (x y : Q) :
  (0 <= x)%Q -> (x <= y)%Q ->
  nle (Math_sqrt sqrtQ (Fin x)) (Math_sqrt sqrtQ (Fin y)) = true.
Proof.
  intros Hx Hxy. unfold Math_sqrt.
  assert (Bx : Qle_bool 0 x = true) by now apply Qle_bool_iff.
  assert (By : Qle_bool 0 y = true) by (apply Qle_bool_iff; lra).
  rewrite Bx, By. unfold fin. apply nle_Fin.
  rewrite !Qred_correct. apply sqrtQ_mono. split; assumption.
Qed.

Lemma nearest_distance (p : Vec3) (target : list Vec3) :
  finiteVec p -> finitePoints target -> target <> [] ->
  isNearestDistance sqrtQ target p (Math_sqrt sqrtQ (nearestSquared p target)).
Proof.
  intros Hp Hb Hne.
  destruct (nearestSquared_spec p target Hp Hb Hne) as ((q0 & Hin & E) & Hmin).
  split.
  - exists q0. split; [exact Hin|]. unfold distance. now rewrite E.
  - intros q Hq. unfold num_le, distance.
    specialize (Hmin q Hq). rewrite E in *.
    assert (Fq0 : finiteVec q0).
    { unfold finitePoints in Hb. rewrite Forall_forall in Hb. auto. }
    assert (Fq : finiteVec q).
    { unfold finitePoints in Hb. rewrite Forall_forall in Hb. auto. }
    destruct (squaredDistance_finite p q0 Hp Fq0) as (x & Ex & Px).
    destruct (squaredDistance_finite p q Hp Fq) as (y & Ey & Py).
    rewrite Ex, Ey in *. apply nle_Fin in Hmin.
    now apply Math_sqrt_mono.
Qed.

End ChamferFacts.

(** *** Sorting distances *)

Lemma insert_by_perm (cmp : num -> num -> num) (x : num) (l : list num) :
  Permutation (insert_by cmp x l) (x :: l).
Proof.
  induction l as [|y l IH]; cbn [insert_by]; [reflexivity|].
  destruct (ngt (cmp x y) zero); [|reflexivity].
  rewrite IH. apply perm_swap.
Qed.

Lemma Array_sort_perm (cmp : num -> num -> num) (l : list num) :
  Permutation (Array_sort cmp l) l.
Proof.
  induction l as [|x l IH]; cbn [Array_sort fold_right]; [reflexivity|].
  fold (Array_sort cmp l). rewrite insert_by_perm. now constructor.
Qed.

Lemma ngt_diff (a b : Q) :
  ngt (nsub (Fin a) (Fin b)) zero = true <-> (b < a)%Q.
Proof.
  cbn [nsub]. unfold fin, zero. rewrite ngt_Fin, Qred_correct. split; lra.
Qed.

Lemma insert_by_HdRel (x y : num) (l : list num) :
  num_le y x -> HdRel num_le y l ->
  HdRel num_le y (insert_by (fun x y => nsub x y) x l).
Proof.
  intros Hyx Hy. destruct l as [|z l]; cbn [insert_by].
  - now constructor.
  - inversion Hy; subst. destruct (ngt _ zero); now constructor.
Qed.

Lemma insert_by_sorted (x : num) (l : list num) :
  isFinite x -> Forall isFinite l -> Sorted num_le l ->
  Sorted num_le (insert_by (fun x y => nsub x y) x l).
Proof.
  intros Hx Hl Hs. induction l as [|y l IH]; cbn [insert_by].
  - repeat constructor.
  - inversion Hl as [|? ? Hy Hl']; subst. inversion Hs as [|? ? Hs' Hd]; subst.
    destruct x as [| | |a]; try discriminate.
    destruct y as [| | |b]; try discriminate.
    destruct (ngt (nsub (Fin a) (Fin b)) zero) eqn:E.
    + apply ngt_diff in E. constructor; [now apply IH|].
      apply insert_by_HdRel; [|exact Hd]. apply nle_Fin. lra.
    + apply not_true_iff_false in E. rewrite ngt_diff in E.
      constructor; [exact Hs|]. constructor. apply nle_Fin. lra.
Qed.

Lemma Array_sort_sorted (l : list num) :
  Forall isFinite l -> Sorted num_le (Array_sort (fun x y => nsub x y) l).
Proof.
  induction 1 as [|x l Hx Hl IH]; cbn [Array_sort fold_right].
  - constructor.
  - apply insert_by_sorted; [exact Hx| |exact IH].
    fold (Array_sort (fun x y => nsub x y) l).
    eapply Permutation_Forall; [|exact Hl].
    symmetry. apply Array_sort_perm.
Qed.

(** *** Sums *)

Lemma fold_nadd_finite (l : list num) :
  Forall isFinite l -> l <> [] ->
  forall a, fold_left nadd l (Fin a) = fin (a + qsum l).
Proof.
  induction 1 as [|x l Hx Hl IH]; intros Hne a; [congruence|].
  destruct x as [| | |q]; try discriminate.
  cbn [fold_left nadd qsum qval].
  destruct l as [|y l].
  - cbn [fold_left qsum]. apply fin_eq. ring.
  - unfold fin at 1. rewrite IH by discriminate.
    apply fin_eq. rewrite Qred_correct. ring.
Qed.

Lemma qsum_perm (l l' : list num) :
  Permutation l l' -> (qsum l == qsum l')%Q.
Proof.
  induction 1; cbn [qsum].
  - reflexivity.
  - now rewrite IHPermutation.
  - ring.
  - now rewrite IHPermutation1.
Qed.

Lemma sumOf_perm (l l' : list num) :
  Forall isFinite l -> Permutation l l' -> sumOf l = sumOf l'.
Proof.
  intros Hl Hp. unfold sumOf, zero.
  destruct l as [|x l].
  - apply Permutation_nil in Hp. now subst.
  - assert (Hne : l' <> []).
    { intros ->. symmetry in Hp. now apply Permutation_nil in Hp. }
    rewrite !fold_nadd_finite; try discriminate; try assumption.
    + apply fin_eq. now rewrite (qsum_perm _ _ Hp).
    + eapply Permutation_Forall; eassumption.
Qed.

(** *** One direction *)

Lemma or_else_count (n : Z) : 0 < n -> or_else (ofZ n) one = ofZ n.
Proof.
  intros H. unfold or_else, truthy, ofZ.
  destruct (Qeq_bool (inject_Z n) 0) eqn:E; [|reflexivity].
  apply Qeq_bool_iff in E. unfold Qeq, inject_Z in E; simpl in E. lia.
Qed.

Lemma count_minus_one (n : Z) : nsub (ofZ n) one = ofZ (n - 1).
Proof.
  unfold ofZ, one. cbn [nsub]. apply fin_inject_Z.
  unfold Qeq, inject_Z, Qminus, Qplus, Qopp; simpl. lia.
Qed.

Lemma floor_of_share (n : Z) :
  Math_floor (nmul (ofZ n) (Fin (95 # 100)))
  = ofZ (Qfloor ((95 # 100) * inject_Z n)).
Proof.
  unfold ofZ. cbn [nmul]. unfold fin. cbn [Math_floor]. unfold ofZ.
  do 2 f_equal. apply Qfloor_comp. rewrite Qred_correct. ring.
Qed.

Lemma Array_get_ofZ {A} (l : list A) (k : Z) :
  0 <= k -> Array_get l (ofZ k) = nth_error l (Z.to_nat k).
Proof.
  intros H. unfold Array_get. now rewrite index_of_ofZ.
Qed.

Lemma floor_share_nonneg (n : Z) :
  0 <= n -> 0 <= Qfloor ((95 # 100) * inject_Z n).
Proof.
  intros H. change 0 with (Qfloor 0). apply Qfloor_resp_le.
  apply Qmult_le_0_compat; [lra|]. unfold Qle, inject_Z; simpl. lia.
Qed.

Section ChamferSpec.
Variable sqrtQ : Q -> Q.
Hypothesis sqrtQ_mono :
  forall a b, (0 <= a <= b)%Q -> (sqrtQ a <= sqrtQ b)%Q.

Lemma nearest_finite (p : Vec3) (target : list Vec3) :
  finiteVec p -> finitePoints target -> target <> [] ->
  isFinite (Math_sqrt sqrtQ (nearestSquared p target)).
Proof.
  intros Hp Hb Hne.
  destruct (nearestSquared_spec p target Hp Hb Hne) as ((q0 & Hin & E) & _).
  assert (Fq0 : finiteVec q0).
  { unfold finitePoints in Hb. rewrite Forall_forall in Hb. auto. }
  destruct (squaredDistance_finite p q0 Hp Fq0) as (x & Ex & Px).
  rewrite E, Ex. unfold Math_sqrt.
  apply Qle_bool_iff in Px. rewrite Px. reflexivity.
Qed.

Lemma oneWay_spec (a b : list Vec3) :
  a <> [] -> b <> [] -> finitePoints a -> finitePoints b ->
  exists ds,
    Forall2 (isNearestDistance sqrtQ b) a ds
    /\ isStatsOf ds (fst (fst (oneWay sqrtQ a b)))
         (snd (fst (oneWay sqrtQ a b))) (snd (oneWay sqrtQ a b)).
Proof.
  intros Ha Hb Fa Fb.
  set (ds := map (fun p => Math_sqrt sqrtQ (nearestSquared p b)) a).
  exists ds.
  assert (Hds : Forall isFinite ds).
  { unfold ds. apply Forall_map.
    eapply Forall_impl; [|exact Fa].
    intros p Hp. now apply nearest_finite. }
  assert (Hlen : length ds = length a) by (unfold ds; apply length_map).
  assert (Hpos : 0 < Z.of_nat (length ds)).
  { rewrite Hlen. destruct a; [congruence|simpl; lia]. }
  split.
  { unfold ds. clear Hds Hlen Hpos ds.
    induction Fa as [|p a' Hp Fa' IH]; [congruence|].
    cbn [map]. constructor.
    - now apply nearest_distance.
    - destruct a' as [|p' a'']; [constructor|].
      apply IH. discriminate. }
  unfold oneWay. fold ds.
  set (sorted := Array_sort (fun x y => nsub x y) ds).
  assert (Hperm : Permutation sorted ds) by apply Array_sort_perm.
  assert (Hsl : length sorted = length ds) by now apply Permutation_length.
  cbn [fst snd]. rewrite Hsl.
  set (n := Z.of_nat (length ds)) in *.
  rewrite or_else_count by exact Hpos.
  rewrite count_minus_one, floor_of_share, Math_min_ofZ.
  pose proof (floor_share_nonneg n ltac:(lia)) as Hfl.
  rewrite !Array_get_ofZ by lia.
  assert (Hi1 : (Z.to_nat (Z.min (n - 1) (Qfloor ((95 # 100) * inject_Z n)))
                 < length sorted)%nat) by (rewrite Hsl; lia).
  assert (Hi2 : (Z.to_nat (n - 1) < length sorted)%nat) by (rewrite Hsl; lia).
  apply nth_error_Some in Hi1, Hi2.
  destruct (nth_error sorted (Z.to_nat (Z.min _ _))) as [p95|] eqn:E1;
    [|congruence].
  destruct (nth_error sorted (Z.to_nat (n - 1))) as [mx|] eqn:E2;
    [|congruence].
  cbn [nullish].
  exists sorted. fold n.
  split; [exact Hperm|]. split; [now apply Array_sort_sorted|].
  split.
  - f_equal. change (fold_left (fun s x => nadd s x) sorted zero) with (sumOf sorted).
    apply sumOf_perm; [|exact Hperm].
    eapply Permutation_Forall; [|exact Hds]. now symmetry.
  - split; assumption.
Qed.

End ChamferSpec.

(** C1: for non-empty point clouds A and B (of finite coordinates),
    [chamferDistance] computes for each direction the distance from every
    source point to its nearest target point, and reports their arithmetic
    mean, the value of index [min (count - 1) (floor (0.95 * count))] of
    the ascending sort, and the last value of the sort.  [Math.sqrt] is used
    through: it is monotone on the non-negative numbers. *)
Theorem C1_chamfer_statistics (sqrtQ : Q -> Q) (A B : list Vec3) :
  (forall a b, (0 <= a <= b)%Q -> (sqrtQ a <= sqrtQ b)%Q) ->
  A <> [] -> B <> [] -> finitePoints A -> finitePoints B ->
  let r := chamferDistance sqrtQ A B in
  exists dAB dBA,
    Forall2 (isNearestDistance sqrtQ B) A dAB
    /\ Forall2 (isNearestDistance sqrtQ A) B dBA
    /\ isStatsOf dAB (meanAB r) (p95AB r) (maxAB r)
    /\ isStatsOf dBA (meanBA r) (p95BA r) (maxBA r).
Proof.
  intros Hmono HA HB FA FB r.
  destruct (oneWay_spec sqrtQ Hmono A B HA HB FA FB) as (dAB & N1 & S1).
  destruct (oneWay_spec sqrtQ Hmono B A HB HA FB FA) as (dBA & N2 & S2).
  exists dAB, dBA.
  subst r. unfold chamferDistance.
  destruct (oneWay sqrtQ A B) as [[m1 p1] x1].
  destruct (oneWay sqrtQ B A) as [[m2 p2] x2].
  cbn [meanAB meanBA p95AB p95BA maxAB maxBA fst snd] in *.
  auto.
Qed.

Lemma sqrt_fix_mono_nonneg (a b : Q) :
  (0 <= a <= b)%Q -> (sqrt_fix a <= sqrt_fix b)%Q.
Proof.
  intros [_ H]. now apply sqrt_fix_mono.
Qed.

Lemma C1_chamfer_statistics_witness :
  let r := chamferDistance sqrt_fix cloudA cloudB in
  exists dAB dBA,
    Forall2 (isNearestDistance sqrt_fix cloudB) cloudA dAB
    /\ Forall2 (isNearestDistance sqrt_fix cloudA) cloudB dBA
    /\ isStatsOf dAB (meanAB r) (p95AB r) (maxAB r)
    /\ isStatsOf dBA (meanBA r) (p95BA r) (maxBA r).
Proof.
  apply (C1_chamfer_statistics sqrt_fix cloudA cloudB).
  - exact sqrt_fix_mono_nonneg.
  - discriminate.
  - discriminate.
  - repeat constructor; apply finiteVec_Fin.
  - repeat constructor; apply finiteVec_Fin.
Defined.

(** ** The metric bundle *)

(** C3 fails on the code: comparing an empty mesh (here, the empty text)
    with a one-triangle mesh, no call throws, but the three B-to-A Chamfer
    statistics of the bundle are NaN.  Every point sampled on the triangle
    has no nearest point in the empty cloud, so its distance is
    [Math.sqrt(Infinity)]; mean, p95 and max are Infinity; the diagonal of
    the empty mesh's box is Infinity too, and Infinity / Infinity is NaN. *)
Theorem C3_empty_against_triangle_gives_NaN :
  exists m,
    Bench.compareAsciiStlText sqrt_fix rngHalf EmptyString oneTriangleStl = Ok m
    /\ meanBA (Bench.chamfer m) = NaN
    /\ p95BA (Bench.chamfer m) = NaN
    /\ maxBA (Bench.chamfer m) = NaN
    /\ aabbDiagonal sqrt_fix (aabbOfTriangles []) = PInf.
Proof.
  eexists. split; [vm_compute; reflexivity|].
  repeat split.
Qed.

(** ** The text decoder *)

Lemma nth_skipn_add {A} (n k : nat) (l : list A) (d : A) :
  nth k (skipn n l) d = nth (n + k) l d.
Proof.
  revert l. induction n as [|n IH]; intros l; [reflexivity|].
  destruct l as [|x l]; cbn [skipn Nat.add nth].
  - now destruct k.
  - apply IH.
Qed.

Lemma scanTo_ge (tok : string) (rest : list string) (i : nat) :
  (i <= scanTo tok rest i)%nat.
Proof.
  revert i. induction rest as [|l rest IH]; intros i; cbn [scanTo]; [lia|].
  destruct (startsWith (trim l) tok); [lia|].
  specialize (IH (S i)). lia.
Qed.

Lemma skipUntil_ge (tok : string) (lines : list string) (i : nat) :
  (i <= skipUntil tok lines i)%nat.
Proof. apply scanTo_ge. Qed.

(** [scanTo] stops at the first line that starts with the token, or at the
    end. *)
Lemma scanTo_spec (tok : string) (rest : list string) (i : nat) :
  let j := scanTo tok rest i in
  (j <= i + length rest)%nat
  /\ (forall k, (k < j - i)%nat ->
        startsWith (trim (nth k rest EmptyString)) tok = false)
  /\ ((j < i + length rest)%nat ->
        startsWith (trim (nth (j - i) rest EmptyString)) tok = true).
Proof.
  revert i. induction rest as [|l rest IH]; intros i; cbn [scanTo length].
  - repeat split; intros; lia.
  - destruct (startsWith (trim l) tok) eqn:E.
    + repeat split; try lia.
      intros _. now rewrite Nat.sub_diag.
    + destruct (IH (S i)) as (B & N & F).
      pose proof (scanTo_ge tok rest (S i)) as G.
      split; [lia|]. split.
      * intros [|k] Hk; [exact E|]. cbn [nth]. apply N. lia.
      * intros Hj.
        replace (scanTo tok rest (S i) - i)%nat
          with (S (scanTo tok rest (S i) - S i)) by lia.
        cbn [nth]. apply F. lia.
Qed.

Lemma skipUntil_stop (tok : string) (lines : list string) (i : nat) :
  let j := skipUntil tok lines i in
  (j < length lines)%nat ->
  startsWith (trim (nth j lines EmptyString)) tok = true.
Proof.
  cbv zeta. unfold skipUntil. intros Hj.
  pose proof (scanTo_ge tok (skipn i lines) i) as G.
  destruct (scanTo_spec tok (skipn i lines) i) as (_ & _ & F).
  rewrite length_skipn, nth_skipn_add in F.
  replace (i + (scanTo tok (skipn i lines) i - i))%nat
    with (scanTo tok (skipn i lines) i) in F by lia.
  apply F. lia.
Qed.

Lemma isVertexLine_in_range (lines : list string) (k : nat) :
  isVertexLine (nth k lines EmptyString) = true -> (k < length lines)%nat.
Proof.
  intros H. destruct (Nat.ltb_spec k (length lines)) as [L|L]; [exact L|].
  rewrite nth_overflow in H by exact L. discriminate.
Qed.

Lemma readVertices_three (rest : list string) (i : nat) :
  let l1 := nth 0 rest EmptyString in
  let l2 := nth 1 rest EmptyString in
  let l3 := nth 2 rest EmptyString in
  if isVertexLine l1 && isVertexLine l2 && isVertexLine l3
  then readVertices 3 rest i
       = ([vertexOfLine l1; vertexOfLine l2; vertexOfLine l3], (3 + i)%nat)
  else (length (fst (readVertices 3 rest i)) < 3)%nat.
Proof.
  unfold isVertexLine, vertexOfLine.
  destruct rest as [|a [|b [|c r]]]; cbn [nth readVertices];
    try change (startsWith (trim EmptyString) "vertex") with false;
    repeat match goal with
      | |- context [startsWith (trim ?l) "vertex"] =>
          destruct (startsWith (trim l) "vertex"); cbn [negb andb fst length]
      end;
    cbn [negb andb fst length];
    try reflexivity; lia.
Qed.

Lemma readVertices_ge (k : nat) (rest : list string) (i : nat) :
  (i <= snd (readVertices k rest i))%nat.
Proof.
  revert rest i. induction k as [|k IH]; intros rest i; cbn [readVertices].
  - simpl; lia.
  - destruct rest as [|l rest]; [simpl; lia|].
    destruct (negb _); [simpl; lia|].
    specialize (IH rest (S i)).
    destruct (readVertices k rest (S i)) as [vs j]. simpl in *. lia.
Qed.

(** What the loop body does at a [facet normal] line [i]: with [j] the
    index the scan for [outer loop] stops at, a triangle is pushed exactly
    when the three lines after [j] are vertex lines. *)
Lemma parseFacet_spec (lines : list string) (i : nat) :
  let j := skipUntil "outer loop" lines (S i) in
  let l1 := nth (j + 1) lines EmptyString in
  let l2 := nth (j + 2) lines EmptyString in
  let l3 := nth (j + 3) lines EmptyString in
  if isVertexLine l1 && isVertexLine l2 && isVertexLine l3
  then parseFacet lines i
       = (Some {| normal := normalOfLine (nth i lines EmptyString);
                  vertices := (vertexOfLine l1, vertexOfLine l2, vertexOfLine l3) |},
          skipUntil "endfacet" lines (j + 4))
  else fst (parseFacet lines i) = None.
Proof.
  cbv zeta. unfold parseFacet.
  set (j := skipUntil "outer loop" lines (S i)).
  pose proof (readVertices_three (skipn (S j) lines) (S j)) as R.
  cbv zeta in R. rewrite !nth_skipn_add in R.
  replace (S j + 0)%nat with (j + 1)%nat in R by lia.
  replace (S j + 1)%nat with (j + 2)%nat in R by lia.
  replace (S j + 2)%nat with (j + 3)%nat in R by lia.
  destruct (isVertexLine (nth (j + 1) lines EmptyString)
            && isVertexLine (nth (j + 2) lines EmptyString)
            && isVertexLine (nth (j + 3) lines EmptyString)).
  - rewrite R. unfold normalOfLine, parseFloatsFromLine, lineAt.
    replace (3 + S j)%nat with (j + 4)%nat by lia. reflexivity.
  - destruct (readVertices 3 (skipn (S j) lines) (S j)) as [verts e].
    cbn [fst] in R.
    destruct verts as [|v0 [|v1 [|v2 [|v3 vs]]]]; cbn [length] in R;
      try reflexivity; lia.
Qed.

Lemma parseFacet_index (lines : list string) (i : nat) :
  (i < snd (parseFacet lines i))%nat.
Proof.
  unfold parseFacet.
  pose proof (skipUntil_ge "outer loop" lines (S i)) as G1.
  set (j := skipUntil "outer loop" lines (S i)) in *.
  pose proof (readVertices_ge 3 (skipn (S j) lines) (S j)) as G2.
  destruct (readVertices 3 (skipn (S j) lines) (S j)) as [verts e].
  cbn [snd] in G2.
  pose proof (skipUntil_ge "endfacet" lines e) as G3.
  destruct verts as [|v0 [|v1 [|v2 [|v3 vs]]]]; cbn [snd]; lia.
Qed.

(** The main loop ends within [length lines - i] rounds, and pushes only
    triangles of facet blocks. *)
Lemma parseLoop_total (lines : list string) (fuel : nat) :
  forall i acc,
    (length lines - i <= fuel)%nat ->
    exists tris,
      parseLoop fuel lines i acc = Ok tris
      /\ forall t, In t tris ->
           In t acc
           \/ exists i', (i <= i' < length lines)%nat
                /\ isFacetLine (nth i' lines EmptyString) = true
                /\ fst (parseFacet lines i') = Some t.
Proof.
  induction fuel as [|fuel IH]; intros i acc Hfuel.
  - cbn [parseLoop]. destruct (Nat.ltb_spec i (length lines)); [lia|].
    exists acc. split; [reflexivity|]. now left.
  - cbn [parseLoop]. destruct (Nat.ltb_spec i (length lines)) as [L|L].
    + unfold lineAt. fold (isFacetLine (nth i lines EmptyString)).
      destruct (isFacetLine (nth i lines EmptyString)) eqn:F.
      * pose proof (parseFacet_index lines i) as G.
        destruct (parseFacet lines i) as [t j] eqn:P. cbn [snd] in G.
        destruct (IH (S j) (match t with Some tri => acc ++ [tri] | None => acc end))
          as (tris & E & Hin); [lia|].
        exists tris. split; [exact E|].
        intros t' Ht'. destruct (Hin t' Ht') as [Hacc|(i' & Hi' & F' & P')].
        -- destruct t as [tri|]; [|now left].
           apply in_app_or in Hacc as [Hacc|[<-|[]]]; [now left|].
           right. exists i. repeat split; try lia; try assumption.
           now rewrite P.
        -- right. exists i'. repeat split; try lia; assumption.
      * destruct (IH (S i) acc) as (tris & E & Hin); [lia|].
        exists tris. split; [exact E|].
        intros t' Ht'. destruct (Hin t' Ht') as [Hacc|(i' & Hi' & F' & P')].
        -- now left.
        -- right. exists i'. repeat split; try lia; assumption.
    + exists acc. split; [reflexivity|]. now left.
Qed.

(** C5: the text decoder never fails; at a facet block it appends a
    triangle exactly when it found three vertex lines, that is when the
    three lines that follow the [outer loop] line are vertex lines (it
    reads the lines after [outer loop] while they are vertex lines, three
    at most); they lie before the line the scan for [endfacet] stops at.
    A block without them contributes no triangle, and every triangle of
    the output comes from such a block. *)
Theorem C5_parseAsciiStl_facets (text : string) :
  let lines := linesOf text in
  (exists tris,
      StlUtils.parseAsciiStl text = Ok tris
      /\ forall t, In t tris ->
           exists i, (i < length lines)%nat
             /\ isFacetLine (nth i lines EmptyString) = true
             /\ fst (parseFacet lines i) = Some t)
  /\ forall i,
       let j := skipUntil "outer loop" lines (S i) in
       let l1 := nth (j + 1) lines EmptyString in
       let l2 := nth (j + 2) lines EmptyString in
       let l3 := nth (j + 3) lines EmptyString in
       ((exists t, fst (parseFacet lines i) = Some t)
          <-> isVertexLine l1 = true /\ isVertexLine l2 = true
              /\ isVertexLine l3 = true)
       /\ (fst (parseFacet lines i) = None
          <-> ~ (isVertexLine l1 = true /\ isVertexLine l2 = true
                 /\ isVertexLine l3 = true))
       /\ forall t, fst (parseFacet lines i) = Some t ->
            let e := snd (parseFacet lines i) in
            vertices t = (vertexOfLine l1, vertexOfLine l2, vertexOfLine l3)
            /\ isOuterLoopLine (nth j lines EmptyString) = true
            /\ (j + 3 < e)%nat
            /\ ((e < length lines)%nat ->
                isEndFacetLine (nth e lines EmptyString) = true).
Proof.
  intros lines. split.
  - unfold parseAsciiStl. fold (linesOf text). fold lines.
    destruct (parseLoop_total lines (length lines) 0%nat []) as (tris & E & Hin);
      [lia|].
    exists tris. split; [exact E|].
    intros t Ht. destruct (Hin t Ht) as [[]|(i & Hi & F & P)].
    exists i. repeat split; try lia; assumption.
  - intros i. cbv zeta.
    pose proof (parseFacet_spec lines i) as Spec. cbv zeta in Spec.
    set (j := skipUntil "outer loop" lines (S i)) in *.
    destruct (isVertexLine (nth (j + 1) lines EmptyString)) eqn:V1;
      destruct (isVertexLine (nth (j + 2) lines EmptyString)) eqn:V2;
      destruct (isVertexLine (nth (j + 3) lines EmptyString)) eqn:V3;
      cbn [andb] in Spec.
    1: { rewrite Spec. cbn [fst snd].
         pose proof (skipUntil_ge "endfacet" lines (j + 4)) as G.
         split; [|split].
         - split; [auto | eauto].
         - split; [discriminate | intros H; exfalso; apply H; auto].
         - intros t [= <-]. cbn [vertices].
           split; [reflexivity|]. split; [|split; [lia|]].
           + apply isVertexLine_in_range in V3.
             apply (skipUntil_stop "outer loop" lines (S i)). fold j. lia.
           + apply (skipUntil_stop "endfacet" lines (j + 4)). }
    all: rewrite Spec; split; [|split];
      [ split; [intros [t Ht]; discriminate | intros (A & B & C); discriminate]
      | split; [intros _ (A & B & C); discriminate | reflexivity]
      | intros t Ht; discriminate ].
Qed.

(** A block is read by position: a fourth vertex line is skipped over, and
    a blank line after [outer loop] ends the reading at once. *)
Example parseAsciiStl_examples :
  StlUtils.parseAsciiStl oneTriangleStl = Ok flatMesh
  /\ StlUtils.parseAsciiStl fourVertexStl = Ok flatMesh
  /\ StlUtils.parseAsciiStl gapStl = Ok [].
Proof.
  repeat split.
Qed.

(** ** Strings *)

Lemma append_nil_r (s : string) : (s ++ EmptyString)%string = s.
Proof.
  induction s as [|c s IH]; cbn [append]; [reflexivity|]. now rewrite IH.
Qed.

Lemma append_assoc (a b c : string) :
  ((a ++ b) ++ c)%string = (a ++ (b ++ c))%string.
Proof.
  induction a as [|x a IH]; cbn [append]; [reflexivity|]. now rewrite IH.
Qed.

Lemma length_append (a b : string) :
  String.length (a ++ b) = (String.length a + String.length b)%nat.
Proof.
  induction a as [|x a IH]; cbn [append String.length]; [reflexivity|].
  now rewrite IH.
Qed.

Lemma forallb_str_app (p : ascii -> bool) (a b : string) :
  forallb_str p (a ++ b) = forallb_str p a && forallb_str p b.
Proof.
  induction a as [|x a IH]; cbn [append forallb_str]; [reflexivity|].
  now rewrite IH, andb_assoc.
Qed.

Lemma forallb_str_impl (p q : ascii -> bool) (s : string) :
  (forall c, p c = true -> q c = true) ->
  forallb_str p s = true -> forallb_str q s = true.
Proof.
  intros H. induction s as [|c s IH]; cbn [forallb_str]; [reflexivity|].
  intros E. apply andb_true_iff in E as [E1 E2].
  now rewrite (H c E1), IH.
Qed.

Lemma contains_app (c : ascii) (a b : string) :
  contains c (a ++ b) = contains c a || contains c b.
Proof.
  induction a as [|x a IH]; cbn [append contains]; [reflexivity|].
  now rewrite IH, orb_assoc.
Qed.

Lemma contains_forallb (c : ascii) (p : ascii -> bool) (s : string) :
  p c = false -> forallb_str p s = true -> contains c s = false.
Proof.
  intros Hc. induction s as [|x s IH]; cbn [forallb_str contains]; [reflexivity|].
  intros E. apply andb_true_iff in E as [E1 E2].
  rewrite (IH E2), orb_false_r.
  destruct (Ascii.eqb_spec x c) as [->|]; [congruence|reflexivity].
Qed.

(** *** Characters *)

Lemma isDigit_notWhiteSpace (c : ascii) :
  isDigit c = true -> notWhiteSpace c = true.
Proof.
  unfold isDigit, notWhiteSpace, isWhiteSpace. lia.
Qed.

Lemma isDigit_digit_char (d : Z) :
  0 <= d <= 9 -> isDigit (digit_char d) = true /\ decimal_val (digit_char d) = d.
Proof.
  intros H.
  assert (C : d = 0 \/ d = 1 \/ d = 2 \/ d = 3 \/ d = 4 \/ d = 5 \/ d = 6
              \/ d = 7 \/ d = 8 \/ d = 9) by lia.
  repeat (destruct C as [->|C]; [split; reflexivity|]). subst. split; reflexivity.
Qed.

(** *** Digit strings *)

Lemma digits_value_from_app (radix : Z) (val : ascii -> Z) (a b : string) (acc : Z) :
  digits_value_from radix val acc (a ++ b)
  = digits_value_from radix val (digits_value_from radix val acc a) b.
Proof.
  revert acc. induction a as [|x a IH]; intros acc; cbn [append digits_value_from].
  - reflexivity.
  - apply IH.
Qed.

Lemma digits_value_from_acc (s : string) (acc : Z) :
  digits_value_from 10 decimal_val acc s
  = acc * 10 ^ Z.of_nat (String.length s) + digits_value s.
Proof.
  unfold digits_value.
  revert acc. induction s as [|c s IH]; intros acc;
    cbn [digits_value_from String.length].
  - cbn. lia.
  - rewrite IH, (IH (10 * 0 + decimal_val c)).
    rewrite Nat2Z.inj_succ, Z.pow_succ_r by lia. ring.
Qed.

Lemma digits_value_app (a b : string) :
  digits_value (a ++ b)
  = digits_value a * 10 ^ Z.of_nat (String.length b) + digits_value b.
Proof.
  unfold digits_value at 1. rewrite digits_value_from_app.
  fold (digits_value a). apply digits_value_from_acc.
Qed.

Lemma digits_value_cons (c : ascii) (s : string) :
  digits_value (String c s)
  = decimal_val c * 10 ^ Z.of_nat (String.length s) + digits_value s.
Proof.
  change (String c s) with (String c EmptyString ++ s)%string.
  rewrite digits_value_app. unfold digits_value at 1. cbn. lia.
Qed.

Lemma digits_value_nonneg (s : string) :
  forallb_str isDigit s = true -> 0 <= digits_value s.
Proof.
  induction s as [|c s IH]; cbn [forallb_str]; intros E.
  - cbn. lia.
  - apply andb_true_iff in E as [E1 E2]. rewrite digits_value_cons.
    specialize (IH E2).
    assert (0 <= decimal_val c) by (unfold isDigit, decimal_val in *; lia).
    assert (0 <= 10 ^ Z.of_nat (String.length s)) by (apply Z.pow_nonneg; lia).
    nia.
Qed.

Lemma digits_from_digits (fuel : nat) (n : Z) (acc : string) :
  0 <= n ->
  forallb_str isDigit (digits_from fuel n acc) = forallb_str isDigit acc.
Proof.
  revert n acc. induction fuel as [|fuel IH]; intros n acc Hn; cbn [digits_from].
  - reflexivity.
  - assert (D : isDigit (digit_char (n mod 10)) = true).
    { apply isDigit_digit_char. pose proof (Z.mod_pos_bound n 10). lia. }
    destruct (n <? 10).
    + cbn [forallb_str]. now rewrite D.
    + rewrite IH by (apply Z.div_pos; lia). cbn [forallb_str]. now rewrite D.
Qed.

Lemma digits_from_value (fuel : nat) (n : Z) (acc : string) :
  0 <= n < 10 ^ Z.of_nat fuel ->
  digits_value (digits_from fuel n acc)
  = n * 10 ^ Z.of_nat (String.length acc) + digits_value acc.
Proof.
  revert n acc. induction fuel as [|fuel IH]; intros n acc Hn.
  - cbn in Hn. assert (n = 0) by lia. subst. cbn [digits_from]. lia.
  - cbn [digits_from].
    assert (V : decimal_val (digit_char (n mod 10)) = n mod 10).
    { apply isDigit_digit_char. pose proof (Z.mod_pos_bound n 10). lia. }
    destruct (Z.ltb_spec n 10) as [L|L].
    + rewrite digits_value_cons, V, Z.mod_small by lia. reflexivity.
    + rewrite IH.
      * rewrite digits_value_cons, V. cbn [String.length].
        rewrite Nat2Z.inj_succ, Z.pow_succ_r by lia.
        pose proof (Z.div_mod n 10 ltac:(lia)). nia.
      * rewrite Nat2Z.inj_succ, Z.pow_succ_r in Hn by lia.
        split; [apply Z.div_pos; lia|].
        apply Z.div_lt_upper_bound; lia.
Qed.

Lemma digits_from_length (fuel : nat) (n : Z) (acc : string) :
  (String.length acc <= String.length (digits_from fuel n acc))%nat.
Proof.
  revert n acc. induction fuel as [|fuel IH]; intros n acc; cbn [digits_from].
  - lia.
  - destruct (n <? 10).
    + cbn [String.length]. lia.
    + specialize (IH (n / 10) (String (digit_char (n mod 10)) acc)).
      cbn [String.length] in IH. lia.
Qed.

Lemma pow2_le_pow10 (k : Z) : 0 <= k -> 2 ^ k <= 10 ^ k.
Proof.
  intros H. apply Z.pow_le_mono_l. lia.
Qed.

Lemma Z_to_digits_spec (n : Z) :
  0 <= n ->
  forallb_str isDigit (Z_to_digits n) = true
  /\ digits_value (Z_to_digits n) = n
  /\ Z_to_digits n <> EmptyString.
Proof.
  intros Hn. unfold Z_to_digits. split; [|split].
  - now rewrite digits_from_digits.
  - rewrite digits_from_value.
    + cbn. lia.
    + split; [exact Hn|].
      rewrite Nat2Z.inj_succ, Z2Nat.id by apply Z.log2_nonneg.
      destruct (Z.eq_dec n 0) as [->|Hz]; [cbn; lia|].
      pose proof (Z.log2_spec n ltac:(lia)) as [_ U].
      pose proof (pow2_le_pow10 (Z.succ (Z.log2 n))
                    ltac:(pose proof (Z.log2_nonneg n); lia)).
      lia.
  - cbn [digits_from]. destruct (n <? 10); [discriminate|].
    pose proof (digits_from_length (Z.to_nat (Z.log2 n)) (n / 10)
                  (String (digit_char (n mod 10)) EmptyString)) as L.
    cbn [String.length] in L.
    destruct (digits_from _ _ _); [cbn in L; lia|discriminate].
Qed.

(** *** Zeros *)

Lemma zeros_digits (k : nat) : forallb_str isDigit (zeros k) = true.
Proof.
  induction k as [|k IH]; cbn [zeros forallb_str]; [reflexivity|].
  now rewrite IH.
Qed.

Lemma zeros_all_zero (k : nat) : forallb_str (Ascii.eqb "0") (zeros k) = true.
Proof.
  induction k as [|k IH]; cbn [zeros forallb_str]; [reflexivity|].
  now rewrite IH.
Qed.

Lemma zeros_length (k : nat) : String.length (zeros k) = k.
Proof.
  induction k as [|k IH]; cbn [zeros String.length]; [reflexivity|].
  now rewrite IH.
Qed.

Lemma all_zero_value (s : string) :
  forallb_str (Ascii.eqb "0") s = true -> digits_value s = 0.
Proof.
  induction s as [|c s IH]; cbn [forallb_str]; intros E; [reflexivity|].
  apply andb_true_iff in E as [E1 E2].
  apply Ascii.eqb_eq in E1. subst c.
  rewrite digits_value_cons, (IH E2). cbn. lia.
Qed.

Lemma zeros_value (k : nat) (s : string) :
  digits_value (zeros k ++ s) = digits_value s.
Proof.
  rewrite digits_value_app, all_zero_value by apply zeros_all_zero. lia.
Qed.

(** *** Cutting a string in two *)

Lemma substring_cut (s : string) (i : nat) :
  (i <= String.length s)%nat ->
  exists a b,
    s = (a ++ b)%string /\ String.length a = i
    /\ substring 0 i s = a
    /\ substring i (String.length s - i) s = b.
Proof.
  revert i. induction s as [|c s IH]; intros i Hi.
  - cbn in Hi. assert (i = 0%nat) by lia. subst.
    exists EmptyString, EmptyString. repeat split.
  - destruct i as [|i].
    + exists EmptyString, (String c s). repeat split.
      cbn [substring String.length Nat.sub].
      f_equal. clear. induction s as [|d s IH]; cbn; [reflexivity|].
      now rewrite IH.
    + cbn [String.length] in Hi.
      destruct (IH i ltac:(lia)) as (a & b & E & L & S1 & S2).
      exists (String c a), b. cbn [append String.length substring Nat.sub].
      repeat split; congruence.
Qed.

(** *** Trailing zeros *)

Lemma strip_trailing_zeros_spec (s : string) :
  exists j,
    s = (strip_trailing_zeros s ++ zeros j)%string
    /\ (strip_trailing_zeros s = EmptyString
        <-> forallb_str (Ascii.eqb "0") s = true).
Proof.
  induction s as [|c s (j & E & Z)]; cbn [strip_trailing_zeros].
  - exists 0%nat. repeat split.
  - destruct (strip_trailing_zeros s) as [|d t] eqn:St; cbn [isEmpty andb].
    + destruct (Ascii.eqb_spec c "0") as [->|Hc].
      * exists (S j). cbn [append zeros forallb_str] in *.
        split; [now rewrite E at 1|].
        rewrite Ascii.eqb_refl. cbn [andb]. tauto.
      * exists j. cbn [append forallb_str] in *.
        split; [now rewrite E at 1|].
        split; [discriminate|].
        intros H. apply andb_true_iff in H as [H _].
        apply Ascii.eqb_eq in H. congruence.
    + exists j. cbn [append forallb_str] in *.
      split; [now rewrite E at 1|].
      split; [discriminate|].
      intros H. apply andb_true_iff in H as [_ H].
      apply Z in H. discriminate.
Qed.

Lemma strip_trailing_zeros_digits (s : string) :
  forallb_str isDigit s = true ->
  forallb_str isDigit (strip_trailing_zeros s) = true.
Proof.
  intros H. destruct (strip_trailing_zeros_spec s) as (j & E & _).
  rewrite E, forallb_str_app in H. now apply andb_true_iff in H as [H _].
Qed.

(** *** The two replacements of [trimTrailingZeros] *)

Lemma replaceDotZeros_no_dot (s : string) :
  contains "." s = false -> Bin2Ascii.replaceDotZeros s = s.
Proof.
  induction s as [|c s IH]; cbn [contains Bin2Ascii.replaceDotZeros];
    [reflexivity|].
  intros H. apply orb_false_iff in H as [H1 H2].
  rewrite H1. cbn [andb]. now rewrite IH.
Qed.

Lemma replaceFractionZeros_no_dot (s : string) :
  contains "." s = false -> Bin2Ascii.replaceFractionZeros s = s.
Proof.
  induction s as [|c s IH]; cbn [contains Bin2Ascii.replaceFractionZeros];
    [reflexivity|].
  intros H. apply orb_false_iff in H as [H1 H2].
  rewrite H1. cbn [andb]. now rewrite IH.
Qed.

Lemma replaceDotZeros_at_dot (pre fp : string) :
  contains "." pre = false -> contains "." fp = false ->
  Bin2Ascii.replaceDotZeros (pre ++ String "." fp)
  = if negb (isEmpty fp) && forallb_str (Ascii.eqb "0") fp
    then pre else (pre ++ String "." fp)%string.
Proof.
  intros Hpre Hfp.
  induction pre as [|c pre IH]; cbn [append Bin2Ascii.replaceDotZeros].
  - rewrite Ascii.eqb_refl. cbn [andb].
    destruct (negb (isEmpty fp) && forallb_str (Ascii.eqb "0") fp);
      [reflexivity|].
    now rewrite replaceDotZeros_no_dot.
  - cbn [contains] in Hpre. apply orb_false_iff in Hpre as [H1 H2].
    rewrite H1. cbn [andb]. rewrite (IH H2).
    now destruct (negb (isEmpty fp) && forallb_str (Ascii.eqb "0") fp).
Qed.

Lemma replaceFractionZeros_at_dot (pre fp : string) :
  contains "." pre = false -> forallb_str isDigit fp = true ->
  Bin2Ascii.replaceFractionZeros (pre ++ String "." fp)
  = (pre ++ String "." (strip_trailing_zeros fp))%string.
Proof.
  intros Hpre Hfp.
  induction pre as [|c pre IH]; cbn [append Bin2Ascii.replaceFractionZeros].
  - rewrite Ascii.eqb_refl, Hfp. cbn [andb].
    destruct (String.eqb_spec (strip_trailing_zeros fp) fp) as [E|E]; cbn [negb].
    + rewrite E. rewrite replaceFractionZeros_no_dot; [reflexivity|].
      eapply contains_forallb; [|exact Hfp]. reflexivity.
    + reflexivity.
  - cbn [contains] in Hpre. apply orb_false_iff in Hpre as [H1 H2].
    rewrite H1. cbn [andb]. now rewrite (IH H2).
Qed.

(** *** trim and split on tokens *)

Lemma trimEnd_token (pre tok : string) :
  isToken tok -> trimEnd (pre ++ tok) = (pre ++ tok)%string.
Proof.
  intros [Hne Hws].
  assert (T : trimEnd tok = tok).
  { clear Hne. induction tok as [|c t IH]; cbn [trimEnd]; [reflexivity|].
    cbn [forallb_str] in Hws. apply andb_true_iff in Hws as [H1 H2].
    rewrite (IH H2). unfold notWhiteSpace in H1.
    apply negb_true_iff in H1. rewrite H1, andb_false_r. reflexivity. }
  induction pre as [|c pre IH]; cbn [append trimEnd]; [exact T|].
  rewrite IH. destruct (pre ++ tok)%string eqn:E; [|reflexivity].
  destruct pre; cbn [append] in E; [congruence|discriminate].
Qed.

Lemma trim_token (tok : string) : isToken tok -> trim tok = tok.
Proof.
  intros H. unfold trim.
  assert (S : trimStart tok = tok).
  { destruct H as [Hne Hws]. destruct tok as [|c t]; [congruence|].
    cbn [forallb_str] in Hws. apply andb_true_iff in Hws as [H1 _].
    unfold notWhiteSpace in H1. apply negb_true_iff in H1.
    cbn [trimStart]. now rewrite H1. }
  rewrite S. apply (trimEnd_token EmptyString tok H).
Qed.

Lemma split_ws_token_end (b : bool) (tok : string) :
  isToken tok -> split_ws_from b tok = [tok].
Proof.
  intros [Hne Hws]. revert b.
  induction tok as [|c t IH]; intros b; [congruence|].
  cbn [forallb_str] in Hws. apply andb_true_iff in Hws as [H1 H2].
  unfold notWhiteSpace in H1. apply negb_true_iff in H1.
  cbn [split_ws_from]. rewrite H1.
  destruct t as [|d t'].
  - reflexivity.
  - rewrite (IH ltac:(discriminate) H2). reflexivity.
Qed.

Lemma split_ws_token_space (b : bool) (tok rest : string) :
  isToken tok ->
  split_ws_from b (tok ++ String " " rest) = tok :: split_ws_from true rest.
Proof.
  intros [Hne Hws]. revert b.
  induction tok as [|c t IH]; intros b; [congruence|].
  cbn [forallb_str] in Hws. apply andb_true_iff in Hws as [H1 H2].
  unfold notWhiteSpace in H1. apply negb_true_iff in H1.
  cbn [append split_ws_from]. rewrite H1.
  destruct t as [|d t'].
  - reflexivity.
  - rewrite (IH ltac:(discriminate) H2). reflexivity.
Qed.

Lemma isToken_app (a b : string) : isToken a -> isToken b -> isToken (a ++ b).
Proof.
  intros [Ha1 Ha2] [Hb1 Hb2]. split.
  - destruct a; [congruence|discriminate].
  - now rewrite forallb_str_app, Ha2, Hb2.
Qed.

Lemma isToken_digits (s : string) :
  s <> EmptyString -> forallb_str isDigit s = true -> isToken s.
Proof.
  intros Hne Hd. split; [exact Hne|].
  eapply forallb_str_impl; [|exact Hd]. apply isDigit_notWhiteSpace.
Qed.

(** *** Reading a decimal literal *)

Lemma span_app (p : ascii -> bool) (a b : string) :
  forallb_str p a = true ->
  match b with String c _ => p c = false | EmptyString => True end ->
  span p (a ++ b) = (a, b).
Proof.
  intros Ha Hb. induction a as [|c a IH]; cbn [append].
  - destruct b as [|c r]; [reflexivity|]. cbn [span]. now rewrite Hb.
  - cbn [forallb_str] in Ha. apply andb_true_iff in Ha as [H1 H2].
    cbn [span]. rewrite H1, (IH H2). reflexivity.
Qed.

Lemma digit_not_I (c : ascii) (s : string) :
  isDigit c = true -> String.eqb (String c s) "Infinity" = false.
Proof.
  intros H. cbn [String.eqb].
  destruct (Ascii.eqb_spec c "I") as [->|]; [discriminate|reflexivity].
Qed.

(** A literal [ip], [ip.fp], [ipE] or [ip.fpE], where [E] is an exponent
    part or nothing. *)
Lemma parse_unsigned_literal (ip fp ex : string) (dot : bool) (e : Z) :
  ip <> EmptyString -> forallb_str isDigit ip = true ->
  forallb_str isDigit fp = true ->
  (dot = false -> fp = EmptyString) ->
  match ex with
  | String c _ => isDigit c = false /\ c <> "."%char
  | EmptyString => True
  end ->
  parse_exponent ex = Some e ->
  parse_unsigned (ip ++ (if dot then String "." fp else EmptyString) ++ ex)
  = fin ((inject_Z (digits_value ip)
          + inject_Z (digits_value fp) / pow10 (Z.of_nat (String.length fp)))
         * Qpower 10 e).
Proof.
  intros Hne Hip Hfp Hdot Hex He. unfold parse_unsigned.
  destruct ip as [|c ip']; [congruence|].
  cbn [forallb_str] in Hip. apply andb_true_iff in Hip as [Hc Hip'].
  cbn [append]. rewrite (digit_not_I c _ Hc).
  change (String c (ip' ++ (if dot then String "." fp else EmptyString) ++ ex)%string)
    with (String c ip' ++ ((if dot then String "." fp else EmptyString) ++ ex))%string.
  rewrite span_app.
  - destruct dot.
    + cbn [append]. rewrite span_app; [|exact Hfp|].
      * cbn [isEmpty andb]. now rewrite He.
      * destruct ex as [|d r]; [exact I|apply Hex].
    + rewrite (Hdot eq_refl). cbn [append].
      replace (match ex with
               | String "."%char r => span isDigit r
               | _ => (EmptyString, ex)
               end) with (EmptyString, ex).
      * cbn [isEmpty andb]. now rewrite He.
      * destruct ex as [|d r]; [reflexivity|].
        destruct Hex as [_ Hd].
        destruct (Ascii.eqb_spec d ".") as [->|N]; [congruence|].
        destruct d as [[] [] [] [] [] [] [] []]; try reflexivity; congruence.
  - cbn [forallb_str]. now rewrite Hc, Hip'.
  - destruct dot; cbn [append]; [reflexivity|].
    destruct ex as [|d r]; [exact I|apply Hex].
Qed.

(** [Number] on a string that starts with a digit and is no 0x, 0o or 0b
    literal. *)
Lemma Number_digit_first (c : ascii) (rest : string) :
  isDigit c = true ->
  match rest with
  | String d _ => isDigit d = true \/ d = "."%char \/ d = "e"%char
  | EmptyString => True
  end ->
  trim (String c rest) = String c rest ->
  Number (String c rest) = parse_unsigned (String c rest).
Proof.
  intros Hc Hrest Htrim. unfold Number. rewrite Htrim.
  destruct c as [[] [] [] [] [] [] [] []]; try discriminate; try reflexivity.
  destruct rest as [|d r]; [reflexivity|].
  destruct Hrest as [Hd|[->| ->]]; try reflexivity.
  destruct d as [[] [] [] [] [] [] [] []]; try discriminate; reflexivity.
Qed.

Lemma Number_minus (rest : string) :
  trim (String "-" rest) = String "-" rest ->
  Number (String "-" rest) = nneg (parse_unsigned rest).
Proof.
  intros Htrim. unfold Number. now rewrite Htrim.
Qed.

(** ** Printing a number and reading it back *)

Import Bin2Ascii.

Lemma pow10_pos (k : Z) : 0 <= k -> (0 < pow10 k)%Q.
Proof.
  intros H. unfold pow10, Qlt; cbn [inject_Z Qnum Qden]. rewrite Z.mul_1_r.
  pose proof (Z.pow_pos_nonneg 10 k ltac:(lia) H). lia.
Qed.

Lemma pow10_add (a b : Z) :
  0 <= a -> 0 <= b -> (pow10 (a + b) == pow10 a * pow10 b)%Q.
Proof.
  intros Ha Hb. unfold pow10. rewrite Z.pow_add_r by assumption.
  now rewrite inject_Z_mult.
Qed.

(** The value of [ip.fp'] when [fp'] is [fp] without [j] final zeros. *)
Lemma decimal_value (ipv fpv : Z) (len j : Z) :
  0 <= len -> 0 <= j ->
  (inject_Z ipv + inject_Z fpv / pow10 len
   == inject_Z (ipv * 10 ^ (len + j) + fpv * 10 ^ j) / pow10 (len + j))%Q.
Proof.
  intros Hl Hj.
  pose proof (pow10_pos len Hl) as P1. pose proof (pow10_pos j Hj) as P2.
  rewrite inject_Z_plus, !inject_Z_mult.
  change (inject_Z (10 ^ (len + j))) with (pow10 (len + j)).
  change (inject_Z (10 ^ j)) with (pow10 j).
  rewrite pow10_add by assumption.
  field. split; lra.
Qed.

(** Rounding to the nearest multiple of [10^-f]. *)
Lemma round_half_up (a : Q) (f : Z) :
  0 <= f ->
  let n := Qfloor (a * pow10 f + (1 # 2)) in
  (Qabs (a - inject_Z n / pow10 f) <= (1 # 2) / pow10 f)%Q.
Proof.
  intros Hf n. pose proof (pow10_pos f Hf) as P.
  pose proof (Qfloor_le (a * pow10 f + (1 # 2))) as L.
  pose proof (Qlt_floor (a * pow10 f + (1 # 2))) as U.
  fold n in L, U. rewrite inject_Z_plus in U.
  change (inject_Z 1) with 1%Q in U.
  assert (E1 : ((a - inject_Z n / pow10 f) * pow10 f
                == a * pow10 f - inject_Z n)%Q) by (field; lra).
  assert (E2 : ((1 # 2) / pow10 f * pow10 f == 1 # 2)%Q) by (field; lra).
  assert (E3 : (- ((1 # 2) / pow10 f) * pow10 f == - (1 # 2))%Q) by (field; lra).
  apply Qabs_Qle_condition. split.
  - apply (Qmult_le_r _ _ (pow10 f) P). rewrite E1, E3. lra.
  - apply (Qmult_le_r _ _ (pow10 f) P). rewrite E1, E2. lra.
Qed.

Lemma round_nonneg (a : Q) (f : Z) :
  0 <= f -> (0 <= a)%Q -> 0 <= Qfloor (a * pow10 f + (1 # 2)).
Proof.
  intros Hf Ha. change 0 with (Qfloor 0). apply Qfloor_resp_le.
  pose proof (pow10_pos f Hf) as P.
  assert (0 <= a * pow10 f)%Q by (apply Qmult_le_0_compat; lra). lra.
Qed.

(** The digits [toFixed] prints for [a >= 0] with six fraction digits. *)
Lemma fixed_digits_spec (a : Q) :
  (0 <= a)%Q ->
  exists ip fp,
    fixed_digits a 6 = (ip ++ String "." fp)%string
    /\ ip <> EmptyString
    /\ forallb_str isDigit ip = true
    /\ forallb_str isDigit fp = true
    /\ String.length fp = 6%nat
    /\ digits_value ip * 10 ^ 6 + digits_value fp
       = Qfloor (a * pow10 6 + (1 # 2)).
Proof.
  intros Ha. unfold fixed_digits.
  set (n := Qfloor (a * pow10 6 + (1 # 2))).
  assert (Hn : 0 <= n) by (apply round_nonneg; [lia|exact Ha]).
  destruct (Z_to_digits_spec n Hn) as (D & V & NE).
  change (6 =? 0) with false. cbv iota.
  set (m := if Z.of_nat (String.length (Z_to_digits n)) <=? 6
            then (zeros (Z.to_nat (6 + 1 - Z.of_nat (String.length (Z_to_digits n))))
                  ++ Z_to_digits n)%string
            else Z_to_digits n).
  assert (Dm : forallb_str isDigit m = true).
  { unfold m. destruct (_ <=? 6); [|exact D].
    now rewrite forallb_str_app, zeros_digits, D. }
  assert (Vm : digits_value m = n).
  { unfold m. destruct (_ <=? 6); [|exact V]. now rewrite zeros_value. }
  assert (Lm : (7 <= String.length m)%nat).
  { unfold m. destruct (Z.leb_spec (Z.of_nat (String.length (Z_to_digits n))) 6).
    - rewrite length_append, zeros_length. lia.
    - lia. }
  destruct (substring_cut m (String.length m - 6) ltac:(lia))
    as (ip & fp & E & Lip & S1 & S2).
  replace (Z.to_nat (Z.of_nat (String.length m) - 6))
    with (String.length m - 6)%nat by lia.
  replace (Z.to_nat 6) with (String.length m - (String.length m - 6))%nat by lia.
  rewrite S1, S2.
  assert (Lfp : String.length fp = 6%nat).
  { pose proof (f_equal String.length E) as EL.
    rewrite length_append in EL. lia. }
  exists ip, fp. rewrite E, forallb_str_app in Dm.
  apply andb_true_iff in Dm as [D1 D2].
  repeat split; try assumption.
  - intros ->. cbn in Lip. lia.
  - rewrite <- Vm, E, digits_value_app, Lfp. reflexivity.
Qed.

Lemma exponentPart_parse (ex : string) (e : Z) :
  exponentPart ex e ->
  parse_exponent ex = Some e
  /\ match ex with
     | String c _ => isDigit c = false /\ c <> "."%char
     | EmptyString => True
     end
  /\ forallb_str notWhiteSpace ex = true
  /\ match ex with
     | String c _ => c = "e"%char
     | EmptyString => True
     end.
Proof.
  intros [[-> ->]|(ds & -> & Hne & Hd & ->)].
  - repeat split.
  - assert (W : forallb_str notWhiteSpace ds = true)
      by (eapply forallb_str_impl; [|exact Hd]; apply isDigit_notWhiteSpace).
    cbn [parse_exponent]. change (Ascii.eqb "e" "e") with true. cbn [orb].
    rewrite Hd.
    assert (N : isEmpty ds = false) by (destruct ds; [congruence|reflexivity]).
    rewrite N. cbn [negb andb].
    repeat split; try discriminate.
    cbn [forallb_str]. change (notWhiteSpace "e") with true.
    change (notWhiteSpace "+") with true. cbn [andb]. exact W.
Qed.

(** Reading a printed numeral back. *)
Lemma Number_numeral (neg dot : bool) (ip fp ex : string) (e : Z) :
  ip <> EmptyString -> forallb_str isDigit ip = true ->
  forallb_str isDigit fp = true ->
  (dot = false -> fp = EmptyString) ->
  exponentPart ex e ->
  let v := ((inject_Z (digits_value ip)
             + inject_Z (digits_value fp) / pow10 (Z.of_nat (String.length fp)))
            * Qpower 10 e)%Q in
  isToken (numeral neg dot ip fp ex)
  /\ Number (numeral neg dot ip fp ex) = if neg then nneg (fin v) else fin v.
Proof.
  intros Hne Hip Hfp Hdot Hex v.
  destruct (exponentPart_parse ex e Hex) as (Pe & Ce & We & Fe).
  assert (Wip : forallb_str notWhiteSpace ip = true)
    by (eapply forallb_str_impl; [|exact Hip]; apply isDigit_notWhiteSpace).
  assert (Wfp : forallb_str notWhiteSpace fp = true)
    by (eapply forallb_str_impl; [|exact Hfp]; apply isDigit_notWhiteSpace).
  assert (Wbody : forallb_str notWhiteSpace
                    (ip ++ (if dot then String "." fp else EmptyString) ++ ex)
                  = true).
  { rewrite !forallb_str_app, Wip, We.
    destruct dot; cbn [forallb_str andb]; [|reflexivity].
    now rewrite Wfp. }
  assert (Tok : isToken (numeral neg dot ip fp ex)).
  { unfold numeral. destruct neg.
    - split; [discriminate|].
      change ("-" ++ ip ++ (if dot then String "." fp else EmptyString) ++ ex)%string
        with (String "-" (ip ++ (if dot then String "." fp else EmptyString) ++ ex)%string).
      cbn [forallb_str]. now rewrite Wbody.
    - cbn [append]. split; [|exact Wbody].
      destruct ip; [congruence|discriminate]. }
  split; [exact Tok|].
  pose proof (trim_token _ Tok) as Tr.
  pose proof (parse_unsigned_literal ip fp ex dot e Hne Hip Hfp Hdot Ce Pe) as PU.
  fold v in PU.
  unfold numeral in *. destruct neg.
  - change ("-" ++ ip ++ (if dot then String "." fp else EmptyString) ++ ex)%string
      with (String "-" (ip ++ (if dot then String "." fp else EmptyString) ++ ex)%string)
      in *.
    rewrite (Number_minus _ Tr), PU. reflexivity.
  - cbn [append] in *. rewrite <- PU.
    destruct ip as [|c ip']; [congruence|].
    cbn [append] in *.
    cbn [forallb_str] in Hip. apply andb_true_iff in Hip as [Hc Hip'].
    apply Number_digit_first; [exact Hc| |exact Tr].
    destruct ip' as [|d ip'']; cbn [append].
    + destruct dot; cbn [append]; [auto|].
      destruct ex as [|x r]; [exact I|]. subst x. auto.
    + cbn [forallb_str] in Hip'. apply andb_true_iff in Hip' as [Hd _]. auto.
Qed.

(** [Number(s) || 0] for a value read as [fin w] or its opposite. *)
Lemma or_else_zero_value (neg : bool) (w : Q) :
  exists y,
    or_else (if neg then nneg (fin w) else fin w) zero = Fin y
    /\ (y == if neg then - w else w)%Q.
Proof.
  assert (G : forall u, exists y, or_else (fin u) zero = Fin y /\ (y == u)%Q).
  { intros u. unfold or_else, fin, truthy.
    destruct (Qeq_bool (Qred u) 0) eqn:E; cbn [negb].
    - exists 0%Q. split; [reflexivity|].
      apply Qeq_bool_iff in E. rewrite Qred_correct in E. now symmetry.
    - exists (Qred u). split; [reflexivity|apply Qred_correct]. }
  destruct neg.
  - change (nneg (fin w)) with (fin (- Qred w)).
    destruct (G (- Qred w)%Q) as (y & E & V).
    exists y. split; [exact E|]. now rewrite V, Qred_correct.
  - apply G.
Qed.

Lemma numeral_dot_split (neg : bool) (ip fp : string) :
  ((if neg then "-" else "") ++ ip ++ String "." fp)%string
  = (((if neg then "-" else "") ++ ip) ++ String "." fp)%string.
Proof. now rewrite append_assoc. Qed.

Lemma sign_digits_no_dot (neg : bool) (ip : string) :
  forallb_str isDigit ip = true ->
  contains "." ((if neg then "-" else "") ++ ip) = false.
Proof.
  intros H. rewrite contains_app.
  rewrite (contains_forallb "." isDigit ip eq_refl H).
  now destruct neg.
Qed.

(** What [trimTrailingZeros] makes of a printed fixed-notation numeral. *)
Lemma trimTrailingZeros_fixed (neg : bool) (ip fp : string) :
  forallb_str isDigit ip = true -> forallb_str isDigit fp = true ->
  fp <> EmptyString ->
  trimTrailingZeros ((if neg then "-" else "") ++ ip ++ String "." fp)
  = if forallb_str (Ascii.eqb "0") fp
    then numeral neg false ip EmptyString EmptyString
    else numeral neg true ip (strip_trailing_zeros fp) EmptyString.
Proof.
  intros Hip Hfp Hne. unfold trimTrailingZeros.
  pose proof (sign_digits_no_dot neg ip Hip) as Npre.
  assert (Nfp : contains "." fp = false)
    by (eapply contains_forallb; [|exact Hfp]; reflexivity).
  rewrite numeral_dot_split.
  assert (C : contains "." (((if neg then "-" else "") ++ ip) ++ String "." fp) = true).
  { rewrite contains_app. cbn [contains]. rewrite Ascii.eqb_refl.
    cbn [orb]. apply orb_true_r. }
  rewrite C. cbn [negb].
  rewrite (replaceDotZeros_at_dot _ fp Npre Nfp).
  assert (E : isEmpty fp = false) by (destruct fp; [congruence|reflexivity]).
  rewrite E. cbn [negb andb]. unfold numeral.
  destruct (forallb_str (Ascii.eqb "0") fp).
  - rewrite (replaceFractionZeros_no_dot _ Npre).
    cbn [append]. now rewrite !append_nil_r.
  - rewrite (replaceFractionZeros_at_dot _ fp Npre Hfp).
    now rewrite append_nil_r, append_assoc.
Qed.

Lemma close_by_sign (neg : bool) (q y w t tol : Q) :
  (q == if neg then - Qabs q else Qabs q)%Q ->
  (y == if neg then - w else w)%Q ->
  (w == t)%Q ->
  (Qabs (Qabs q - t) <= tol)%Q ->
  (Qabs (q - y) <= tol)%Q.
Proof.
  intros Sq Vy W R.
  apply Qabs_Qle_condition in R. apply Qabs_Qle_condition.
  remember (Qabs q) as a. clear Heqa.
  destruct neg; lra.
Qed.

(** A finite number below 10^21 in magnitude is printed as a token that
    reads back within half a unit of the sixth decimal. *)
Lemma formatFloat_fixed (q : Q) :
  (Qabs q < pow10 21)%Q ->
  exists s y,
    formatFloat (Fin q) 6 = Ok s
    /\ isToken s
    /\ or_else (Number s) zero = Fin y
    /\ (Qabs (q - y) <= 1 # 2000000)%Q.
Proof.
  intros Hq. unfold formatFloat. cbn [Number_isFinite negb].
  unfold toFixed. change ((6 <? 0) || (100 <? 6)) with false. cbv iota.
  assert (B : Qle_bool (pow10 21) (Qabs q) = false).
  { apply not_true_iff_false. rewrite Qle_bool_iff. now apply Qlt_not_le. }
  rewrite B. cbn [bind].
  pose proof (Qabs_nonneg q) as Ha.
  destruct (fixed_digits_spec (Qabs q) Ha) as (ip & fp & E & Hne & Dip & Dfp & Lfp & V).
  rewrite E.
  pose proof (round_half_up (Qabs q) 6 ltac:(lia)) as R. cbv zeta in R.
  rewrite <- V in R.
  set (neg := match (q ?= 0)%Q with Lt => true | _ => false end).
  assert (Sg : match (q ?= 0)%Q with Lt => "-"%string | _ => EmptyString end
               = if neg then "-"%string else EmptyString)
    by (unfold neg; now destruct (q ?= 0)%Q).
  rewrite Sg.
  assert (Sq : (q == if neg then - Qabs q else Qabs q)%Q).
  { unfold neg. destruct (q ?= 0)%Q eqn:C.
    - apply Qeq_alt in C. rewrite Qabs_pos; lra.
    - apply Qlt_alt in C. rewrite Qabs_neg; lra.
    - apply Qgt_alt in C. rewrite Qabs_pos; lra. }
  assert (Nfp : fp <> EmptyString) by (intros ->; discriminate).
  rewrite (trimTrailingZeros_fixed neg ip fp Dip Dfp Nfp).
  destruct (strip_trailing_zeros_spec fp) as (j & Efp & Zfp).
  pose proof (strip_trailing_zeros_digits fp Dfp) as Dst.
  destruct (forallb_str (Ascii.eqb "0") fp) eqn:AZ.
  - destruct (Number_numeral neg false ip EmptyString EmptyString 0
                Hne Dip eq_refl (fun _ => eq_refl) (or_introl (conj eq_refl eq_refl)))
      as (Tok & Num).
    cbv zeta in Num.
    destruct (or_else_zero_value neg
                ((inject_Z (digits_value ip)
                  + inject_Z (digits_value EmptyString) / pow10 (Z.of_nat (String.length EmptyString)))
                 * Qpower 10 0)%Q) as (y & Ey & Vy).
    eexists. exists y. split; [reflexivity|]. split; [exact Tok|].
    split; [rewrite Num; exact Ey|].
    rewrite (all_zero_value fp AZ) in R.
    assert (W : ((inject_Z (digits_value ip)
                  + inject_Z (digits_value EmptyString) / pow10 (Z.of_nat (String.length EmptyString)))
                 * Qpower 10 0
                 == inject_Z (digits_value ip * 10 ^ 6 + 0) / pow10 6)%Q).
    { rewrite Z.add_0_r, inject_Z_mult. change (inject_Z (10 ^ 6)) with (pow10 6).
      change (digits_value EmptyString) with 0.
      cbn [String.length Z.of_nat]. unfold pow10. cbn [Qpower]. field.
      unfold Qeq; cbn; lia. }
    change ((1 # 2) / pow10 6)%Q with (1 # 2000000)%Q in R.
    exact (close_by_sign neg q y _ _ _ Sq Vy W R).
  - assert (Nst : strip_trailing_zeros fp <> EmptyString).
    { intros H. apply Zfp in H. congruence. }
    destruct (Number_numeral neg true ip (strip_trailing_zeros fp) EmptyString 0
                Hne Dip Dst (fun H => ltac:(discriminate)) (or_introl (conj eq_refl eq_refl)))
      as (Tok & Num).
    cbv zeta in Num.
    destruct (or_else_zero_value neg
                ((inject_Z (digits_value ip)
                  + inject_Z (digits_value (strip_trailing_zeros fp))
                    / pow10 (Z.of_nat (String.length (strip_trailing_zeros fp))))
                 * Qpower 10 0)%Q) as (y & Ey & Vy).
    eexists. exists y. split; [reflexivity|]. split; [exact Tok|].
    split; [rewrite Num; exact Ey|].
    assert (Lj : (Z.of_nat (String.length (strip_trailing_zeros fp)) + Z.of_nat j = 6)).
    { pose proof (f_equal String.length Efp) as L.
      rewrite length_append, zeros_length, Lfp in L. lia. }
    assert (Vfp : digits_value fp
                  = digits_value (strip_trailing_zeros fp) * 10 ^ Z.of_nat j).
    { rewrite Efp at 1. rewrite digits_value_app, zeros_length.
      rewrite (all_zero_value (zeros j)) by apply zeros_all_zero. lia. }
    pose proof (decimal_value (digits_value ip) (digits_value (strip_trailing_zeros fp))
                  (Z.of_nat (String.length (strip_trailing_zeros fp))) (Z.of_nat j)
                  ltac:(lia) ltac:(lia)) as DV.
    rewrite Lj, <- Vfp in DV.
    assert (W : ((inject_Z (digits_value ip)
                  + inject_Z (digits_value (strip_trailing_zeros fp))
                    / pow10 (Z.of_nat (String.length (strip_trailing_zeros fp))))
                 * Qpower 10 0
                 == inject_Z (digits_value ip * 10 ^ 6 + digits_value fp) / pow10 6)%Q).
    { rewrite <- DV. cbn [Qpower]. ring. }
    change ((1 # 2) / pow10 6)%Q with (1 # 2000000)%Q in R.
    exact (close_by_sign neg q y _ _ _ Sq Vy W R).
Qed.

(** ** Decimal fractions *)

(** A divisor of a power of ten divides the power of ten whose exponent is
    its binary logarithm. *)
Lemma divide_pow10_log2 (j : nat) :
  forall d, 0 < d -> (d | 10 ^ Z.of_nat j) -> (d | 10 ^ Z.log2 d).
Proof.
  induction j as [|j IH]; intros d Hd Hdiv.
  - cbn in Hdiv. apply Z.divide_1_r_nonneg in Hdiv; [|lia]. subst d.
    cbn. apply Z.divide_refl.
  - rewrite Nat2Z.inj_succ, Z.pow_succ_r in Hdiv by lia.
    destruct (Z.eq_dec (Z.gcd d 10) 1) as [G|G].
    + apply IH; [exact Hd|]. eapply Z.gauss; eassumption.
    + set (g := Z.gcd d 10) in *.
      assert (Hg0 : 0 <= g) by apply Z.gcd_nonneg.
      assert (Hgd : (g | d)) by apply Z.gcd_divide_l.
      assert (Hg10 : (g | 10)) by apply Z.gcd_divide_r.
      assert (Hgnz : g <> 0).
      { intros E. rewrite E in Hg10. destruct Hg10 as [k Hk]. lia. }
      assert (Hg2 : 2 <= g) by lia.
      destruct Hgd as [d' Ed]. destruct Hg10 as [h Eh].
      assert (Hd' : 0 < d') by nia.
      assert (Ed' : d / g = d') by (rewrite Ed; apply Z.div_mul; exact Hgnz).
      assert (Eh' : 10 / g = h) by (rewrite Eh; apply Z.div_mul; exact Hgnz).
      assert (Gc : Z.gcd d' h = 1).
      { rewrite <- Ed', <- Eh'. apply Z.gcd_div_gcd; [exact Hgnz|reflexivity]. }
      assert (D1 : (d' | 10 ^ Z.of_nat j)).
      { apply (Z.gauss d' h); [|exact Gc].
        apply (Z.mul_divide_cancel_l _ _ g Hgnz).
        replace (g * d') with d by lia.
        replace (g * (h * 10 ^ Z.of_nat j)) with (10 * 10 ^ Z.of_nat j)
          by (rewrite Eh at 1; ring).
        exact Hdiv. }
      specialize (IH d' Hd' D1). destruct IH as [k Ek].
      assert (L : Z.log2 d' + 1 <= Z.log2 d).
      { replace (Z.log2 d' + 1) with (Z.succ (Z.log2 d')) by lia.
        rewrite <- Z.log2_double by exact Hd'.
        apply Z.log2_le_mono. nia. }
      pose proof (Z.log2_nonneg d') as N'.
      replace (Z.log2 d) with ((Z.log2 d' + 1) + (Z.log2 d - Z.log2 d' - 1)) by lia.
      rewrite Z.pow_add_r, Z.pow_add_r by lia.
      exists (k * h * 10 ^ (Z.log2 d - Z.log2 d' - 1)).
      rewrite Ek, Ed. change (10 ^ 1) with 10. rewrite Eh at 1. ring.
Qed.

Lemma Qden_Qred_one (x : Q) :
  Qden (Qred x) = 1%positive <-> exists z, (x == inject_Z z)%Q.
Proof.
  split.
  - intros H. exists (Qnum (Qred x)).
    rewrite <- (Qred_correct x) at 1.
    destruct (Qred x) as [n d]. cbn in *. subst d. reflexivity.
  - intros [z E]. rewrite (Qred_complete _ _ E), Qred_inject_Z. reflexivity.
Qed.

(** The reduced denominator of a decimal fraction divides a power of ten. *)
Lemma decimal_den_divides (q : Q) (z j : Z) :
  0 <= j -> (q == inject_Z z / pow10 j)%Q ->
  (Z.pos (Qden (Qred q)) | 10 ^ j).
Proof.
  intros Hj E.
  pose proof (pow10_pos j Hj) as P.
  assert (E' : (Qred q * pow10 j == inject_Z z)%Q).
  { rewrite Qred_correct, E. field. lra. }
  pose proof (gcd_Qred q) as G.
  destruct (Qred q) as [n d]. cbn [Qnum Qden] in *.
  unfold Qeq, pow10, Qmult, inject_Z in E'; cbn [Qnum Qden] in E'.
  rewrite Pos.mul_1_r, Z.mul_1_r in E'.
  apply (Z.gauss (Z.pos d) n).
  - exists z. lia.
  - now rewrite Z.gcd_comm.
Qed.

Lemma scaled_integral (a : Q) (m : Z) :
  0 <= m -> (Z.pos (Qden (Qred a)) | 10 ^ m) ->
  Qden (Qred (a * pow10 m)) = 1%positive.
Proof.
  intros Hm [k Ek]. apply Qden_Qred_one.
  exists (Qnum (Qred a) * k).
  rewrite <- (Qred_correct a) at 1.
  destruct (Qred a) as [n d]. cbn [Qnum Qden] in *.
  unfold Qeq, pow10, Qmult, inject_Z; cbn [Qnum Qden].
  rewrite Pos.mul_1_r, Ek. ring.
Qed.

Lemma find_scale_sound (fuel : nat) (a : Q) :
  forall m0 m,
    find_scale fuel a m0 = Some m ->
    m0 <= m /\ Qden (Qred (a * pow10 m)) = 1%positive.
Proof.
  induction fuel as [|fuel IH]; intros m0 m; cbn [find_scale];
    destruct (Pos.eqb_spec (Qden (Qred (a * pow10 m0))) 1) as [E|E].
  - intros [= <-]. split; [lia|exact E].
  - discriminate.
  - intros [= <-]. split; [lia|exact E].
  - intros H. apply IH in H. split; [lia|tauto].
Qed.

Lemma find_scale_complete (fuel : nat) (a : Q) :
  forall m0 m,
    m0 <= m <= m0 + Z.of_nat fuel ->
    Qden (Qred (a * pow10 m)) = 1%positive ->
    exists m', find_scale fuel a m0 = Some m'.
Proof.
  induction fuel as [|fuel IH]; intros m0 m Hm Hd; cbn [find_scale];
    destruct (Pos.eqb_spec (Qden (Qred (a * pow10 m0))) 1) as [E|E]; eauto.
  - assert (m = m0) by lia. congruence.
  - destruct (Z.eq_dec m m0) as [->|N]; [congruence|].
    apply (IH (m0 + 1) m); [lia|exact Hd].
Qed.

(** For a decimal fraction the search of [toString_large] finds a scale. *)
Lemma find_scale_decimal (a : Q) (z j : Z) :
  0 <= j -> (a == inject_Z z / pow10 j)%Q ->
  exists m,
    find_scale (Z.to_nat (Z.log2 (Z.pos (Qden (Qred a))))) a 0 = Some m
    /\ 0 <= m /\ (a * pow10 m == inject_Z (Qnum (Qred (a * pow10 m))))%Q.
Proof.
  intros Hj E.
  pose proof (decimal_den_divides a z j Hj E) as D.
  rewrite <- (Z2Nat.id j Hj) in D.
  apply divide_pow10_log2 in D; [|lia].
  pose proof (Z.log2_nonneg (Z.pos (Qden (Qred a)))) as L.
  destruct (find_scale_complete (Z.to_nat (Z.log2 (Z.pos (Qden (Qred a))))) a 0
              (Z.log2 (Z.pos (Qden (Qred a)))))
    as (m & F); [lia|now apply scaled_integral|].
  exists m. split; [exact F|].
  apply find_scale_sound in F as [F1 F2]. split; [exact F1|].
  rewrite <- (Qred_correct (a * pow10 m)) at 1.
  destruct (Qred (a * pow10 m)) as [n d]. cbn [Qnum Qden] in *. subst d.
  reflexivity.
Qed.

Lemma digits_value_lt (s : string) :
  forallb_str isDigit s = true ->
  digits_value s < 10 ^ Z.of_nat (String.length s).
Proof.
  induction s as [|c s IH]; cbn [forallb_str String.length]; intros E.
  - cbn. lia.
  - apply andb_true_iff in E as [E1 E2]. specialize (IH E2).
    rewrite digits_value_cons, Nat2Z.inj_succ, Z.pow_succ_r by lia.
    assert (decimal_val c <= 9) by (unfold isDigit, decimal_val in *; lia).
    assert (0 <= 10 ^ Z.of_nat (String.length s)) by (apply Z.pow_nonneg; lia).
    nia.
Qed.

Lemma Qpower_pow10 (e : Z) : 0 <= e -> (Qpower 10 e == pow10 e)%Q.
Proof.
  intros H. unfold pow10. rewrite Zpower_Qpower by exact H. reflexivity.
Qed.

(** The exponent notation of a decimal fraction [a >= 10^21] denotes [a]. *)
Lemma toString_large_spec (a : Q) (z j : Z) :
  0 <= j -> (a == inject_Z z / pow10 j)%Q -> (pow10 21 <= a)%Q ->
  exists dot ip fp ex e,
    toString_large a = numeral false dot ip fp ex
    /\ ip <> EmptyString
    /\ forallb_str isDigit ip = true
    /\ forallb_str isDigit fp = true
    /\ (dot = false -> fp = EmptyString)
    /\ exponentPart ex e
    /\ ex <> EmptyString
    /\ ((inject_Z (digits_value ip)
         + inject_Z (digits_value fp) / pow10 (Z.of_nat (String.length fp)))
        * Qpower 10 e == a)%Q.
Proof.
  intros Hj Ea Hbig. unfold toString_large.
  destruct (find_scale_decimal a z j Hj Ea) as (m & F & Hm & Em).
  rewrite F.
  set (i := Qnum (Qred (a * pow10 m))) in *.
  pose proof (pow10_pos m Hm) as Pm.
  assert (Hi : 10 ^ (21 + m) <= i).
  { rewrite Zle_Qle, <- Em.
    change (inject_Z (10 ^ (21 + m))) with (pow10 (21 + m)).
    rewrite pow10_add by lia.
    apply Qmult_le_compat_r; [exact Hbig|lra]. }
  assert (Hi0 : 0 < i).
  { pose proof (Z.pow_pos_nonneg 10 (21 + m) ltac:(lia) ltac:(lia)). lia. }
  destruct (Z_to_digits_spec i ltac:(lia)) as (Dd & Vd & Nd).
  pose proof (digits_value_lt _ Dd) as Ld. rewrite Vd in Ld.
  assert (He : 21 <= Z.of_nat (String.length (Z_to_digits i)) - m - 1).
  { assert (21 + m < Z.of_nat (String.length (Z_to_digits i))); [|lia].
    apply (Z.pow_lt_mono_r_iff 10); lia. }
  set (e := Z.of_nat (String.length (Z_to_digits i)) - m - 1) in *.
  destruct (Z_to_digits_spec e ltac:(lia)) as (De & Ve & Ne).
  destruct (strip_trailing_zeros_spec (Z_to_digits i)) as (t & Es & Zs).
  pose proof (strip_trailing_zeros_digits _ Dd) as Ds.
  assert (Ns : strip_trailing_zeros (Z_to_digits i) <> EmptyString).
  { intros H. apply Zs in H. apply all_zero_value in H. lia. }
  assert (Vi : i = digits_value (strip_trailing_zeros (Z_to_digits i))
                   * 10 ^ Z.of_nat t).
  { rewrite <- Vd at 1. rewrite Es at 1.
    rewrite digits_value_app, zeros_length.
    rewrite (all_zero_value (zeros t)) by apply zeros_all_zero. lia. }
  assert (Li : Z.of_nat (String.length (Z_to_digits i))
               = Z.of_nat (String.length (strip_trailing_zeros (Z_to_digits i)))
                 + Z.of_nat t).
  { rewrite Es at 1. rewrite length_append, zeros_length. lia. }
  destruct (strip_trailing_zeros (Z_to_digits i)) as [|d1 rest] eqn:St;
    [congruence|].
  cbn [forallb_str] in Ds. apply andb_true_iff in Ds as [Dd1 Drest].
  rewrite digits_value_cons in Vi. cbn [String.length] in Li.
  set (ex := String "e" (String "+" (Z_to_digits e))).
  assert (Hex : exponentPart ex e).
  { right. exists (Z_to_digits e). repeat split; try assumption. now symmetry. }
  assert (Val : ((inject_Z (digits_value (String d1 EmptyString))
                  + inject_Z (digits_value rest) / pow10 (Z.of_nat (String.length rest)))
                 * Qpower 10 e == a)%Q).
  { rewrite Qpower_pow10 by lia.
    change (digits_value (String d1 EmptyString)) with (decimal_val d1).
    pose proof (pow10_pos (Z.of_nat (String.length rest)) ltac:(lia)) as Pr.
    pose proof (pow10_pos (Z.of_nat t) ltac:(lia)) as Pt.
    apply (Qmult_inj_r _ _ (pow10 m)); [lra|].
    rewrite Em, Vi, inject_Z_mult, inject_Z_plus, inject_Z_mult.
    change (inject_Z (10 ^ Z.of_nat t)) with (pow10 (Z.of_nat t)).
    change (inject_Z (10 ^ Z.of_nat (String.length rest)))
      with (pow10 (Z.of_nat (String.length rest))).
    assert (Ep : (pow10 e * pow10 m
                  == pow10 (Z.of_nat (String.length rest)) * pow10 (Z.of_nat t))%Q).
    { rewrite <- !pow10_add by lia.
      replace (e + m) with (Z.of_nat (String.length rest) + Z.of_nat t)
        by (unfold e; lia).
      reflexivity. }
    rewrite <- Qmult_assoc, Ep. field. lra. }
  destruct rest as [|d2 rest'].
  - exists false, (String d1 EmptyString), EmptyString, ex, e.
    split; [reflexivity|]. split; [discriminate|].
    split; [cbn [forallb_str]; now rewrite Dd1|].
    split; [reflexivity|]. split; [reflexivity|].
    split; [exact Hex|]. split; [discriminate|exact Val].
  - exists true, (String d1 EmptyString), (String d2 rest'), ex, e.
    split.
    { reflexivity. }
    split; [discriminate|].
    split; [cbn [forallb_str]; now rewrite Dd1|].
    split; [exact Drest|]. split; [discriminate|].
    split; [exact Hex|]. split; [discriminate|exact Val].
Qed.

Lemma replaceFractionZeros_keep (pre suf : string) :
  contains "." pre = false -> contains "." suf = false ->
  forallb_str isDigit suf = false ->
  replaceFractionZeros (pre ++ String "." suf) = (pre ++ String "." suf)%string.
Proof.
  intros Hpre Hsuf Hd.
  induction pre as [|c pre IH]; cbn [append replaceFractionZeros].
  - rewrite Ascii.eqb_refl, Hd. cbn [andb].
    now rewrite replaceFractionZeros_no_dot.
  - cbn [contains] in Hpre. apply orb_false_iff in Hpre as [H1 H2].
    rewrite H1. cbn [andb]. now rewrite (IH H2).
Qed.

(** [trimTrailingZeros] leaves a numeral in exponent notation as it is. *)
Lemma trimTrailingZeros_exponent (neg dot : bool) (ip fp ds : string) :
  forallb_str isDigit ip = true -> forallb_str isDigit fp = true ->
  forallb_str isDigit ds = true ->
  (dot = false -> fp = EmptyString) ->
  trimTrailingZeros (numeral neg dot ip fp (String "e" (String "+" ds)))
  = numeral neg dot ip fp (String "e" (String "+" ds)).
Proof.
  intros Hip Hfp Hds Hdot. unfold trimTrailingZeros, numeral.
  pose proof (sign_digits_no_dot neg ip Hip) as Npre.
  assert (Nfp : contains "." fp = false)
    by (eapply contains_forallb; [|exact Hfp]; reflexivity).
  assert (Nds : contains "." ds = false)
    by (eapply contains_forallb; [|exact Hds]; reflexivity).
  assert (Nex : contains "." (String "e" (String "+" ds)) = false)
    by (cbn [contains]; now rewrite Nds).
  destruct dot.
  - change (String "." fp ++ String "e" (String "+" ds))%string
      with (String "." (fp ++ String "e" (String "+" ds)))%string.
    rewrite <- append_assoc.
    assert (Nsuf : contains "." (fp ++ String "e" (String "+" ds)) = false)
      by now rewrite contains_app, Nfp, Nex.
    assert (C : contains "."
                  (((if neg then "-" else "") ++ ip)
                   ++ String "." (fp ++ String "e" (String "+" ds))) = true).
    { rewrite contains_app. cbn [contains]. rewrite Ascii.eqb_refl.
      cbn [orb]. apply orb_true_r. }
    rewrite C. cbn [negb].
    rewrite (replaceDotZeros_at_dot _ _ Npre Nsuf).
    assert (Z0 : forallb_str (Ascii.eqb "0") (fp ++ String "e" (String "+" ds)) = false).
    { rewrite forallb_str_app. cbn [forallb_str].
      change (Ascii.eqb "0" "e") with false. cbn [andb]. apply andb_false_r. }
    rewrite Z0, andb_false_r.
    apply replaceFractionZeros_keep; [exact Npre|exact Nsuf|].
    rewrite forallb_str_app. cbn [forallb_str].
    change (isDigit "e") with false. cbn [andb]. apply andb_false_r.
  - cbn [append].
    assert (C : contains "."
                  ((if neg then "-" else "") ++ ip ++ String "e" (String "+" ds)) = false).
    { rewrite <- append_assoc, contains_app, Npre, Nex. reflexivity. }
    now rewrite C.
Qed.

(** A decimal fraction of magnitude 10^21 or more is printed as a token
    that reads back as the same number. *)
Lemma formatFloat_large (q : Q) (z j : Z) :
  0 <= j -> (q == inject_Z z / pow10 j)%Q -> (pow10 21 <= Qabs q)%Q ->
  exists s y,
    formatFloat (Fin q) 6 = Ok s
    /\ isToken s
    /\ or_else (Number s) zero = Fin y
    /\ (Qabs (q - y) <= 1 # 2000000)%Q.
Proof.
  intros Hj Eq Hbig. unfold formatFloat. cbn [Number_isFinite negb].
  unfold toFixed. change ((6 <? 0) || (100 <? 6)) with false. cbv iota.
  assert (B : Qle_bool (pow10 21) (Qabs q) = true) by now apply Qle_bool_iff.
  rewrite B. cbn [bind].
  set (neg := match (q ?= 0)%Q with Lt => true | _ => false end).
  assert (Sg : match (q ?= 0)%Q with Lt => "-"%string | _ => EmptyString end
               = if neg then "-"%string else EmptyString)
    by (unfold neg; now destruct (q ?= 0)%Q).
  rewrite Sg.
  assert (Sq : (q == if neg then - Qabs q else Qabs q)%Q).
  { unfold neg. destruct (q ?= 0)%Q eqn:C.
    - apply Qeq_alt in C. rewrite Qabs_pos; lra.
    - apply Qlt_alt in C. rewrite Qabs_neg; lra.
    - apply Qgt_alt in C. rewrite Qabs_pos; lra. }
  assert (Ea : exists z', (Qabs q == inject_Z z' / pow10 j)%Q).
  { pose proof (pow10_pos j Hj) as P.
    destruct (Qlt_le_dec q 0) as [L|L].
    - exists (- z). rewrite Qabs_neg by lra. rewrite Eq, inject_Z_opp. field. lra.
    - exists z. rewrite Qabs_pos by lra. exact Eq. }
  destruct Ea as (z' & Ea).
  destruct (toString_large_spec (Qabs q) z' j Hj Ea Hbig)
    as (dot & ip & fp & ex & e & Es & Hne & Dip & Dfp & Hdot & Hex & Nex & Val).
  rewrite Es.
  change ((if neg then "-" else "") ++ numeral false dot ip fp ex)%string
    with (numeral neg dot ip fp ex).
  destruct (Number_numeral neg dot ip fp ex e Hne Dip Dfp Hdot Hex) as (Tok & Num).
  cbv zeta in Num.
  destruct Hex as [[-> _]|(ds & -> & Nds & Dds & ->)]; [congruence|].
  rewrite (trimTrailingZeros_exponent neg dot ip fp ds Dip Dfp Dds Hdot).
  destruct (or_else_zero_value neg
              ((inject_Z (digits_value ip)
                + inject_Z (digits_value fp) / pow10 (Z.of_nat (String.length fp)))
               * Qpower 10 (digits_value ds))%Q) as (y & Ey & Vy).
  eexists. exists y. split; [reflexivity|]. split; [exact Tok|].
  split; [rewrite Num; exact Ey|].
  apply (close_by_sign neg q y _ (Qabs q) _ Sq Vy Val).
  assert (E0 : (Qabs q - Qabs q == 0)%Q) by ring.
  rewrite E0. cbn. lra.
Qed.

(** ** Printed lines *)

Lemma within_of_abs (q y : Q) :
  (Qabs (q - y) <= 1 # 2000000)%Q -> within tolerance (Fin q) (Fin y).
Proof.
  intros H. unfold within, tolerance. cbn [nsub]. unfold fin. cbn [Math_abs].
  unfold fin. apply nle_Fin.
  rewrite Qred_correct. 
  assert (E : (Qabs (Qred (q - y)) == Qabs (q - y))%Q)
    by (apply Qabs_wd, Qred_correct).
  rewrite E. eapply Qle_trans; [exact H|]. unfold Qle; cbn; lia.
Qed.

(** Every finite decimal fraction is printed as a token that reads back
    within the tolerance. *)
Lemma formatFloat_roundtrip (x : num) :
  isFinite x -> decimalNum x ->
  exists s y,
    formatFloat x 6 = Ok s /\ isToken s
    /\ or_else (Number s) zero = Fin y
    /\ within tolerance x (Fin y).
Proof.
  destruct x as [| | |q]; try discriminate.
  intros _ (z & j & Hj & E).
  destruct (Qlt_le_dec (Qabs q) (pow10 21)) as [L|L].
  - destruct (formatFloat_fixed q L) as (s & y & F & T & N & C).
    exists s, y. repeat split; try assumption; try apply T.
    now apply within_of_abs.
  - destruct (formatFloat_large q z j Hj E L) as (s & y & F & T & N & C).
    exists s, y. repeat split; try assumption; try apply T.
    now apply within_of_abs.
Qed.

Lemma formatFloat_token (x : num) :
  decimalNum x -> exists s, formatFloat x 6 = Ok s /\ isToken s.
Proof.
  destruct x as [| | |q]; cbn [decimalNum]; try contradiction.
  - intros _. exists "0"%string. split; [reflexivity|]. split; [discriminate|reflexivity].
  - intros _. exists "0"%string. split; [reflexivity|]. split; [discriminate|reflexivity].
  - intros H.
    destruct (formatFloat_roundtrip (Fin q) eq_refl H) as (s & y & F & T & _).
    eauto.
Qed.

Lemma token_no_LF (tok : string) : isToken tok -> contains LF tok = false.
Proof.
  intros [_ H]. eapply contains_forallb; [|exact H]. reflexivity.
Qed.

Lemma dropCR_token (pre tok : string) :
  isToken tok -> dropCR (pre ++ tok) = (pre ++ tok)%string.
Proof.
  intros [Hne Hws].
  assert (T : dropCR tok = tok).
  { induction tok as [|c t IH]; [congruence|].
    cbn [forallb_str] in Hws. apply andb_true_iff in Hws as [H1 H2].
    cbn [dropCR]. destruct t as [|d t'].
    - destruct (Ascii.eqb_spec c CR) as [->|]; [discriminate|reflexivity].
    - now rewrite (IH ltac:(discriminate) H2). }
  induction pre as [|c pre IH]; cbn [append]; [exact T|].
  cbn [dropCR]. rewrite IH.
  destruct (pre ++ tok)%string eqn:E; [|reflexivity].
  destruct pre; cbn [append] in E; [congruence|discriminate].
Qed.

Lemma plainLine_token_end (pre tok : string) :
  contains LF pre = false -> isToken tok -> plainLine (pre ++ tok).
Proof.
  intros Hpre Htok. split.
  - now rewrite contains_app, Hpre, token_no_LF.
  - now apply dropCR_token.
Qed.

Lemma triple_no_LF (x y z : string) :
  isToken x -> isToken y -> isToken z ->
  contains LF (x ++ String " " (y ++ String " " EmptyString)) = false.
Proof.
  intros Hx Hy Hz.
  rewrite contains_app, (token_no_LF x Hx). cbn [contains orb].
  change (Ascii.eqb " " LF) with false. cbn [orb].
  rewrite contains_app, (token_no_LF y Hy). reflexivity.
Qed.

Lemma triple_split (x y z : string) :
  triple x y z = ((x ++ String " " (y ++ String " " EmptyString)) ++ z)%string.
Proof.
  unfold triple. rewrite append_assoc. cbn [append]. f_equal. f_equal.
  rewrite append_assoc. reflexivity.
Qed.

(** The vertex line printed for three tokens, and what the decoder reads
    from it. *)
Lemma vertex_line (x y z : string) :
  isToken x -> isToken y -> isToken z ->
  let l := ("      vertex " ++ triple x y z)%string in
  isVertexLine l = true
  /\ vertexOfLine l
     = (or_else (Number x) zero, or_else (Number y) zero, or_else (Number z) zero)
  /\ plainLine l.
Proof.
  intros Hx Hy Hz l.
  assert (Tr : trim l = ("vertex " ++ triple x y z)%string).
  { unfold l, trim. cbn [append trimStart].
    change (isWhiteSpace " ") with true. cbv iota.
    change (isWhiteSpace "v") with false. cbv iota.
    change (String "v" (String "e" (String "r" (String "t" (String "e"
              (String "x" (String " " (triple x y z))))))))
      with ("vertex " ++ triple x y z)%string.
    rewrite triple_split, <- append_assoc. now apply trimEnd_token. }
  split; [|split].
  - unfold isVertexLine. rewrite Tr. reflexivity.
  - unfold vertexOfLine. rewrite Tr.
    change ("vertex " ++ triple x y z)%string
      with ("vertex" ++ String " " (triple x y z))%string.
    unfold split_ws.
    rewrite split_ws_token_space by (split; [discriminate|reflexivity]).
    unfold triple.
    rewrite (split_ws_token_space true x _ Hx).
    rewrite (split_ws_token_space true y _ Hy).
    rewrite (split_ws_token_end true z Hz).
    reflexivity.
  - unfold l. rewrite triple_split, <- append_assoc.
    apply plainLine_token_end; [|exact Hz].
    rewrite contains_app. rewrite (triple_no_LF x y z Hx Hy Hz).
    reflexivity.
Qed.

(** The facet line printed for three tokens. *)
Lemma facet_line (x y z : string) :
  isToken x -> isToken y -> isToken z ->
  let l := ("  facet normal " ++ triple x y z)%string in
  isFacetLine l = true /\ plainLine l.
Proof.
  intros Hx Hy Hz l.
  assert (Tr : trim l = ("facet normal " ++ triple x y z)%string).
  { unfold l, trim. cbn [append trimStart].
    change (isWhiteSpace " ") with true. cbv iota.
    change (isWhiteSpace "f") with false. cbv iota.
    change (String "f" (String "a" (String "c" (String "e" (String "t"
              (String " " (String "n" (String "o" (String "r" (String "m"
              (String "a" (String "l" (String " " (triple x y z))))))))))))))
      with ("facet normal " ++ triple x y z)%string.
    rewrite triple_split, <- append_assoc. now apply trimEnd_token. }
  split.
  - unfold isFacetLine. rewrite Tr. reflexivity.
  - unfold l. rewrite triple_split, <- append_assoc.
    apply plainLine_token_end; [|exact Hz].
    rewrite contains_app. rewrite (triple_no_LF x y z Hx Hy Hz).
    reflexivity.
Qed.

(** *** Joining lines and splitting them again *)

Lemma replace_crlf_two (c1 c2 : ascii) (r : string) :
  replace_crlf (String c1 (String c2 r))
  = if Ascii.eqb c1 CR && Ascii.eqb c2 LF then String LF (replace_crlf r)
    else String c1 (replace_crlf (String c2 r)).
Proof. reflexivity. Qed.

Lemma replace_crlf_no_LF (l : string) :
  contains LF l = false -> replace_crlf l = l.
Proof.
  induction l as [|c l IH]; [reflexivity|].
  cbn [contains]. intros H. apply orb_false_iff in H as [H1 H2].
  destruct l as [|d l']; [reflexivity|].
  cbn [contains] in H2. apply orb_false_iff in H2 as [H3 H4].
  rewrite replace_crlf_two, H3, andb_false_r. f_equal. apply IH.
  cbn [contains]. now rewrite H3, H4.
Qed.

Lemma replace_crlf_LF (r : string) :
  replace_crlf (String LF r) = String LF (replace_crlf r).
Proof.
  cbn [replace_crlf]. destruct r as [|c r']; [reflexivity|].
  change (Ascii.eqb LF CR) with false. reflexivity.
Qed.

Lemma replace_crlf_line (l r : string) :
  contains LF l = false ->
  replace_crlf (l ++ String LF r) = (dropCR l ++ String LF (replace_crlf r))%string.
Proof.
  induction l as [|c l IH]; intros H.
  - cbn [append dropCR]. apply replace_crlf_LF.
  - cbn [contains] in H. apply orb_false_iff in H as [H1 H2].
    destruct l as [|d l'].
    + cbn [append dropCR replace_crlf].
      rewrite Ascii.eqb_refl, andb_true_r.
      destruct (Ascii.eqb c CR); [reflexivity|].
      cbn [append]. f_equal. apply replace_crlf_LF.
    + cbn [contains] in H2. apply orb_false_iff in H2 as [H3 H4].
      change (String c (String d l') ++ String LF r)%string
        with (String c (String d (l' ++ String LF r))).
      rewrite replace_crlf_two, H3, andb_false_r.
      change (String d (l' ++ String LF r)) with (String d l' ++ String LF r)%string.
      rewrite IH by (cbn [contains]; now rewrite H3, H4).
      reflexivity.
Qed.

Lemma split_on_no_LF (a : string) :
  contains LF a = false -> split_on LF a = [a].
Proof.
  induction a as [|c a IH]; [reflexivity|].
  cbn [contains]. intros H. apply orb_false_iff in H as [H1 H2].
  cbn [split_on]. rewrite H1, (IH H2). reflexivity.
Qed.

Lemma split_on_line (a s : string) :
  contains LF a = false ->
  split_on LF (a ++ String LF s) = a :: split_on LF s.
Proof.
  induction a as [|c a IH]; intros H.
  - cbn [append split_on]. now rewrite Ascii.eqb_refl.
  - cbn [contains] in H. apply orb_false_iff in H as [H1 H2].
    cbn [append split_on]. rewrite H1, (IH H2). reflexivity.
Qed.

Lemma dropCR_no_LF (l : string) :
  contains LF l = false -> contains LF (dropCR l) = false.
Proof.
  induction l as [|c l IH]; [reflexivity|].
  cbn [contains]. intros H. apply orb_false_iff in H as [H1 H2].
  cbn [dropCR]. destruct l as [|d l'].
  - destruct (Ascii.eqb c CR); [reflexivity|]. cbn [contains]. now rewrite H1.
  - cbn [contains]. rewrite H1. cbn [orb]. apply IH. exact H2.
Qed.

(** The lines of a joined text: each line but the last loses a final
    carriage return. *)
Lemma linesOf_join (lines : list string) :
  lines <> [] ->
  Forall (fun l => contains LF l = false) lines ->
  linesOf (join (String LF EmptyString) lines)
  = map dropCR (removelast lines) ++ [last lines EmptyString].
Proof.
  intros Hne H. induction H as [|l rest Hl Hrest IH]; [congruence|].
  destruct rest as [|l2 rest'].
  - cbn [join String.concat removelast last map app]. unfold linesOf.
    rewrite (replace_crlf_no_LF l Hl). now apply split_on_no_LF.
  - specialize (IH ltac:(discriminate)).
    change (join (String LF EmptyString) (l :: l2 :: rest'))
      with (l ++ String LF (join (String LF EmptyString) (l2 :: rest')))%string.
    unfold linesOf in *.
    rewrite (replace_crlf_line l _ Hl).
    rewrite (split_on_line _ _ (dropCR_no_LF l Hl)).
    rewrite IH. reflexivity.
Qed.

(** *** Indexes shift with a prefix *)

Lemma skipn_app_shift {A} (pre rest : list A) (i : nat) :
  skipn (length pre + i) (pre ++ rest) = skipn i rest.
Proof.
  induction pre as [|x pre IH]; [reflexivity|]. exact IH.
Qed.

Lemma scanTo_shift (tok : string) (rest : list string) (n i : nat) :
  scanTo tok rest (n + i) = (n + scanTo tok rest i)%nat.
Proof.
  revert i. induction rest as [|l rest IH]; intros i; cbn [scanTo]; [reflexivity|].
  destruct (startsWith (trim l) tok); [reflexivity|].
  rewrite <- IH. f_equal. lia.
Qed.

Lemma skipUntil_shift (tok : string) (pre rest : list string) (i : nat) :
  skipUntil tok (pre ++ rest) (length pre + i)
  = (length pre + skipUntil tok rest i)%nat.
Proof.
  unfold skipUntil. rewrite skipn_app_shift. apply scanTo_shift.
Qed.

Lemma readVertices_shift (k : nat) (rest : list string) (n i : nat) :
  readVertices k rest (n + i)
  = (fst (readVertices k rest i), (n + snd (readVertices k rest i))%nat).
Proof.
  revert rest i. induction k as [|k IH]; intros rest i; cbn [readVertices].
  - reflexivity.
  - destruct rest as [|l rest]; [reflexivity|].
    destruct (negb _); [reflexivity|].
    replace (S (n + i)) with (n + S i)%nat by lia. rewrite IH.
    destruct (readVertices k rest (S i)) as [vs j]. reflexivity.
Qed.

Lemma parseFacet_shift (pre rest : list string) (i : nat) :
  parseFacet (pre ++ rest) (length pre + i)
  = (fst (parseFacet rest i), (length pre + snd (parseFacet rest i))%nat).
Proof.
  unfold parseFacet, lineAt.
  rewrite app_nth2_plus.
  replace (S (length pre + i)) with (length pre + S i)%nat by lia.
  rewrite skipUntil_shift.
  set (j := skipUntil "outer loop" rest (S i)).
  replace (S (length pre + j)) with (length pre + S j)%nat by lia.
  rewrite skipn_app_shift, readVertices_shift.
  destruct (readVertices 3 (skipn (S j) rest) (S j)) as [verts e].
  cbn [fst snd]. rewrite skipUntil_shift.
  destruct verts as [|v0 [|v1 [|v2 [|v3 vs]]]]; reflexivity.
Qed.

Lemma parseLoop_shift (pre rest : list string) (fuel : nat) :
  forall i acc,
    parseLoop fuel (pre ++ rest) (length pre + i) acc = parseLoop fuel rest i acc.
Proof.
  induction fuel as [|fuel IH]; intros i acc; cbn [parseLoop];
    rewrite length_app;
    destruct (Nat.ltb_spec (length pre + i) (length pre + length rest));
    destruct (Nat.ltb_spec i (length rest)); try lia; try reflexivity.
  unfold lineAt. rewrite app_nth2_plus.
  destruct (startsWith (trim (nth i rest EmptyString)) "facet normal").
  - rewrite parseFacet_shift. destruct (parseFacet rest i) as [t j].
    cbn [fst snd].
    replace (S (length pre + j)) with (length pre + S j)%nat by lia.
    apply IH.
  - replace (S (length pre + i)) with (length pre + S i)%nat by lia.
    apply IH.
Qed.

(** ** Decoded numbers are decimal fractions *)

Lemma decimalQ_Qeq (p q : Q) : (p == q)%Q -> decimalQ p -> decimalQ q.
Proof.
  intros E (z & j & Hj & H). exists z, j. split; [exact Hj|]. now rewrite <- E.
Qed.

Lemma decimalQ_int (z : Z) : decimalQ (inject_Z z).
Proof.
  exists z, 0. split; [lia|]. unfold pow10. cbn. field.
Qed.

Lemma decimalQ_opp (q : Q) : decimalQ q -> decimalQ (- q).
Proof.
  intros (z & j & Hj & H). exists (- z), j. split; [exact Hj|].
  pose proof (pow10_pos j Hj). rewrite H, inject_Z_opp. field. lra.
Qed.

Lemma decimalQ_literal (ipv fpv len e : Z) :
  0 <= len ->
  decimalQ ((inject_Z ipv + inject_Z fpv / pow10 len) * Qpower 10 e).
Proof.
  intros Hl. pose proof (pow10_pos len Hl) as Pl.
  destruct (Z.le_gt_cases 0 e) as [He|He].
  - exists ((ipv * 10 ^ len + fpv) * 10 ^ e), len. split; [exact Hl|].
    rewrite Qpower_pow10 by exact He.
    rewrite inject_Z_mult, inject_Z_plus, inject_Z_mult.
    change (inject_Z (10 ^ len)) with (pow10 len).
    change (inject_Z (10 ^ e)) with (pow10 e).
    field. lra.
  - exists (ipv * 10 ^ len + fpv), (len + - e). split; [lia|].
    pose proof (pow10_pos (- e) ltac:(lia)) as Pe.
    replace e with (- - e) at 1 by lia.
    rewrite Qpower_opp, Qpower_pow10 by lia.
    rewrite pow10_add by lia.
    rewrite inject_Z_plus, inject_Z_mult.
    change (inject_Z (10 ^ len)) with (pow10 len).
    field. split; lra.
Qed.

Lemma parse_unsigned_decimal (r : string) (q : Q) :
  parse_unsigned r = Fin q -> decimalQ q.
Proof.
  unfold parse_unsigned.
  destruct (String.eqb r "Infinity"); [discriminate|].
  destruct (span isDigit r) as [ip r1].
  destruct (match r1 with
            | String "."%char r0 => span isDigit r0
            | _ => (EmptyString, r1)
            end) as [fp r2].
  destruct (isEmpty ip && isEmpty fp); [discriminate|].
  destruct (parse_exponent r2) as [e|]; [|discriminate].
  intros H. apply fin_inv in H.
  eapply decimalQ_Qeq; [symmetry; exact H|].
  apply decimalQ_literal. lia.
Qed.

Lemma parse_radix_decimal (radix : Z) (isd : ascii -> bool) (val : ascii -> Z)
    (r : string) (q : Q) :
  parse_radix radix isd val r = Fin q -> decimalQ q.
Proof.
  unfold parse_radix. destruct (_ && _); [|discriminate].
  unfold ofZ. intros [= <-]. apply decimalQ_int.
Qed.

Lemma nneg_decimal (n : num) (q : Q) :
  (forall p, n = Fin p -> decimalQ p) -> nneg n = Fin q -> decimalQ q.
Proof.
  intros H. destruct n as [| | |p]; cbn [nneg]; try discriminate.
  intros E. apply fin_inv in E.
  eapply decimalQ_Qeq; [symmetry; exact E|].
  apply decimalQ_opp. now apply H.
Qed.

Lemma Number_decimal (s : string) (q : Q) : Number s = Fin q -> decimalQ q.
Proof.
  unfold Number.
  assert (U : forall r, parse_unsigned r = Fin q -> decimalQ q)
    by (intros r; apply parse_unsigned_decimal).
  assert (N : forall r, nneg (parse_unsigned r) = Fin q -> decimalQ q)
    by (intros r; apply nneg_decimal; intros p; apply parse_unsigned_decimal).
  assert (R : forall radix isd val r,
             parse_radix radix isd val r = Fin q -> decimalQ q)
    by (intros; eapply parse_radix_decimal; eassumption).
  assert (Z0 : zero = Fin q -> decimalQ q)
    by (intros [= <-]; apply (decimalQ_int 0)).
  destruct (trim s) as [|c t]; [exact Z0|].
  destruct c as [[] [] [] [] [] [] [] []]; try apply U; try apply N.
  destruct t as [|d t']; [apply U|].
  destruct d as [[] [] [] [] [] [] [] []]; try apply U; apply R.
Qed.

Lemma orZero_decimal (o : option num) :
  (forall n, o = Some n -> exists s, n = Number s) ->
  decimalNum (orZero o).
Proof.
  intros H. destruct o as [n|]; cbn [orZero]; [|apply (decimalQ_int 0)].
  destruct (H n eq_refl) as (s & ->).
  unfold or_else. destruct (truthy (Number s)) eqn:T; [|apply (decimalQ_int 0)].
  destruct (Number s) as [| | |q] eqn:E; cbn [decimalNum]; try exact I.
  - discriminate.
  - eapply Number_decimal; eassumption.
Qed.

Lemma vec3Of_decimal (l : list string) : decimalVec (vec3Of (map Number l)).
Proof.
  assert (G : forall k, decimalNum (orZero (nth_error (map Number l) k))).
  { intros k. apply orZero_decimal. intros n Hn.
    rewrite nth_error_map in Hn.
    destruct (nth_error l k) as [s|]; [|discriminate].
    exists s. now injection Hn as <-. }
  intros [|[|i]]; apply G.
Qed.

Lemma parseFacet_decimal (lines : list string) (i : nat) (t : Triangle) :
  fst (parseFacet lines i) = Some t -> decimalTriangle t.
Proof.
  intros H. pose proof (parseFacet_spec lines i) as Spec. cbv zeta in Spec.
  destruct (_ && _ && _).
  - rewrite Spec in H. cbn [fst] in H. injection H as <-.
    unfold decimalTriangle. cbn [vertices normal].
    repeat split; apply vec3Of_decimal.
  - congruence.
Qed.

Lemma parseAsciiStl_decimal (text : string) (m : list Triangle) :
  StlUtils.parseAsciiStl text = Ok m -> Forall decimalTriangle m.
Proof.
  unfold parseAsciiStl. intros H.
  destruct (parseLoop_total (split_on LF (replace_crlf text))
              (length (split_on LF (replace_crlf text))) 0%nat [])
    as (tris & E & Hin); [lia|].
  rewrite E in H. injection H as <-.
  apply Forall_forall. intros t Ht.
  destruct (Hin t Ht) as [[]|(i & _ & _ & P)].
  eapply parseFacet_decimal; eassumption.
Qed.

(** ** Encoding a mesh and decoding it again *)

Lemma formatFloat3_any (v : Vec3) :
  decimalVec v ->
  exists sx sy sz,
    formatFloat3 v 6 = Ok (triple sx sy sz)
    /\ isToken sx /\ isToken sy /\ isToken sz.
Proof.
  destruct v as [[x y] z]. intros H.
  destruct (formatFloat_token x (H 0%nat)) as (sx & Fx & Tx).
  destruct (formatFloat_token y (H 1%nat)) as (sy & Fy & Ty).
  destruct (formatFloat_token z (H 2%nat)) as (sz & Fz & Tz).
  exists sx, sy, sz. unfold formatFloat3. rewrite Fx, Fy, Fz.
  split; [reflexivity|]. split; [exact Tx|]. split; [exact Ty|exact Tz].
Qed.

Lemma formatFloat3_vertex (v : Vec3) :
  finiteVec v -> decimalVec v ->
  exists sx sy sz,
    formatFloat3 v 6 = Ok (triple sx sy sz)
    /\ isToken sx /\ isToken sy /\ isToken sz
    /\ closeVec tolerance v
         (or_else (Number sx) zero, or_else (Number sy) zero,
          or_else (Number sz) zero).
Proof.
  destruct v as [[x y] z]. intros Hf Hd.
  destruct (formatFloat_roundtrip x (Hf 0%nat) (Hd 0%nat)) as (sx & qx & Fx & Tx & Nx & Cx).
  destruct (formatFloat_roundtrip y (Hf 1%nat) (Hd 1%nat)) as (sy & qy & Fy & Ty & Ny & Cy).
  destruct (formatFloat_roundtrip z (Hf 2%nat) (Hd 2%nat)) as (sz & qz & Fz & Tz & Nz & Cz).
  exists sx, sy, sz. unfold formatFloat3. rewrite Fx, Fy, Fz.
  split; [reflexivity|]. split; [exact Tx|]. split; [exact Ty|].
  split; [exact Tz|].
  rewrite Nx, Ny, Nz. intros [|[|i]]; cbn [coord]; assumption.
Qed.

(** The block printed for a triangle, and the triangle it decodes to. *)
Lemma facetLines_spec (t : Triangle) :
  finiteTriangle t -> decimalTriangle t ->
  exists lf l1 l2 l3,
    facetLines t 6 = Ok (blockOf lf l1 l2 l3)
    /\ isFacetLine lf = true
    /\ isVertexLine l1 = true /\ isVertexLine l2 = true
    /\ isVertexLine l3 = true
    /\ Forall plainLine (blockOf lf l1 l2 l3)
    /\ closeTriangle tolerance t
         {| normal := normalOfLine lf;
            vertices := (vertexOfLine l1, vertexOfLine l2, vertexOfLine l3) |}.
Proof.
  unfold finiteTriangle, decimalTriangle, facetLines.
  destruct (vertices t) as [[a b] c] eqn:V.
  intros (Fa & Fb & Fc) (Dn & Da & Db & Dc).
  destruct (formatFloat3_any (normal t) Dn) as (nx & ny & nz & En & Tnx & Tny & Tnz).
  destruct (formatFloat3_vertex a Fa Da) as (ax & ay & az & Ea & Tax & Tay & Taz & Ca).
  destruct (formatFloat3_vertex b Fb Db) as (bx & by' & bz & Eb & Tbx & Tby & Tbz & Cb).
  destruct (formatFloat3_vertex c Fc Dc) as (cx & cy & cz & Ec & Tcx & Tcy & Tcz & Cc).
  rewrite En, Ea, Eb, Ec. cbn [bind].
  destruct (facet_line nx ny nz Tnx Tny Tnz) as (FL & PL).
  destruct (vertex_line ax ay az Tax Tay Taz) as (VA & OA & PA).
  destruct (vertex_line bx by' bz Tbx Tby Tbz) as (VB & OB & PB).
  destruct (vertex_line cx cy cz Tcx Tcy Tcz) as (VC & OC & PC).
  cbv zeta in *.
  eexists _, _, _, _. split; [reflexivity|].
  split; [exact FL|]. split; [exact VA|]. split; [exact VB|].
  split; [exact VC|]. split.
  - unfold blockOf.
    repeat (constructor; [first [assumption | split; reflexivity]|]).
    constructor.
  - unfold closeTriangle. rewrite V. cbn [vertices].
    rewrite OA, OB, OC. auto.
Qed.

Lemma parseFacet_block (lf l1 l2 l3 : string) (rest : list string) :
  isVertexLine l1 = true -> isVertexLine l2 = true -> isVertexLine l3 = true ->
  parseFacet (blockOf lf l1 l2 l3 ++ rest) 0
  = (Some {| normal := normalOfLine lf;
             vertices := (vertexOfLine l1, vertexOfLine l2, vertexOfLine l3) |},
     6%nat).
Proof.
  intros V1 V2 V3.
  pose proof (parseFacet_spec (blockOf lf l1 l2 l3 ++ rest) 0) as Spec.
  cbv zeta in Spec.
  change (skipUntil "outer loop" (blockOf lf l1 l2 l3 ++ rest) 1) with 1%nat in Spec.
  change (nth (1 + 1) (blockOf lf l1 l2 l3 ++ rest) EmptyString) with l1 in Spec.
  change (nth (1 + 2) (blockOf lf l1 l2 l3 ++ rest) EmptyString) with l2 in Spec.
  change (nth (1 + 3) (blockOf lf l1 l2 l3 ++ rest) EmptyString) with l3 in Spec.
  rewrite V1, V2, V3 in Spec. cbn [andb] in Spec.
  rewrite Spec. reflexivity.
Qed.

Lemma parseLoop_block (fuel : nat) (lf l1 l2 l3 : string)
    (rest : list string) (acc : list Triangle) :
  isFacetLine lf = true ->
  isVertexLine l1 = true -> isVertexLine l2 = true -> isVertexLine l3 = true ->
  parseLoop (S fuel) (blockOf lf l1 l2 l3 ++ rest) 0 acc
  = parseLoop fuel rest 0
      (acc ++ [ {| normal := normalOfLine lf;
                   vertices := (vertexOfLine l1, vertexOfLine l2, vertexOfLine l3) |} ]).
Proof.
  intros F V1 V2 V3. cbn [parseLoop].
  change (0 <? length (blockOf lf l1 l2 l3 ++ rest))%nat with true. cbv iota.
  change (startsWith (lineAt (blockOf lf l1 l2 l3 ++ rest) 0) "facet normal")
    with (isFacetLine lf).
  rewrite F, (parseFacet_block lf l1 l2 l3 rest V1 V2 V3).
  apply (parseLoop_shift (blockOf lf l1 l2 l3) rest fuel 0).
Qed.

Lemma plainLine_map_dropCR (body : list string) :
  Forall plainLine body -> map dropCR body = body.
Proof.
  induction 1 as [|l body [_ Hl] _ IH]; cbn [map]; [reflexivity|].
  now rewrite Hl, IH.
Qed.

(** The body printed for a mesh, and the mesh the main loop reads off it. *)
Lemma body_roundtrip (triangles : list Triangle) :
  finiteMesh triangles -> Forall decimalTriangle triangles ->
  exists body triangles',
    allFacetLines triangles 6 = Ok body
    /\ Forall plainLine body
    /\ length body = (7 * length triangles)%nat
    /\ closeMesh tolerance triangles triangles'
    /\ forall fuel rest acc,
         parseLoop (length triangles + fuel) (body ++ rest) 0 acc
         = parseLoop fuel rest 0 (acc ++ triangles').
Proof.
  induction 1 as [|t ts Ft Fts IH]; intros Hd.
  - exists [], []. repeat split; try constructor.
    intros fuel rest acc. cbn [length app Nat.add]. now rewrite app_nil_r.
  - inversion Hd as [|? ? Dt Dts]; subst.
    destruct (IH Dts) as (body & ts' & Eb & Pb & Lb & Cb & Lp).
    destruct (facetLines_spec t Ft Dt)
      as (lf & l1 & l2 & l3 & El & FL & V1 & V2 & V3 & Pl & Ct).
    eexists (blockOf lf l1 l2 l3 ++ body), (_ :: ts').
    cbn [allFacetLines]. rewrite El, Eb. cbn [bind].
    split; [reflexivity|]. split; [now apply Forall_app|].
    split; [rewrite length_app, Lb; cbn [length blockOf]; lia|].
    split; [constructor; [exact Ct|exact Cb]|].
    intros fuel rest acc. cbn [length Nat.add].
    rewrite <- app_assoc.
    rewrite (parseLoop_block _ lf l1 l2 l3 _ acc FL V1 V2 V3).
    rewrite Lp, <- app_assoc. reflexivity.
Qed.

Lemma not_facet_first_char (c : ascii) (r : string) :
  isWhiteSpace c = false -> c <> "f"%char -> isFacetLine (String c r) = false.
Proof.
  intros W N. unfold isFacetLine, trim. cbn [trimStart]. rewrite W.
  cbn [trimEnd]. rewrite W, andb_false_r.
  unfold startsWith. cbn [String.prefix].
  destruct (ascii_dec "f" c) as [E|E]; [congruence|reflexivity].
Qed.

(** C8, as stated, fails: a text with an infinite coordinate decodes to a
    mesh that the encoder prints with 0 in its place. *)
Lemma C8_infinite_coordinate_is_lost :
  exists m m',
    StlUtils.parseAsciiStl infinityStl = Ok m
    /\ reencode m "t" = Ok m'
    /\ ~ closeMesh tolerance m m'.
Proof.
  eexists. eexists. split; [vm_compute; reflexivity|].
  split; [vm_compute; reflexivity|].
  intros H. inversion H as [|? ? ? ? Ht _]; subst.
  destruct Ht as (Ha & _). specialize (Ha 0%nat). discriminate.
Qed.

(** C8, amended: for every mesh decoded from text whose vertex coordinates
    are all finite, encoding it with precision 6 (under a solid name
    without a line feed) and decoding the result yields a mesh with the
    same number of triangles, every vertex coordinate within 10^-6 of the
    original. *)
Theorem C8_roundtrip (text solidName : string) (m : list Triangle) :
  StlUtils.parseAsciiStl text = Ok m ->
  finiteMesh m ->
  contains LF solidName = false ->
  exists m',
    reencode m solidName = Ok m'
    /\ length m' = length m
    /\ closeMesh tolerance m m'.
Proof.
  intros Hparse Hfin Hname.
  pose proof (parseAsciiStl_decimal text m Hparse) as Hdec.
  destruct (body_roundtrip m Hfin Hdec) as (body & m' & Eb & Pb & Lb & Cm & Lp).
  exists m'. split; [|split; [|exact Cm]].
  - unfold reencode, trianglesToAscii. rewrite Eb. cbn [bind].
    unfold parseAsciiStl. fold (linesOf (join (String LF EmptyString)
      ([("solid " ++ solidName)%string] ++ body ++ [("endsolid " ++ solidName)%string]))).
    cbn [app].
    assert (NL : Forall (fun l => contains LF l = false)
                   (("solid " ++ solidName)%string
                      :: body ++ [("endsolid " ++ solidName)%string])).
    { constructor; [now rewrite contains_app, Hname|].
      apply Forall_app. split.
      - eapply Forall_impl; [|exact Pb]. intros l [H _]. exact H.
      - constructor; [now rewrite contains_app, Hname|constructor]. }
    rewrite linesOf_join by (exact NL || discriminate).
    change (("solid " ++ solidName)%string
              :: body ++ [("endsolid " ++ solidName)%string])
      with ((("solid " ++ solidName)%string :: body)
              ++ [("endsolid " ++ solidName)%string]).
    rewrite removelast_last, last_last. cbn [map].
    rewrite (plainLine_map_dropCR body Pb).
    set (h := dropCR ("solid " ++ solidName)).
    set (f := ("endsolid " ++ solidName)%string).
    assert (Hh : isFacetLine h = false).
    { unfold h. change ("solid " ++ solidName)%string
        with (String "s" (String "o" (String "l" (String "i" (String "d"
                (String " " solidName)))))).
      cbn [dropCR]. now apply not_facet_first_char. }
    assert (Hf : isFacetLine f = false) by now apply not_facet_first_char.
    cbn [app length]. rewrite length_app. cbn [length].
    cbn [parseLoop].
    change (startsWith (lineAt (h :: body ++ [f]) 0) "facet normal")
      with (isFacetLine h).
    rewrite Hh.
    change (0 <? S (length (body ++ [f])))%nat with true. cbv iota.
    rewrite (parseLoop_shift [h] (body ++ [f]) _ 0 []).
    replace (length body + 1)%nat with (length m + (6 * length m + 1))%nat by lia.
    rewrite Lp. cbn [app].
    replace (6 * length m + 1)%nat with (S (6 * length m)) by lia.
    cbn [parseLoop length].
    change (startsWith (lineAt [f] 0) "facet normal") with (isFacetLine f).
    rewrite Hf. cbn [Nat.ltb Nat.leb].
    destruct (6 * length m)%nat; reflexivity.
  - symmetry. eapply Forall2_length. exact Cm.
Qed.

Lemma C8_roundtrip_witness :
  exists m',
    reencode longMesh "x" = Ok m'
    /\ length m' = length longMesh
    /\ closeMesh tolerance longMesh m'.
Proof.
  apply (C8_roundtrip longStl "x" longMesh).
  - vm_compute. reflexivity.
  - repeat constructor; apply finiteVec_Fin.
  - reflexivity.
Defined.
(** ** The binary decoder and the format test *)

(** [parseBinaryStl], evaluated: the two size tests, then the records in
    file order. *)
Lemma parseBinaryStl_eval (buffer : list byte) :
  parseBinaryStl buffer =
    if Z.of_nat (length buffer) <? 84
    then Throw "File too small to be a valid binary STL."
    else if 84 + embeddedCount buffer * 50 =? Z.of_nat (length buffer)
    then Ok (map (fun i => recordAt buffer (84 + 50 * i))
                 (seq 0 (Z.to_nat (embeddedCount buffer))))
    else Throw "Input does not look like a binary STL (size/count mismatch).".
Proof.
  unfold parseBinaryStl, isLikelyBinaryStl.
  destruct (Z.ltb_spec (Z.of_nat (length buffer)) 84) as [L|L]; [reflexivity|].
  rewrite getUint32_in_range by lia. cbn [bind].
  fold (embeddedCount buffer).
  pose proof (le32_nonneg (byteAt buffer 80) (byteAt buffer 81)
                (byteAt buffer 82) (byteAt buffer 83)) as Hc.
  fold (uint32At buffer 80) in Hc. fold (embeddedCount buffer) in Hc.
  destruct (Z.eqb_spec (84 + embeddedCount buffer * 50) (Z.of_nat (length buffer)))
    as [E|E]; cbn [negb]; [|reflexivity].
  apply readTriangles_in_range. lia.
Qed.

(** The format test and the decoder agree: [isBinaryStl] never throws, it
    answers [true] exactly on the buffers [parseBinaryStl] decodes, and
    [false] exactly on those it rejects with an error. *)
Theorem isBinaryStl_iff_parseBinaryStl_succeeds (buffer : list byte) :
  (isBinaryStl buffer = Ok true <-> exists m, parseBinaryStl buffer = Ok m)
  /\ (isBinaryStl buffer = Ok false
      <-> exists msg, parseBinaryStl buffer = Throw msg)
  /\ exists b, isBinaryStl buffer = Ok b.
Proof.
  rewrite isBinaryStl_spec, parseBinaryStl_eval.
  destruct (Z.ltb_spec (Z.of_nat (length buffer)) 84) as [L|L].
  - replace (84 <=? Z.of_nat (length buffer)) with false
      by (symmetry; apply Z.leb_gt; exact L).
    cbn [andb]. repeat split; try discriminate; eauto.
    intros [m H]. discriminate.
  - replace (84 <=? Z.of_nat (length buffer)) with true
      by (symmetry; apply Z.leb_le; exact L).
    cbn [andb].
    destruct (84 + embeddedCount buffer * 50 =? Z.of_nat (length buffer));
      repeat split; try discriminate; eauto.
    + intros [msg H]. discriminate.
    + intros [m H]. discriminate.
Qed.
(** ** Intersection over union of two boxes *)

Lemma neqv_refl (a : num) : neqv a a.
Proof. destruct a; cbn; try exact I. reflexivity. Qed.

Lemma Math_max_comm (a b : num) : neqv (Math_max a b) (Math_max b a).
Proof.
  destruct a as [| | |x], b as [| | |y]; cbn; try exact I; try reflexivity.
  unfold Math_max; cbn [ncompare].
  rewrite <- (Qcompare_antisym x y).
  destruct (x ?= y)%Q eqn:E; cbn [CompOpp neqv]; try reflexivity.
  now apply Qeq_alt.
Qed.

Lemma Math_min_comm (a b : num) : neqv (Math_min a b) (Math_min b a).
Proof.
  destruct a as [| | |x], b as [| | |y]; cbn; try exact I; try reflexivity.
  unfold Math_min; cbn [ncompare].
  rewrite <- (Qcompare_antisym x y).
  destruct (x ?= y)%Q eqn:E; cbn [CompOpp neqv]; try reflexivity.
  now apply Qeq_alt.
Qed.

Lemma nsub_neqv (a a' b b' : num) :
  neqv a a' -> neqv b b' -> nsub a b = nsub a' b'.
Proof.
  destruct a, a', b, b'; cbn [neqv]; intros Ha Hb;
    try contradiction; try reflexivity.
  cbn [nsub]. apply fin_eq. now rewrite Ha, Hb.
Qed.

Lemma nlt_neqv (a a' b b' : num) :
  neqv a a' -> neqv b b' -> nlt a b = nlt a' b'.
Proof.
  destruct a, a', b, b'; cbn [neqv]; intros Ha Hb;
    try contradiction; try reflexivity.
  unfold nlt; cbn [ncompare]. now rewrite Ha, Hb.
Qed.

Lemma nadd_comm (a b : num) : nadd a b = nadd b a.
Proof.
  destruct a, b; try reflexivity. cbn [nadd]. apply fin_eq. ring.
Qed.

Lemma nadd_Fin_inv (a b : num) (v : Q) :
  nadd a b = Fin v -> exists x y, a = Fin x /\ b = Fin y /\ (v == x + y)%Q.
Proof.
  destruct a as [| | |x], b as [| | |y]; cbn [nadd]; try discriminate.
  intros H. exists x, y. repeat split. now apply fin_inv in H.
Qed.

(** One axis of the intersection, with the two boxes exchanged. *)
Lemma axis_swap (am aM bm bM : num) :
  nlt (Math_min aM bM) (Math_max am bm) = nlt (Math_min bM aM) (Math_max bm am)
  /\ nsub (Math_min aM bM) (Math_max am bm)
     = nsub (Math_min bM aM) (Math_max bm am).
Proof.
  split.
  - apply nlt_neqv; [apply Math_min_comm|apply Math_max_comm].
  - apply nsub_neqv; [apply Math_min_comm|apply Math_max_comm].
Qed.

(** [aabbIou] does not depend on the order of its two boxes, whatever
    their bounds (infinite bounds and NaN included). *)
Theorem aabbIou_symmetric (a b : Aabb) : aabbIou a b = aabbIou b a.
Proof.
  unfold aabbIou.
  set (va := aabbVolume a). set (vb := aabbVolume b).
  destruct a as [[[am0 am1] am2] [[aM0 aM1] aM2]].
  destruct b as [[[bm0 bm1] bm2] [[bM0 bM1] bM2]].
  unfold aabbIntersection. cbn [min max].
  destruct (axis_swap am0 aM0 bm0 bM0) as [T0 S0].
  destruct (axis_swap am1 aM1 bm1 bM1) as [T1 S1].
  destruct (axis_swap am2 aM2 bm2 bM2) as [T2 S2].
  rewrite T0, T1, T2.
  destruct (nlt (Math_min bM0 aM0) (Math_max bm0 am0)
            || nlt (Math_min bM1 aM1) (Math_max bm1 am1)
            || nlt (Math_min bM2 aM2) (Math_max bm2 am2)); [reflexivity|].
  unfold aabbVolume. cbn [min max].
  rewrite S0, S1, S2, (nadd_comm va vb).
  reflexivity.
Qed.
Lemma extent_shape (d : num) : nonnegOrNaN (Math_max zero d).
Proof.
  destruct d as [| | |x]; [exact I|exact I|apply Qle_refl|].
  unfold Math_max, zero; cbn [ncompare].
  destruct (0 ?= x)%Q eqn:E; cbn [nonnegOrNaN]; try apply Qle_refl.
  apply Qlt_le_weak. now apply Qlt_alt.
Qed.

Lemma nmul_shape (a b : num) :
  nonnegOrNaN a -> nonnegOrNaN b -> nonnegOrNaN (nmul a b).
Proof.
  destruct a as [| | |x], b as [| | |y]; cbn [nonnegOrNaN nmul];
    intros Ha Hb; try exact I; try contradiction.
  - destruct (y ?= 0)%Q eqn:E; cbn; try exact I.
    apply Qlt_alt in E. lra.
  - destruct (x ?= 0)%Q eqn:E; cbn; try exact I.
    apply Qlt_alt in E. lra.
  - unfold fin. cbn [nonnegOrNaN]. rewrite Qred_correct.
    now apply Qmult_le_0_compat.
Qed.

Lemma aabbVolume_shape (box : Aabb) : nonnegOrNaN (aabbVolume box).
Proof.
  destruct box as [[[m0 m1] m2] [[M0 M1] M2]]. unfold aabbVolume. cbn [min max].
  repeat apply nmul_shape; apply extent_shape.
Qed.

Lemma Math_max_zero_Fin (x q : Q) :
  Math_max zero (Fin x) = Fin q ->
  ((q == 0)%Q /\ (x <= 0)%Q) \/ ((q == x)%Q /\ (0 <= x)%Q).
Proof.
  unfold Math_max, zero; cbn [ncompare].
  destruct (0 ?= x)%Q eqn:E; intros [= <-].
  - apply Qeq_alt in E. left. split; [reflexivity|lra].
  - apply Qlt_alt in E. right. split; [reflexivity|lra].
  - apply Qgt_alt in E. left. split; [reflexivity|lra].
Qed.



Lemma Fin_inj (x y : Q) : Fin x = Fin y -> x = y.
Proof. congruence. Qed.

Ltac cmp_facts :=
  repeat match goal with
  | E : (_ ?= _)%Q = Eq |- _ => apply Qeq_alt in E
  | E : (_ ?= _)%Q = Lt |- _ => apply Qlt_alt in E
  | E : (_ ?= _)%Q = Gt |- _ => apply Qgt_alt in E
  end.

Ltac num_cases H :=
  unfold Math_max, Math_min, nsub, zero, fin in H; cbn [ncompare] in H;
  repeat match type of H with
  | context [(?a ?= ?b)%Q] => destruct (a ?= b)%Q eqn:?; cbn [ncompare] in H
  end.

(** The extent of the intersection along an axis is at most the extent of
    the first box. *)
Lemma extent_le (am aM bm bM : num) (ei ea : Q) :
  Math_max zero (nsub (Math_min aM bM) (Math_max am bm)) = Fin ei ->
  Math_max zero (nsub aM am) = Fin ea ->
  (0 <= ei <= ea)%Q.
Proof.
  intros H1 H2.
  pose proof (Math_max_zero_nonneg _ _ H1) as N1.
  pose proof (Math_max_zero_nonneg _ _ H2) as N2.
  split; [exact N1|].
  destruct aM as [| | |aM], am as [| | |am], bM as [| | |bM], bm as [| | |bm];
    num_cases H2; try discriminate H2;
    num_cases H1; try discriminate H1;
    apply Fin_inj in H1, H2; subst ei ea; try discriminate;
    cmp_facts; rewrite ?Qred_correct in *; try lra.
Qed.

Lemma extent_le_r (am aM bm bM : num) (ei eb : Q) :
  Math_max zero (nsub (Math_min aM bM) (Math_max am bm)) = Fin ei ->
  Math_max zero (nsub bM bm) = Fin eb ->
  (0 <= ei <= eb)%Q.
Proof.
  destruct (axis_swap am aM bm bM) as [_ ->]. apply extent_le.
Qed.

Lemma Qmult_le_mono (a a' b b' : Q) :
  (0 <= a <= a')%Q -> (0 <= b <= b')%Q -> (0 <= a * b <= a' * b')%Q.
Proof.
  intros [Ha Ha'] [Hb Hb']. split.
  - now apply Qmult_le_0_compat.
  - apply Qle_trans with (a' * b)%Q.
    + now apply Qmult_le_compat_r.
    + rewrite (Qmult_comm a' b), (Qmult_comm a' b').
      apply Qmult_le_compat_r; lra.
Qed.

(** The volume of a product of three extents. *)
Lemma volume_le (e0 e1 e2 f0 f1 f2 : num) (i x : Q) :
  nmul (nmul e0 e1) e2 = Fin i ->
  nmul (nmul f0 f1) f2 = Fin x ->
  (forall ei fi, e0 = Fin ei -> f0 = Fin fi -> (0 <= ei <= fi)%Q) ->
  (forall ei fi, e1 = Fin ei -> f1 = Fin fi -> (0 <= ei <= fi)%Q) ->
  (forall ei fi, e2 = Fin ei -> f2 = Fin fi -> (0 <= ei <= fi)%Q) ->
  (0 <= i <= x)%Q.
Proof.
  intros Hi Hx L0 L1 L2.
  apply nmul_Fin_inv in Hi as (p & c & Hp & -> & Ei).
  apply nmul_Fin_inv in Hp as (a & b & -> & -> & Ep).
  apply nmul_Fin_inv in Hx as (p' & c' & Hp' & -> & Ex).
  apply nmul_Fin_inv in Hp' as (a' & b' & -> & -> & Ep').
  rewrite Ei, Ex, Ep, Ep'.
  apply Qmult_le_mono; [apply Qmult_le_mono|]; eauto.
Qed.

Lemma intersection_volume_le (a b inter : Aabb) (i x y : Q) :
  aabbIntersection a b = Some inter ->
  aabbVolume inter = Fin i -> aabbVolume a = Fin x -> aabbVolume b = Fin y ->
  (0 <= i <= x)%Q /\ (0 <= i <= y)%Q.
Proof.
  destruct a as [[[am0 am1] am2] [[aM0 aM1] aM2]].
  destruct b as [[[bm0 bm1] bm2] [[bM0 bM1] bM2]].
  unfold aabbIntersection. cbn [min max].
  destruct (_ || _); [discriminate|]. intros [= <-].
  unfold aabbVolume. cbn [min max]. intros Hi Hx Hy. split.
  - apply (volume_le _ _ _ _ _ _ i x Hi Hx); intros ei fi E F;
      exact (extent_le _ _ _ _ _ _ E F).
  - apply (volume_le _ _ _ _ _ _ i y Hi Hy); intros ei fi E F;
      exact (extent_le_r _ _ _ _ _ _ E F).
Qed.

Lemma aabbIou_unit_interval (a b : Aabb) :
  exists q, aabbIou a b = Fin q /\ (0 <= q <= 1)%Q.
Proof.
  unfold aabbIou.
  destruct (aabbIntersection a b) as [inter|] eqn:EI;
    [|exists 0%Q; split; [reflexivity|lra]].
  pose proof (aabbVolume_shape inter) as SI.
  cbv zeta.
  destruct (ngt (nsub (nadd (aabbVolume a) (aabbVolume b)) (aabbVolume inter)) zero)
    eqn:G; [|exists 0%Q; split; [reflexivity|lra]].
  destruct (aabbVolume inter) as [| | |i] eqn:EvI.
  - destruct (nadd _ _); discriminate G.
  - destruct (nadd _ _); discriminate G.
  - contradiction.
  - cbn [nonnegOrNaN] in SI.
    destruct (nadd (aabbVolume a) (aabbVolume b)) as [| | |s] eqn:Es;
      try discriminate G.
    + exists 0%Q. split; [reflexivity|lra].
    + apply nadd_Fin_inv in Es as (x & y & Ex & Ey & Es).
      destruct (intersection_volume_le a b inter i x y EI EvI Ex Ey) as [Lx Ly].
      cbn [nsub] in *. unfold fin in *.
      apply ngt_Fin in G. rewrite Qred_correct in G.
      unfold ndiv.
      assert (Z : Qeq_bool (Qred (s - i)) 0 = false).
      { apply not_true_iff_false. rewrite Qeq_bool_iff, Qred_correct. lra. }
      rewrite Z. eexists. split; [reflexivity|].
      rewrite !Qred_correct.
      assert (P : (0 < s - i)%Q) by exact G.
      split.
      * apply Qle_shift_div_l; [exact P|]. lra.
      * apply Qle_shift_div_r; [exact P|]. lra.
Qed.

(** Whatever the two boxes, [aabbIou] returns a finite number between 0
    and 1: never NaN, never an infinity. *)
Theorem aabbIou_between_0_and_1 (a b : Aabb) :
  exists q, aabbIou a b = Fin q /\ (0 <= q <= 1)%Q.
Proof.
  destruct (aabbIou_unit_interval a b) as (q & E & H).
  exists q. split; [exact E|exact H].
Qed.
(** ** The bounding box is the smallest one *)

Lemma aabbExtend_attained (P : Vec3 -> Prop) (box : Aabb) (v : Vec3) :
  finiteVec v -> P v -> boundsAttainedOrInitial P box ->
  boundsAttained P (aabbExtend box v).
Proof.
  intros Fv Pv Hb i. destruct (Hb i) as [Hm HM].
  rewrite coord_min_extend, coord_max_extend.
  pose proof (Fv i) as Fi. unfold isFinite in Fi.
  destruct (coord i v) as [| | |x] eqn:Ev; try discriminate Fi.
  split.
  - destruct (nlt (Fin x) (coord i (min box))) eqn:L.
    + exists v. now rewrite Ev.
    + destruct Hm as [Hm|Hm]; [|exact Hm]. rewrite Hm in L. discriminate L.
  - destruct (ngt (Fin x) (coord i (max box))) eqn:L.
    + exists v. now rewrite Ev.
    + destruct HM as [HM|HM]; [|exact HM]. rewrite HM in L. discriminate L.
Qed.

Lemma boundsAttained_weaken (P : Vec3 -> Prop) (box : Aabb) :
  boundsAttained P box -> boundsAttainedOrInitial P box.
Proof.
  intros H i. destruct (H i) as [Hm HM]. split; right; assumption.
Qed.

Lemma aabbStep_attained (P : Vec3 -> Prop) (box : Aabb) (t : Triangle) :
  finiteTriangle t ->
  (forall a b c, vertices t = (a, b, c) -> P a /\ P b /\ P c) ->
  boundsAttainedOrInitial P box ->
  boundsAttained P (aabbStep box t).
Proof.
  unfold finiteTriangle, aabbStep. destruct (vertices t) as [[a b] c].
  intros (Fa & Fb & Fc) HP Hb.
  destruct (HP a b c eq_refl) as (Pa & Pb & Pc).
  apply aabbExtend_attained; [exact Fc|exact Pc|].
  apply boundsAttained_weaken.
  apply aabbExtend_attained; [exact Fb|exact Pb|].
  apply boundsAttained_weaken.
  apply aabbExtend_attained; assumption.
Qed.

Lemma fold_aabbStep_attained (P : Vec3 -> Prop) (triangles : list Triangle) :
  finiteMesh triangles ->
  (forall t a b c, In t triangles -> vertices t = (a, b, c) -> P a /\ P b /\ P c) ->
  forall box,
    boundsAttained P box ->
    boundsAttained P (fold_left aabbStep triangles box).
Proof.
  induction triangles as [|t rest IH]; intros Fm HP box Hb; [exact Hb|].
  cbn [fold_left]. inversion Fm as [|? ? Ft Frest]; subst.
  apply IH; [exact Frest| |].
  - intros t' a b c Hin. apply HP. now right.
  - apply aabbStep_attained; [exact Ft| |now apply boundsAttained_weaken].
    intros a b c. apply HP. now left.
Qed.

Lemma isVertexOf_finite (m : list Triangle) (v : Vec3) :
  finiteMesh m -> isVertexOf v m -> finiteVec v.
Proof.
  intros Fm (t & a & b & c & Hin & Hv & Hor).
  unfold finiteMesh in Fm. rewrite Forall_forall in Fm.
  specialize (Fm t Hin). unfold finiteTriangle in Fm. rewrite Hv in Fm.
  destruct Fm as (Fa & Fb & Fc).
  destruct Hor as [->|[->| ->]]; assumption.
Qed.

Lemma aabbOfTriangles_encloses (m : list Triangle) (v : Vec3) :
  finiteMesh m -> isVertexOf v m -> insideAabb v (aabbOfTriangles m).
Proof.
  intros Fm (t & a & b & c & Hin & Hv & Hor).
  destruct (aabbOfTriangles_bounds m Fm t a b c Hin Hv) as (Ia & Ib & Ic).
  destruct Hor as [->|[->| ->]]; assumption.
Qed.

Lemma aabbOfTriangles_attained (m : list Triangle) :
  m <> [] -> finiteMesh m ->
  boundsAttained (fun v => isVertexOf v m) (aabbOfTriangles m).
Proof.
  intros Hne Fm. rewrite aabbOfTriangles_fold.
  destruct m as [|t rest]; [congruence|]. cbn [fold_left].
  inversion Fm as [|? ? Ft Frest]; subst.
  apply fold_aabbStep_attained; [exact Frest| |].
  - intros t' a b c Hin Hv.
    repeat split; exists t', a, b, c; (split; [now right|]); (split; [exact Hv|]);
      auto.
  - apply aabbStep_attained; [exact Ft| |].
    + intros a b c Hv.
      repeat split; exists t, a, b, c; (split; [now left|]); (split; [exact Hv|]);
        auto.
    + intros i. split; left; destruct i as [|[|i]]; reflexivity.
Qed.

Lemma aabbOfTriangles_finite_bounds (m : list Triangle) :
  m <> [] -> finiteMesh m ->
  exists l0 l1 l2 h0 h1 h2,
    aabbOfTriangles m
    = {| min := (Fin l0, Fin l1, Fin l2); max := (Fin h0, Fin h1, Fin h2) |}.
Proof.
  intros Hne Fm.
  pose proof (aabbOfTriangles_attained m Hne Fm) as A.
  assert (Fl : finiteVec (min (aabbOfTriangles m))).
  { intros i. destruct (A i) as [(v & Pv & E) _]. rewrite E.
    apply (isVertexOf_finite m v Fm Pv). }
  assert (Fh : finiteVec (max (aabbOfTriangles m))).
  { intros i. destruct (A i) as [_ (v & Pv & E)]. rewrite E.
    apply (isVertexOf_finite m v Fm Pv). }
  destruct (aabbOfTriangles m) as [lo hi]. cbn [min max] in *.
  destruct (finiteVec_inv lo Fl) as (l0 & l1 & l2 & ->).
  destruct (finiteVec_inv hi Fh) as (h0 & h1 & h2 & ->).
  now exists l0, l1, l2, h0, h1, h2.
Qed.

(** For a non-empty mesh with finite coordinates, the box returned by
    [aabbOfTriangles] has finite bounds, encloses every vertex, and each
    of its six bounds is the coordinate of some vertex: no smaller box
    encloses the mesh. *)
Theorem aabbOfTriangles_smallest_enclosing_box (m : list Triangle) :
  m <> [] -> finiteMesh m ->
  let box := aabbOfTriangles m in
  finiteVec (min box) /\ finiteVec (max box)
  /\ (forall v, isVertexOf v m -> insideAabb v box)
  /\ boundsAttained (fun v => isVertexOf v m) box.
Proof.
  intros Hne Fm box.
  destruct (aabbOfTriangles_finite_bounds m Hne Fm)
    as (l0 & l1 & l2 & h0 & h1 & h2 & E).
  split; [|split; [|split]].
  - unfold box. rewrite E. apply finiteVec_Fin.
  - unfold box. rewrite E. apply finiteVec_Fin.
  - intros v. now apply aabbOfTriangles_encloses.
  - now apply aabbOfTriangles_attained.
Qed.

Lemma aabbOfTriangles_smallest_enclosing_box_witness :
  let box := aabbOfTriangles twoTriangles in
  finiteVec (min box) /\ finiteVec (max box)
  /\ (forall v, isVertexOf v twoTriangles -> insideAabb v box)
  /\ boundsAttained (fun v => isVertexOf v twoTriangles) box.
Proof.
  apply (aabbOfTriangles_smallest_enclosing_box twoTriangles).
  - discriminate.
  - exact finiteMesh_twoTriangles.
Defined.

(** ** The signed volume *)

(** The summand of [signedVolume] for a triangle. *)
Lemma volume_term_reversed (t : Triangle) :
  finiteTriangle t ->
  exists x x',
    (let '(p0, p1, p2) := vertices t in dot p0 (cross p1 p2)) = Fin x
    /\ (let '(p0, p1, p2) := vertices (reverseWinding t) in dot p0 (cross p1 p2))
       = Fin x'
    /\ (x' == - x)%Q.
Proof.
  unfold finiteTriangle, reverseWinding.
  destruct (vertices t) as [[a b] c]. intros (Fa & Fb & Fc).
  destruct (finiteVec_inv a Fa) as (a0 & a1 & a2 & ->).
  destruct (finiteVec_inv b Fb) as (b0 & b1 & b2 & ->).
  destruct (finiteVec_inv c Fc) as (c0 & c1 & c2 & ->).
  cbn [vertices dot cross nmul nsub nadd]. unfold fin.
  eexists. eexists. split; [reflexivity|]. split; [reflexivity|].
  rewrite !Qred_correct. ring.
Qed.

Lemma volume_fold_reversed (m : list Triangle) :
  finiteMesh m ->
  forall a a', (a' == - a)%Q ->
    exists s s',
      fold_left
        (fun sum t => let '(p0, p1, p2) := vertices t in nadd sum (dot p0 (cross p1 p2)))
        m (Fin a) = Fin s
      /\ fold_left
           (fun sum t => let '(p0, p1, p2) := vertices t in nadd sum (dot p0 (cross p1 p2)))
           (map reverseWinding m) (Fin a') = Fin s'
      /\ (s' == - s)%Q.
Proof.
  induction m as [|t rest IH]; intros Fm a a' Ha.
  - exists a, a'. repeat split. exact Ha.
  - inversion Fm as [|? ? Ft Frest]; subst.
    destruct (volume_term_reversed t Ft) as (x & x' & E & E' & Hx).
    cbn [map fold_left].
    destruct (vertices t) as [[p0 p1] p2].
    destruct (vertices (reverseWinding t)) as [[q0 q1] q2].
    rewrite E, E'. cbn [nadd]. unfold fin.
    apply (IH Frest). rewrite !Qred_correct, Ha, Hx. ring.
Qed.

(** Reversing the winding of every triangle of a mesh with finite
    coordinates negates its signed volume. *)
Theorem signedVolume_reverseWinding (m : list Triangle) :
  finiteMesh m ->
  signedVolume (map reverseWinding m) = nneg (signedVolume m).
Proof.
  intros Fm. unfold signedVolume.
  destruct (volume_fold_reversed m Fm 0 0 ltac:(reflexivity))
    as (s & s' & E & E' & Hs).
  fold zero in E, E'. rewrite E, E'.
  cbn. apply fin_eq. rewrite Qred_correct, Hs.
  unfold Qdiv. ring.
Qed.

Lemma signedVolume_reverseWinding_witness :
  signedVolume (map reverseWinding twoTriangles)
  = nneg (signedVolume twoTriangles).
Proof.
  apply (signedVolume_reverseWinding twoTriangles).
  exact finiteMesh_twoTriangles.
Defined.
(** ** Areas and the surface centroid *)

Section AreaFacts.
Variable sqrtQ : Q -> Q.
Hypothesis sqrtQ_nonneg : forall q, (0 <= q)%Q -> (0 <= sqrtQ q)%Q.

Lemma Math_sqrt_nonneg (x : Q) :
  (0 <= x)%Q -> exists r, Math_sqrt sqrtQ (Fin x) = Fin r /\ (0 <= r)%Q.
Proof.
  intros Hx. cbn [Math_sqrt].
  assert (B : Qle_bool 0 x = true) by now apply Qle_bool_iff.
  rewrite B. unfold fin. eexists. split; [reflexivity|].
  rewrite Qred_correct. now apply sqrtQ_nonneg.
Qed.





End AreaFacts.

Section CentroidFacts.
Variable sqrtQ : Q -> Q.
Hypothesis sqrtQ_nonneg : forall q, (0 <= q)%Q -> (0 <= sqrtQ q)%Q.




End CentroidFacts.


Lemma sqrt_fix_nonneg_on (q : Q) : (0 <= q)%Q -> (0 <= sqrt_fix q)%Q.
Proof. intros _. apply sqrt_fix_nonneg. Qed.

(** ** Chamfer statistics: a cloud against itself, and translated clouds *)

Lemma squaredDistance_self (p : Vec3) :
  finiteVec p -> squaredDistance p p = zero.
Proof.
  intros Fp. destruct (finiteVec_inv p Fp) as (x & y & z & ->).
  unfold squaredDistance.
  repeat (progress (cbn [nsub nmul nadd]; unfold fin)).
  change zero with (fin 0). apply fin_eq.
  rewrite !Qred_correct. ring.
Qed.

Lemma squaredDistance_canonical (p q : Vec3) :
  finiteVec p -> finiteVec q ->
  exists e, squaredDistance p q = fin e /\ (0 <= e)%Q.
Proof.
  intros Fp Fq.
  destruct (finiteVec_inv p Fp) as (x & y & z & ->).
  destruct (finiteVec_inv q Fq) as (x' & y' & z' & ->).
  unfold squaredDistance.
  repeat (progress (cbn [nsub nmul nadd]; unfold fin)).
  eexists. split; [reflexivity|].
  rewrite !Qred_correct.
  pose proof (Qsquare_nonneg (x - x')).
  pose proof (Qsquare_nonneg (y - y')).
  pose proof (Qsquare_nonneg (z - z')). lra.
Qed.

(** The nearest squared distance from a point of a cloud to the cloud is 0. *)
Lemma nearestSquared_member (p : Vec3) (target : list Vec3) :
  finitePoints target -> In p target -> nearestSquared p target = zero.
Proof.
  intros Ft Hin.
  assert (Fp : finiteVec p).
  { unfold finitePoints in Ft. rewrite Forall_forall in Ft. now apply Ft. }
  assert (Hne : target <> []) by (intros ->; contradiction).
  destruct (nearestSquared_spec p target Fp Ft Hne) as ((q & Hq & E) & L).
  specialize (L p Hin). rewrite squaredDistance_self in L by exact Fp.
  assert (Fq : finiteVec q).
  { unfold finitePoints in Ft. rewrite Forall_forall in Ft. now apply Ft. }
  destruct (squaredDistance_canonical p q Fp Fq) as (e & Ee & He).
  rewrite E, Ee in *. unfold fin, zero in L. apply nle_Fin in L.
  rewrite Qred_correct in L.
  change zero with (fin 0). apply fin_eq. lra.
Qed.

Lemma insert_zero (l : list num) :
  insert_by (fun x y => nsub x y) zero (map (fun _ => zero) l)
  = zero :: map (fun _ => zero) l.
Proof. destruct l; reflexivity. Qed.

Lemma sort_zeros {A} (l : list A) :
  Array_sort (fun x y => nsub x y) (map (fun _ => zero) l)
  = map (fun _ => zero) l.
Proof.
  induction l as [|a l IH]; [reflexivity|].
  cbn [map]. unfold Array_sort in *. cbn [fold_right]. rewrite IH.
  destruct l; reflexivity.
Qed.

Lemma sum_zeros {A} (l : list A) :
  fold_left (fun s x => nadd s x) (map (fun _ : A => zero) l) zero = zero.
Proof.
  induction l as [|a l IH]; [reflexivity|exact IH].
Qed.

Lemma nth_error_zeros {A} (l : list A) (i : nat) :
  nullish (nth_error (map (fun _ : A => zero) l) i) zero = zero.
Proof.
  revert i. induction l as [|a l IH]; intros [|i]; try reflexivity.
  apply IH.
Qed.

Lemma Array_get_zeros {A} (l : list A) (k : num) :
  nullish (Array_get (map (fun _ : A => zero) l) k) zero = zero.
Proof.
  unfold Array_get. destruct (index_of k); [apply nth_error_zeros|reflexivity].
Qed.

Lemma mean_zero (n : nat) :
  ndiv zero (or_else (ofZ (Z.of_nat n)) one) = zero.
Proof.
  destruct n as [|n]; [reflexivity|].
  rewrite or_else_count by lia.
  unfold ndiv, zero, ofZ.
  assert (NZ : Qeq_bool (inject_Z (Z.of_nat (S n))) 0 = false).
  { apply not_true_iff_false. rewrite Qeq_bool_iff.
    unfold Qeq; cbn [inject_Z Qnum Qden]. lia. }
  rewrite NZ. change (Fin 0) with (fin 0). apply fin_eq.
  unfold Qdiv. ring.
Qed.

Lemma oneWay_self (sqrtQ : Q -> Q) (A : list Vec3) :
  (sqrtQ 0 == 0)%Q -> finitePoints A ->
  oneWay sqrtQ A A = (zero, zero, zero).
Proof.
  intros S0 FA. unfold oneWay.
  assert (E : map (fun p => Math_sqrt sqrtQ (nearestSquared p A)) A
              = map (fun _ => zero) A).
  { apply map_ext_in. intros p Hp.
    rewrite (nearestSquared_member p A FA Hp).
    cbn. change zero with (fin 0). apply fin_eq. exact S0. }
  rewrite E, sort_zeros, sum_zeros, !Array_get_zeros.
  rewrite length_map, mean_zero. reflexivity.
Qed.

(** The Chamfer statistics of a point cloud with finite coordinates
    against itself are all 0 (with a square root that maps 0 to 0). *)
Theorem chamferDistance_self (sqrtQ : Q -> Q) (A : list Vec3) :
  (sqrtQ 0 == 0)%Q -> finitePoints A ->
  chamferDistance sqrtQ A A =
    {| meanAB := zero; meanBA := zero;
       p95AB := zero; p95BA := zero;
       maxAB := zero; maxBA := zero |}.
Proof.
  intros S0 FA. unfold chamferDistance.
  now rewrite (oneWay_self sqrtQ A S0 FA).
Qed.

Lemma finitePoints_cloudA : finitePoints cloudA.
Proof. repeat constructor; apply finiteVec_Fin. Qed.

Lemma chamferDistance_self_witness :
  chamferDistance sqrt_fix cloudA cloudA =
    {| meanAB := zero; meanBA := zero;
       p95AB := zero; p95BA := zero;
       maxAB := zero; maxBA := zero |}.
Proof.
  apply (chamferDistance_self sqrt_fix cloudA).
  - reflexivity.
  - exact finitePoints_cloudA.
Defined.

(** ** Order of the Chamfer statistics *)



Section ChamferOrder.
Variable sqrtQ : Q -> Q.
Hypothesis sqrtQ_nonneg : forall q, (0 <= q)%Q -> (0 <= sqrtQ q)%Q.



End ChamferOrder.



(** ** The triangle picked by the sampler *)






Section PickFacts.
Variable sqrtQ : Q -> Q.
Hypothesis sqrtQ_nonneg : forall q, (0 <= q)%Q -> (0 <= sqrtQ q)%Q.





End PickFacts.



(** ** Printing with any precision *)




Lemma toFixed_in_range (q : Q) (p : Z) :
  0 <= p <= 100 ->
  toFixed (Fin q) p
  = let s := match (q ?= 0)%Q with Lt => "-"%string | _ => EmptyString end in
    if Qle_bool (pow10 21) (Qabs q) then Ok (s ++ toString_large (Qabs q))%string
    else Ok (s ++ fixed_digits (Qabs q) p)%string.
Proof.
  intros Hp. unfold toFixed.
  destruct (Z.ltb_spec p 0); [lia|]. destruct (Z.ltb_spec 100 p); [lia|].
  reflexivity.
Qed.













(** ** From a binary file to text and back *)






(** ** The precision argument *)

Lemma formatFloat_in_range (x : num) (p : Z) :
  0 <= p <= 100 -> exists s, formatFloat x p = Ok s.
Proof.
  intros Hp. unfold formatFloat.
  destruct x as [| | |q]; cbn [Number_isFinite negb]; eauto.
  rewrite toFixed_in_range by exact Hp. cbv zeta.
  destruct (Qle_bool _ _); cbn [bind]; eauto.
Qed.

Lemma formatFloat_out_of_range (x : num) (p : Z) :
  p < 0 \/ 100 < p ->
  formatFloat x p
  = if Number_isFinite x then Throw toFixedRangeError else Ok "0"%string.
Proof.
  intros Hp. unfold formatFloat, toFixed.
  assert (R : (p <? 0) || (100 <? p) = true).
  { apply orb_true_iff. destruct Hp; [left; now apply Z.ltb_lt|right; now apply Z.ltb_lt]. }
  rewrite R. destruct x; reflexivity.
Qed.

Lemma formatFloat3_in_range (v : Vec3) (p : Z) :
  0 <= p <= 100 -> exists s, formatFloat3 v p = Ok s.
Proof.
  intros Hp. destruct v as [[x y] z]. unfold formatFloat3.
  destruct (formatFloat_in_range x p Hp) as (sx & ->).
  destruct (formatFloat_in_range y p Hp) as (sy & ->).
  destruct (formatFloat_in_range z p Hp) as (sz & ->).
  cbn [bind]. eauto.
Qed.

Lemma formatFloat3_out_of_range (v : Vec3) (p : Z) :
  p < 0 \/ 100 < p ->
  formatFloat3 v p
  = if anyFiniteVec v then Throw toFixedRangeError else Ok "0 0 0"%string.
Proof.
  intros Hp. destruct v as [[x y] z]. unfold formatFloat3, anyFiniteVec.
  rewrite !(formatFloat_out_of_range _ p Hp).
  destruct (Number_isFinite x); [reflexivity|].
  destruct (Number_isFinite y); [reflexivity|].
  destruct (Number_isFinite z); reflexivity.
Qed.

Lemma facetLines_in_range (t : Triangle) (p : Z) :
  0 <= p <= 100 -> exists ls, facetLines t p = Ok ls.
Proof.
  intros Hp. unfold facetLines. destruct (vertices t) as [[a b] c].
  destruct (formatFloat3_in_range (normal t) p Hp) as (sn & ->).
  destruct (formatFloat3_in_range a p Hp) as (sa & ->).
  destruct (formatFloat3_in_range b p Hp) as (sb & ->).
  destruct (formatFloat3_in_range c p Hp) as (sc & ->).
  cbn [bind]. eauto.
Qed.

Lemma facetLines_out_of_range (t : Triangle) (p : Z) :
  p < 0 \/ 100 < p ->
  (anyFinite t = true -> facetLines t p = Throw toFixedRangeError)
  /\ (anyFinite t = false -> exists ls, facetLines t p = Ok ls).
Proof.
  intros Hp. unfold facetLines, anyFinite.
  destruct (vertices t) as [[a b] c].
  rewrite !(formatFloat3_out_of_range _ p Hp).
  destruct (anyFiniteVec (normal t)); [split; [reflexivity|discriminate]|].
  destruct (anyFiniteVec a); [split; [reflexivity|discriminate]|].
  destruct (anyFiniteVec b); [split; [reflexivity|discriminate]|].
  destruct (anyFiniteVec c); [split; [reflexivity|discriminate]|].
  cbn [bind orb]. split; [discriminate|eauto].
Qed.

Lemma allFacetLines_in_range (m : list Triangle) (p : Z) :
  0 <= p <= 100 -> exists ls, allFacetLines m p = Ok ls.
Proof.
  intros Hp. induction m as [|t m (ls & IH)]; cbn [allFacetLines]; [eauto|].
  destruct (facetLines_in_range t p Hp) as (l & ->). rewrite IH.
  cbn [bind]. eauto.
Qed.

Lemma allFacetLines_out_of_range (m : list Triangle) (p : Z) :
  p < 0 \/ 100 < p ->
  (existsb anyFinite m = true -> allFacetLines m p = Throw toFixedRangeError)
  /\ (existsb anyFinite m = false -> exists ls, allFacetLines m p = Ok ls).
Proof.
  intros Hp. induction m as [|t m [IH1 IH2]]; cbn [allFacetLines existsb].
  - split; [discriminate|eauto].
  - destruct (facetLines_out_of_range t p Hp) as [F1 F2].
    destruct (anyFinite t); cbn [orb].
    + split; [|discriminate]. intros _. now rewrite F1.
    + destruct (F2 eq_refl) as (l & ->). cbn [bind]. split.
      * intros H. now rewrite (IH1 H).
      * intros H. destruct (IH2 H) as (ls & ->). cbn [bind]. eauto.
Qed.

(** [trianglesToAscii] and the precision: with a precision between 0 and
    100 every mesh is printed, whatever its coordinates.  With a
    precision outside that range the call throws the RangeError of
    [toFixed] as soon as the mesh holds one finite coordinate; a mesh with
    none (the empty mesh, for one) is still printed. *)
Theorem trianglesToAscii_precision_range
    (m : list Triangle) (solidName : string) (p : Z) :
  (0 <= p <= 100 -> exists text, trianglesToAscii m solidName p = Ok text)
  /\ (p < 0 \/ 100 < p ->
      (existsb anyFinite m = true ->
         trianglesToAscii m solidName p = Throw toFixedRangeError)
      /\ (existsb anyFinite m = false ->
          exists text, trianglesToAscii m solidName p = Ok text)).
Proof.
  unfold trianglesToAscii. split.
  - intros Hp. destruct (allFacetLines_in_range m p Hp) as (ls & ->).
    cbn [bind]. eauto.
  - intros Hp. destruct (allFacetLines_out_of_range m p Hp) as [H1 H2]. split.
    + intros H. now rewrite (H1 H).
    + intros H. destruct (H2 H) as (ls & ->). cbn [bind]. eauto.
Qed.
(** ** What the text decoder never does *)

(** The text decoder never fails, and no coordinate it returns is NaN:
    each coordinate of a decoded triangle, its normal included, is a
    finite decimal fraction or an infinity (a token that is not a number
    is read as 0). *)
Theorem parseAsciiStl_never_NaN (text : string) :
  exists m,
    StlUtils.parseAsciiStl text = Ok m
    /\ Forall decimalTriangle m
    /\ Forall (fun t => forall i, coord i (normal t) <> NaN) m
    /\ Forall (fun t => forall v, isVertexOf v [t] -> forall i, coord i v <> NaN) m.
Proof.
  destruct (parseLoop_total (linesOf text) (length (linesOf text)) 0%nat [])
    as (m & E & _); [lia|].
  exists m. split; [exact E|].
  pose proof (parseAsciiStl_decimal text m E) as D.
  split; [exact D|].
  assert (N : forall v i, decimalVec v -> coord i v <> NaN).
  { intros v i Hv Hn. specialize (Hv i). rewrite Hn in Hv. exact Hv. }
  split.
  - eapply Forall_impl; [|exact D]. intros t Ht i.
    unfold decimalTriangle in Ht. destruct (vertices t) as [[a b] c].
    apply N. tauto.
  - eapply Forall_impl; [|exact D].
    intros t Ht v (t' & a & b & c & [<-|[]] & Hv & Hor) i.
    unfold decimalTriangle in Ht. rewrite Hv in Ht.
    apply N. destruct Hor as [->|[->| ->]]; tauto.
Qed.

(** *** No more triangles than facet lines *)

Lemma filter_skipn_le {A} (f : A -> bool) (l : list A) (a b : nat) :
  (a <= b)%nat ->
  (length (filter f (skipn b l)) <= length (filter f (skipn a l)))%nat.
Proof.
  revert a b. induction l as [|x l IH]; intros a b Hab.
  - now rewrite !skipn_nil.
  - destruct a as [|a].
    + destruct b as [|b]; [lia|]. cbn [skipn].
      specialize (IH 0%nat b ltac:(lia)). cbn [skipn] in IH.
      cbn [filter]. destruct (f x); cbn [length]; lia.
    + destruct b as [|b]; [lia|]. cbn [skipn]. apply IH. lia.
Qed.

Lemma skipn_nth_cons {A} (l : list A) (i : nat) (d : A) :
  (i < length l)%nat -> skipn i l = nth i l d :: skipn (S i) l.
Proof.
  revert i. induction l as [|x l IH]; intros i Hi; [cbn in Hi; lia|].
  destruct i as [|i]; [reflexivity|]. cbn [skipn nth]. apply IH.
  cbn [length] in Hi. lia.
Qed.

Lemma parseLoop_count (lines : list string) (fuel : nat) :
  forall i acc,
    (length lines - i <= fuel)%nat ->
    exists tris,
      parseLoop fuel lines i acc = Ok tris
      /\ (length tris
          <= length acc + length (filter isFacetLine (skipn i lines)))%nat.
Proof.
  induction fuel as [|fuel IH]; intros i acc Hfuel.
  - cbn [parseLoop]. destruct (Nat.ltb_spec i (length lines)); [lia|].
    exists acc. split; [reflexivity|lia].
  - cbn [parseLoop]. destruct (Nat.ltb_spec i (length lines)) as [L|L].
    + unfold lineAt. fold (isFacetLine (nth i lines EmptyString)).
      rewrite (skipn_nth_cons lines i EmptyString L). cbn [filter].
      destruct (isFacetLine (nth i lines EmptyString)) eqn:F.
      * pose proof (parseFacet_index lines i) as G.
        destruct (parseFacet lines i) as [t j] eqn:P. cbn [snd] in G.
        destruct (IH (S j) (match t with Some tri => acc ++ [tri] | None => acc end))
          as (tris & E & Hc); [lia|].
        exists tris. split; [exact E|].
        pose proof (filter_skipn_le isFacetLine lines (S i) (S j) ltac:(lia)).
        cbn [length].
        destruct t; [rewrite length_app in Hc; cbn [length] in Hc|]; lia.
      * destruct (IH (S i) acc) as (tris & E & Hc); [lia|].
        exists tris. split; [exact E|exact Hc].
    + exists acc. split; [reflexivity|lia].
Qed.

(** The decoder returns at most one triangle per line that begins (after
    white space) with [facet normal]; a text without such a line decodes
    to the empty mesh. *)
Theorem parseAsciiStl_at_most_one_per_facet_line (text : string) :
  exists m,
    StlUtils.parseAsciiStl text = Ok m
    /\ (length m <= length (filter isFacetLine (linesOf text)))%nat
    /\ (filter isFacetLine (linesOf text) = [] -> m = []).
Proof.
  destruct (parseLoop_count (linesOf text) (length (linesOf text)) 0%nat [])
    as (m & E & Hc); [lia|].
  exists m. split; [exact E|]. cbn [length skipn Nat.add] in Hc.
  split; [exact Hc|].
  intros H. rewrite H in Hc. destruct m; [reflexivity|cbn in Hc; lia].
Qed.

(** *** Line endings *)

Lemma trimEnd_idempotent (s : string) : trimEnd (trimEnd s) = trimEnd s.
Proof.
  induction s as [|c s IH]; [reflexivity|].
  cbn [trimEnd].
  destruct (isEmpty (trimEnd s) && isWhiteSpace c) eqn:E; [reflexivity|].
  cbn [trimEnd]. rewrite IH, E. reflexivity.
Qed.

Lemma trimEnd_first (c : ascii) (s : string) :
  isWhiteSpace c = false ->
  trimEnd (String c s) = String c (trimEnd s).
Proof.
  intros H. cbn [trimEnd]. now rewrite H, andb_false_r.
Qed.

Lemma trimStart_shape (s : string) :
  trimStart s = EmptyString
  \/ exists c r, trimStart s = String c r /\ isWhiteSpace c = false.
Proof.
  induction s as [|c s IH]; [now left|].
  cbn [trimStart]. destruct (isWhiteSpace c) eqn:W; [exact IH|].
  right. now exists c, s.
Qed.

Lemma trim_idempotent (s : string) : trim (trim s) = trim s.
Proof.
  unfold trim. destruct (trimStart_shape s) as [->|(c & r & -> & W)];
    [reflexivity|].
  rewrite (trimEnd_first c r W). cbn [trimStart]. rewrite W.
  rewrite <- (trimEnd_first c r W). apply trimEnd_idempotent.
Qed.

Lemma trimEnd_app_ws (s : string) (c : ascii) :
  isWhiteSpace c = true ->
  trimEnd (s ++ String c EmptyString) = trimEnd s.
Proof.
  intros W. induction s as [|d s IH].
  - cbn [append trimEnd isEmpty andb]. now rewrite W.
  - cbn [append trimEnd]. now rewrite IH.
Qed.

Lemma trim_app_ws (s : string) (c : ascii) :
  isWhiteSpace c = true -> trim (s ++ String c EmptyString) = trim s.
Proof.
  intros W. unfold trim. induction s as [|d s IH].
  - cbn [append trimStart]. now rewrite W.
  - cbn [append trimStart]. destruct (isWhiteSpace d); [exact IH|].
    change (String d (s ++ String c EmptyString))
      with (String d s ++ String c EmptyString)%string.
    now apply trimEnd_app_ws.
Qed.

Lemma dropCR_cases (l : string) :
  dropCR l = l \/ l = (dropCR l ++ String CR EmptyString)%string.
Proof.
  induction l as [|c l IH]; [now left|].
  cbn [dropCR]. destruct l as [|d l'].
  - destruct (Ascii.eqb_spec c CR) as [->|]; [now right|now left].
  - destruct IH as [IH|IH].
    + left. now rewrite IH.
    + right. cbn [append]. now rewrite <- IH.
Qed.

Lemma trim_dropCR (l : string) : trim (dropCR l) = trim l.
Proof.
  destruct (dropCR_cases l) as [->|E]; [reflexivity|].
  rewrite E at 2. symmetry. now apply trim_app_ws.
Qed.

(** The decoder looks at each line through [trim] only. *)
Lemma scanTo_map_trim (tok : string) (rest : list string) (i : nat) :
  scanTo tok (map trim rest) i = scanTo tok rest i.
Proof.
  revert i. induction rest as [|l rest IH]; intros i; [reflexivity|].
  cbn [map scanTo]. rewrite trim_idempotent, IH. reflexivity.
Qed.

Lemma skipn_map {A B} (f : A -> B) (l : list A) (n : nat) :
  skipn n (map f l) = map f (skipn n l).
Proof.
  revert n. induction l as [|x l IH]; intros [|n]; try reflexivity.
  cbn [map skipn]. apply IH.
Qed.

Lemma skipUntil_map_trim (tok : string) (lines : list string) (i : nat) :
  skipUntil tok (map trim lines) i = skipUntil tok lines i.
Proof.
  unfold skipUntil. rewrite skipn_map. apply scanTo_map_trim.
Qed.

Lemma readVertices_map_trim (k : nat) (rest : list string) (i : nat) :
  readVertices k (map trim rest) i = readVertices k rest i.
Proof.
  revert rest i. induction k as [|k IH]; intros rest i; [reflexivity|].
  destruct rest as [|l rest]; [reflexivity|].
  cbn [map readVertices]. rewrite trim_idempotent, IH. reflexivity.
Qed.

Lemma lineAt_map_trim (lines : list string) (i : nat) :
  lineAt (map trim lines) i = lineAt lines i.
Proof.
  unfold lineAt.
  change EmptyString with (trim EmptyString) at 1.
  rewrite map_nth. apply trim_idempotent.
Qed.

Lemma parseFacet_map_trim (lines : list string) (i : nat) :
  parseFacet (map trim lines) i = parseFacet lines i.
Proof.
  unfold parseFacet.
  rewrite lineAt_map_trim, !skipUntil_map_trim, skipn_map, readVertices_map_trim.
  destruct (readVertices 3 _ _) as [verts j].
  now rewrite skipUntil_map_trim.
Qed.

Lemma parseLoop_map_trim (lines : list string) (fuel : nat) :
  forall i acc,
    parseLoop fuel (map trim lines) i acc = parseLoop fuel lines i acc.
Proof.
  induction fuel as [|fuel IH]; intros i acc; cbn [parseLoop];
    rewrite length_map; [reflexivity|].
  rewrite lineAt_map_trim, parseFacet_map_trim.
  destruct (i <? length lines)%nat; [|reflexivity].
  destruct (startsWith _ _); [|apply IH].
  destruct (parseFacet lines i) as [t j]. apply IH.
Qed.

(** Lines joined by CR LF are split again into the same lines. *)
Lemma replace_crlf_CRLF (l r : string) :
  contains LF l = false ->
  replace_crlf (l ++ String CR (String LF r))
  = (l ++ String LF (replace_crlf r))%string.
Proof.
  intros H. induction l as [|c l IH].
  - reflexivity.
  - cbn [contains] in H. apply orb_false_iff in H as [Hc Hl].
    cbn [append].
    destruct l as [|d l'].
    + cbn [append]. rewrite replace_crlf_two.
      change (Ascii.eqb CR LF) with false. rewrite andb_false_r.
      f_equal; try (rewrite replace_crlf_two; reflexivity).
    + cbn [append]. rewrite replace_crlf_two.
      assert (Nd : Ascii.eqb d LF = false).
      { cbn [contains] in Hl. now apply orb_false_iff in Hl as [Hd _]. }
      rewrite Nd, andb_false_r. f_equal. exact (IH Hl).
Qed.

Lemma linesOf_join_CRLF (lines : list string) :
  lines <> [] ->
  Forall (fun l => contains LF l = false) lines ->
  linesOf (join (String CR (String LF EmptyString)) lines) = lines.
Proof.
  intros Hne H. induction H as [|l rest Hl Hrest IH]; [congruence|].
  destruct rest as [|l2 rest'].
  - cbn [join String.concat]. unfold linesOf.
    rewrite (replace_crlf_no_LF l Hl). now apply split_on_no_LF.
  - specialize (IH ltac:(discriminate)).
    change (join (String CR (String LF EmptyString)) (l :: l2 :: rest'))
      with (l ++ String CR (String LF
              (join (String CR (String LF EmptyString)) (l2 :: rest'))))%string.
    unfold linesOf in *.
    rewrite (replace_crlf_CRLF l _ Hl).
    rewrite (split_on_line _ _ Hl).
    rewrite IH. reflexivity.
Qed.

Lemma map_trim_dropCR (lines : list string) :
  lines <> [] ->
  map trim (map dropCR (removelast lines) ++ [last lines EmptyString])
  = map trim lines.
Proof.
  intros Hne. induction lines as [|l rest IH]; [congruence|].
  destruct rest as [|l2 rest']; [reflexivity|].
  change (removelast (l :: l2 :: rest')) with (l :: removelast (l2 :: rest')).
  change (last (l :: l2 :: rest') EmptyString) with (last (l2 :: rest') EmptyString).
  cbn [map app]. rewrite trim_dropCR. f_equal.
  apply IH. discriminate.
Qed.

(** Line endings do not matter: the same lines joined by CR LF or by LF
    decode to the same mesh. *)
Theorem parseAsciiStl_line_endings (lines : list string) :
  lines <> [] ->
  Forall (fun l => contains LF l = false) lines ->
  StlUtils.parseAsciiStl (join (String CR (String LF EmptyString)) lines)
  = StlUtils.parseAsciiStl (join (String LF EmptyString) lines).
Proof.
  intros Hne H. unfold parseAsciiStl.
  fold (linesOf (join (String CR (String LF EmptyString)) lines)).
  fold (linesOf (join (String LF EmptyString) lines)).
  rewrite (linesOf_join_CRLF lines Hne H), (linesOf_join lines Hne H).
  rewrite <- (parseLoop_map_trim lines).
  rewrite <- (parseLoop_map_trim (map dropCR (removelast lines) ++ _)).
  rewrite (map_trim_dropCR lines Hne).
  f_equal. rewrite length_app, length_map. cbn [length].
  destruct lines as [|l rest]; [congruence|].
  rewrite (app_removelast_last EmptyString (l := l :: rest)) at 1 by discriminate.
  rewrite length_app. reflexivity.
Qed.

Lemma no_LF_lines (lines : list string) :
  forallb (fun l => negb (contains LF l)) lines = true ->
  Forall (fun l => contains LF l = false) lines.
Proof.
  intros H. apply Forall_forall. intros l Hl.
  rewrite forallb_forall in H. specialize (H l Hl).
  now apply negb_true_iff in H.
Qed.

Lemma parseAsciiStl_line_endings_witness :
  StlUtils.parseAsciiStl
    (join (String CR (String LF EmptyString)) (split_on LF oneTriangleStl))
  = StlUtils.parseAsciiStl
      (join (String LF EmptyString) (split_on LF oneTriangleStl)).
Proof.
  apply (parseAsciiStl_line_endings (split_on LF oneTriangleStl)).
  - discriminate.
  - apply no_LF_lines. reflexivity.
Defined.
(** ** The metric bundle of two meshes *)





Section BundleFacts.
Variable sqrtQ : Q -> Q.
Hypothesis sqrtQ_nonneg : forall q, (0 <= q)%Q -> (0 <= sqrtQ q)%Q.
Hypothesis sqrtQ_unit : forall q, (0 <= q < 1)%Q -> (0 <= sqrtQ q <= 1)%Q.

(** The sampler on a non-empty mesh with finite coordinates: as many
    points as asked, with finite coordinates. *)
Lemma sampleSurfacePoints_finite (rng : Rng) (m : list Triangle) (N : Z) :
  unitRng rng -> finiteMesh m -> m <> [] ->
  Z.of_nat (length m) <= 2 ^ 30 -> 0 < N ->
  exists pts,
    sampleSurfacePoints sqrtQ rng m N = Ok pts
    /\ length pts = Z.to_nat N /\ finitePoints pts.
Proof.
  intros Hr Fm Hne Hmax HN. unfold sampleSurfacePoints.
  assert (Hlen : (0 < length m)%nat) by (destruct m; [congruence|cbn; lia]).
  destruct (Nat.eqb_spec (length m) 0) as [E|_]; [lia|].
  destruct (Z.leb_spec N 0) as [?|_]; [lia|]. cbn [orb].
  apply (sampleLoop_ok sqrtQ rng m (prefixSums (sampleWeights sqrtQ m)) finiteVec).
  - now rewrite length_prefixSums, length_sampleWeights.
  - exact Hlen.
  - exact Hmax.
  - intros tri k a b c Hin Hv.
    unfold finiteMesh in Fm. rewrite Forall_forall in Fm.
    specialize (Fm tri Hin). unfold finiteTriangle in Fm. rewrite Hv in Fm.
    destruct Fm as (Fa & Fb & Fc).
    destruct (samplePoint_convex sqrtQ rng a b c k sqrtQ_unit Hr Fa Fb Fc)
      as [F _]. exact F.
Qed.

Lemma aabbDiagonal_finite (m : list Triangle) :
  finiteMesh m -> m <> [] ->
  isNonnegFinite (aabbDiagonal sqrtQ (aabbOfTriangles m)).
Proof.
  intros Fm Hne.
  destruct (aabbOfTriangles_finite_bounds m Hne Fm)
    as (l0 & l1 & l2 & h0 & h1 & h2 & ->).
  unfold aabbDiagonal. cbn [min max].
  repeat (progress (cbn [nsub nmul nadd]; unfold fin)).
  apply (Math_sqrt_nonneg sqrtQ sqrtQ_nonneg).
  rewrite !Qred_correct.
  pose proof (Qsquare_nonneg (h0 - l0)). pose proof (Qsquare_nonneg (h1 - l1)).
  pose proof (Qsquare_nonneg (h2 - l2)). lra.
Qed.




End BundleFacts.

Lemma length_nonempty {A} (l : list A) (n : nat) :
  length l = n -> (0 < n)%nat -> l <> [].
Proof. intros H Hn ->. cbn in H. lia. Qed.




(** ** File names *)

Import DownloadStls.

Lemma replace_class_free (cls : ascii -> bool) (r : ascii) (s : string) :
  cls r = false ->
  forallb_str (fun c => negb (cls c)) (replace_class cls r s) = true.
Proof.
  intros Hr. induction s as [|c s IH]; [reflexivity|].
  cbn [replace_class map_str forallb_str].
  fold (replace_class cls r s). rewrite IH, andb_true_r.
  destruct (cls c) eqn:E; [now rewrite Hr|now rewrite E].
Qed.

Lemma replace_class_keeps (cls other : ascii -> bool) (r : ascii) (s : string) :
  other r = false ->
  forallb_str (fun c => negb (other c)) s = true ->
  forallb_str (fun c => negb (other c)) (replace_class cls r s) = true.
Proof.
  intros Hr. induction s as [|c s IH]; [reflexivity|].
  cbn [replace_class map_str forallb_str]. fold (replace_class cls r s).
  intros H. apply andb_true_iff in H as [Hc Hs].
  rewrite (IH Hs), andb_true_r.
  destruct (cls c); [now rewrite Hr|exact Hc].
Qed.

Lemma replace_class_id (cls : ascii -> bool) (r : ascii) (s : string) :
  forallb_str (fun c => negb (cls c)) s = true -> replace_class cls r s = s.
Proof.
  induction s as [|c s IH]; [reflexivity|].
  cbn [replace_class map_str forallb_str]. fold (replace_class cls r s).
  intros H. apply andb_true_iff in H as [Hc Hs].
  apply negb_true_iff in Hc. now rewrite Hc, (IH Hs).
Qed.

(** The result of [collapse_ws] on a text without control or reserved
    characters. *)
Lemma collapse_ws_clean (s : string) :
  forallb_str (fun c => negb (isControl c)) s = true ->
  forallb_str (fun c => negb (isReserved c)) s = true ->
  forall p w, (p = true -> w = true) ->
    cleanFrom p (collapse_ws w s) = true.
Proof.
  induction s as [|c s IH]; intros H1 H2 p w Hpw; [reflexivity|].
  cbn [forallb_str] in H1, H2.
  apply andb_true_iff in H1 as [C1 S1]. apply andb_true_iff in H2 as [C2 S2].
  cbn [collapse_ws]. destruct (isWhiteSpace c) eqn:W.
  - destruct w.
    + apply IH; auto.
    + cbn [cleanFrom]. change (isWhiteSpace " ") with true.
      change (isControl " ") with false. change (isReserved " ") with false.
      cbn [negb andb]. change (Ascii.eqb " " " ") with true. cbn [andb].
      destruct p; [specialize (Hpw eq_refl); discriminate|].
      cbn [negb andb]. apply IH; auto.
  - cbn [cleanFrom]. rewrite C1, C2, W. cbn [andb]. apply IH; auto.
Qed.

Lemma cleanFrom_head (p q : bool) (c : ascii) (s : string) :
  isWhiteSpace c = false ->
  cleanFrom p (String c s) = cleanFrom q (String c s).
Proof. intros W. cbn [cleanFrom]. now rewrite W. Qed.

Lemma cleanFrom_trimStart (s : string) :
  forall p, cleanFrom p s = true -> cleanFrom false (trimStart s) = true.
Proof.
  induction s as [|c s IH]; intros p H; [reflexivity|].
  cbn [trimStart]. destruct (isWhiteSpace c) eqn:W.
  - cbn [cleanFrom] in H. rewrite W in H.
    apply andb_true_iff in H as [_ H].
    apply andb_true_iff in H as [_ H]. now apply (IH true).
  - now rewrite (cleanFrom_head false p c s W).
Qed.

Lemma cleanFrom_trimEnd (s : string) :
  forall p, cleanFrom p s = true -> cleanFrom p (trimEnd s) = true.
Proof.
  induction s as [|c s IH]; intros p H; [reflexivity|].
  cbn [trimEnd].
  destruct (isEmpty (trimEnd s) && isWhiteSpace c); [reflexivity|].
  cbn [cleanFrom] in *.
  apply andb_true_iff in H as [Hc H]. rewrite Hc. cbn [andb].
  destruct (isWhiteSpace c).
  - apply andb_true_iff in H as [H1 H]. rewrite H1. cbn [andb].
    now apply IH.
  - now apply IH.
Qed.

Lemma cleanFrom_chars (s : string) :
  forall p, cleanFrom p s = true ->
    forallb_str (fun c => negb (isControl c)) s = true
    /\ forallb_str (fun c => negb (isReserved c)) s = true.
Proof.
  induction s as [|c s IH]; intros p H; [split; reflexivity|].
  cbn [cleanFrom] in H.
  apply andb_true_iff in H as [Hc H].
  apply andb_true_iff in Hc as [C1 C2].
  cbn [forallb_str]. rewrite C1, C2. cbn [andb].
  destruct (isWhiteSpace c).
  - apply andb_true_iff in H as [_ H]. now apply (IH true).
  - now apply (IH false).
Qed.

Lemma collapse_ws_id (s : string) :
  forall p, cleanFrom p s = true -> collapse_ws p s = s.
Proof.
  induction s as [|c s IH]; intros p H; [reflexivity|].
  cbn [cleanFrom] in H. apply andb_true_iff in H as [_ H].
  cbn [collapse_ws]. destruct (isWhiteSpace c).
  - apply andb_true_iff in H as [H1 H].
    apply andb_true_iff in H1 as [E P].
    apply Ascii.eqb_eq in E. subst c. apply negb_true_iff in P. subst p.
    now rewrite (IH true H).
  - now rewrite (IH false H).
Qed.

Lemma sanitizeFilename_clean (name : string) :
  cleanName (sanitizeFilename name).
Proof.
  unfold sanitizeFilename, cleanName.
  set (a := replace_class isControl " " name).
  set (b := replace_class isReserved "-" a).
  assert (A1 : forallb_str (fun c => negb (isControl c)) a = true)
    by (apply replace_class_free; reflexivity).
  assert (B1 : forallb_str (fun c => negb (isControl c)) b = true)
    by (apply replace_class_keeps; [reflexivity|exact A1]).
  assert (B2 : forallb_str (fun c => negb (isReserved c)) b = true)
    by (apply replace_class_free; reflexivity).
  pose proof (collapse_ws_clean b B1 B2 false false (fun H => H)) as C.
  split.
  - unfold trim. apply cleanFrom_trimEnd. now apply (cleanFrom_trimStart _ false).
  - apply trim_idempotent.
Qed.

Lemma sanitizeFilename_fixed (s : string) :
  cleanName s -> sanitizeFilename s = s.
Proof.
  intros [C T]. unfold sanitizeFilename.
  destruct (cleanFrom_chars s false C) as [C1 C2].
  rewrite (replace_class_id isControl _ s C1).
  rewrite (replace_class_id isReserved _ s C2).
  now rewrite (collapse_ws_id s false C).
Qed.

(** The name [sanitizeFilename] returns holds no control character and no
    reserved character ([\ / : * ? < > |] and the double quote); its white
    space is single spaces between other characters, none at either
    end. *)
Theorem sanitizeFilename_is_clean (name : string) :
  let s := sanitizeFilename name in
  forallb_str (fun c => negb (isControl c) && negb (isReserved c)) s = true
  /\ cleanFrom false s = true
  /\ trim s = s.
Proof.
  intros s. destruct (sanitizeFilename_clean name) as [C T]. fold s in C, T.
  destruct (cleanFrom_chars s false C) as [C1 C2].
  split; [|split; assumption].
  clear - C1 C2. induction s as [|c s IH]; [reflexivity|].
  cbn [forallb_str] in *.
  apply andb_true_iff in C1 as [A1 A2]. apply andb_true_iff in C2 as [B1 B2].
  now rewrite A1, B1, (IH A2 B2).
Qed.

(** [sanitizeFilename] changes nothing in a name it returned: it is
    idempotent, and the names it leaves unchanged are exactly the clean
    ones. *)
Theorem sanitizeFilename_idempotent (name : string) :
  sanitizeFilename (sanitizeFilename name) = sanitizeFilename name
  /\ (sanitizeFilename name = name <-> cleanName name).
Proof.
  split.
  - apply sanitizeFilename_fixed, sanitizeFilename_clean.
  - split.
    + intros E. rewrite <- E. apply sanitizeFilename_clean.
    + apply sanitizeFilename_fixed.
Qed.
(** ** Cleaning the text of a generated model *)

Import GenerateStl.

Lemma filter_all {A} (f : A -> bool) (l : list A) :
  Forall (fun x => f x = true) l -> filter f l = l.
Proof.
  induction 1 as [|x l Hx Hl IH]; [reflexivity|].
  cbn [filter]. now rewrite Hx, IH.
Qed.

Lemma filter_filter {A} (f : A -> bool) (l : list A) :
  filter f (filter f l) = filter f l.
Proof.
  apply filter_all. apply Forall_forall. intros x Hx.
  now apply filter_In in Hx.
Qed.

Lemma dropCR_no_CR (l : string) : contains CR l = false -> dropCR l = l.
Proof.
  induction l as [|c l IH]; [reflexivity|].
  cbn [contains]. intros H. apply orb_false_iff in H as [Hc Hl].
  cbn [dropCR]. destruct l as [|d l'].
  - now rewrite Hc.
  - now rewrite (IH Hl).
Qed.

Lemma map_dropCR_plain (lines : list string) :
  Forall (fun l => dropCR l = l) lines -> map dropCR lines = lines.
Proof.
  induction 1 as [|l ls Hl _ IH]; [reflexivity|].
  cbn [map]. now rewrite Hl, IH.
Qed.

(** The lines of a text whose lines have no line feed and no final
    carriage return. *)
Lemma linesOf_join_plain (lines : list string) :
  lines <> [] -> Forall plainLine lines ->
  linesOf (join (String LF EmptyString) lines) = lines.
Proof.
  intros Hne Hp.
  assert (NL : Forall (fun l => contains LF l = false) lines)
    by (eapply Forall_impl; [|exact Hp]; intros l [H _]; exact H).
  assert (ND : Forall (fun l => dropCR l = l) lines)
    by (eapply Forall_impl; [|exact Hp]; intros l [_ H]; exact H).
  rewrite (linesOf_join lines Hne NL).
  rewrite (app_removelast_last EmptyString Hne) in ND.
  apply Forall_app in ND as [ND _].
  rewrite (map_dropCR_plain _ ND).
  symmetry. now apply app_removelast_last.
Qed.

(** The text [cleanStlText] works on, after its first statement. *)
Lemma fences_dropped (lines : list string) :
  Forall plainLine lines ->
  trim (join (String LF EmptyString)
          (filter (fun line => negb (isFenceLine line))
             (linesOf (join (String LF EmptyString) lines))))
  = trim (join (String LF EmptyString)
            (filter (fun line => negb (isFenceLine line)) lines)).
Proof.
  intros Hp. destruct lines as [|l ls]; [reflexivity|].
  now rewrite (linesOf_join_plain (l :: ls) ltac:(discriminate) Hp).
Qed.

(** Lines that begin (after white space) with three backquotes are
    ignored: a text and the same text without its fence lines are cleaned
    to the same result.  The lines hold no line feed and no final
    carriage return. *)
Theorem cleanStlText_ignores_fence_lines (lines : list string) :
  Forall plainLine lines ->
  cleanStlText (join (String LF EmptyString) lines)
  = cleanStlText
      (join (String LF EmptyString)
         (filter (fun line => negb (isFenceLine line)) lines)).
Proof.
  intros Hp. unfold cleanStlText.
  fold (linesOf (join (String LF EmptyString) lines)).
  fold (linesOf (join (String LF EmptyString)
                   (filter (fun line => negb (isFenceLine line)) lines))).
  rewrite (fences_dropped lines Hp).
  rewrite (fences_dropped (filter (fun line => negb (isFenceLine line)) lines)).
  - now rewrite filter_filter.
  - apply Forall_forall. intros l Hl. apply filter_In in Hl as [Hl _].
    rewrite Forall_forall in Hp. now apply Hp.
Qed.

Lemma plainLine_fencedLines : Forall plainLine fencedLines.
Proof.
  unfold fencedLines.
  repeat (apply Forall_cons; [split; reflexivity|]). apply Forall_nil.
Qed.

Lemma cleanStlText_ignores_fence_lines_witness :
  cleanStlText (join (String LF EmptyString) fencedLines)
  = cleanStlText
      (join (String LF EmptyString)
         (filter (fun line => negb (isFenceLine line)) fencedLines)).
Proof.
  apply (cleanStlText_ignores_fence_lines fencedLines).
  exact plainLine_fencedLines.
Defined.

(** *** A well-formed text is left as it is *)

Lemma toLowerCase_app (a b : string) :
  toLowerCase (a ++ b) = (toLowerCase a ++ toLowerCase b)%string.
Proof.
  induction a as [|c a IH]; [reflexivity|].
  cbn [append toLowerCase map_str]. fold (toLowerCase (a ++ b)).
  fold (toLowerCase a). now rewrite IH.
Qed.

Lemma toLowerCase_length (s : string) :
  String.length (toLowerCase s) = String.length s.
Proof.
  induction s as [|c s IH]; [reflexivity|].
  cbn [toLowerCase map_str String.length]. fold (toLowerCase s). now rewrite IH.
Qed.

Lemma drop_app (a b : string) (j : nat) :
  drop (String.length a + j) (a ++ b) = drop j b.
Proof.
  induction a as [|c a IH]; [reflexivity|]. exact IH.
Qed.

Lemma drop_length (s : string) (j : nat) :
  (String.length (drop j s) <= String.length s)%nat.
Proof.
  revert s. induction j as [|j IH]; intros s; [cbn; lia|].
  destruct s as [|c s]; [cbn; lia|]. cbn [drop String.length].
  specialize (IH s). lia.
Qed.

Lemma contains_drop (c : ascii) (s : string) (j : nat) :
  contains c s = false -> contains c (drop j s) = false.
Proof.
  revert s. induction j as [|j IH]; intros s H; [exact H|].
  destruct s as [|d s]; [reflexivity|].
  cbn [contains] in H. apply orb_false_iff in H as [_ H].
  cbn [drop]. now apply IH.
Qed.

Lemma prefix_app (p r : string) : String.prefix p (p ++ r) = true.
Proof.
  induction p as [|c p IH]; [now destruct r|].
  cbn [append String.prefix]. destruct (ascii_dec c c); [exact IH|congruence].
Qed.

Lemma indexOf_from_char_none (c : ascii) (s : string) (i : Z) :
  contains c s = false -> indexOf_from (String c EmptyString) s i = -1.
Proof.
  revert i. induction s as [|d s IH]; intros i H; [reflexivity|].
  cbn [contains] in H. apply orb_false_iff in H as [Hd Hs].
  cbn [indexOf_from String.prefix].
  destruct (ascii_dec c d) as [E|_].
  - subst d. now rewrite Ascii.eqb_refl in Hd.
  - now apply IH.
Qed.

Lemma lastIndexOf_from_bounds (pat s : string) (i : Z) :
  lastIndexOf_from pat s i = -1
  \/ i <= lastIndexOf_from pat s i <= i + Z.of_nat (String.length s).
Proof.
  revert i. induction s as [|c s IH]; intros i.
  - cbn [lastIndexOf_from String.length]. rewrite Z.eqb_refl.
    destruct (String.prefix pat ""); [right; cbn; lia|now left].
  - cbn [lastIndexOf_from]. specialize (IH (i + 1)).
    destruct (Z.eqb_spec (lastIndexOf_from pat s (i + 1)) (-1)) as [E|N].
    + destruct (String.prefix pat (String c s)); [right|now left].
      cbn [String.length]. lia.
    + right. destruct IH as [IH|IH]; [congruence|].
      cbn [String.length]. lia.
Qed.

(** The last occurrence is at or after any occurrence. *)
Lemma lastIndexOf_from_ge (pat s : string) (k : nat) :
  forall i, 0 <= i ->
    (k <= String.length s)%nat ->
    String.prefix pat (drop k s) = true ->
    i + Z.of_nat k <= lastIndexOf_from pat s i.
Proof.
  revert k. induction s as [|c s IH]; intros k i Hi Hk Hp.
  - cbn [String.length] in Hk. assert (k = 0%nat) by lia. subst k.
    cbn [drop] in Hp. cbn [lastIndexOf_from]. rewrite Z.eqb_refl, Hp. lia.
  - cbn [lastIndexOf_from].
    pose proof (lastIndexOf_from_bounds pat s (i + 1)) as B.
    destruct (Z.eqb_spec (lastIndexOf_from pat s (i + 1)) (-1)) as [E|N].
    + destruct k as [|k].
      * cbn [drop] in Hp. rewrite Hp. lia.
      * cbn [drop String.length] in Hp, Hk.
        specialize (IH k (i + 1) ltac:(lia) ltac:(lia) Hp). lia.
    + destruct k as [|k].
      * destruct B as [B|B]; [congruence|lia].
      * cbn [drop String.length] in Hp, Hk.
        specialize (IH k (i + 1) ltac:(lia) ltac:(lia) Hp). lia.
Qed.

Lemma drop_toLowerCase (s : string) (j : nat) :
  drop j (toLowerCase s) = toLowerCase (drop j s).
Proof.
  revert s. induction j as [|j IH]; intros s; [reflexivity|].
  destruct s as [|c s]; [reflexivity|]. cbn [toLowerCase map_str drop].
  apply IH.
Qed.

Lemma substring_all (s : string) : substring 0 (String.length s) s = s.
Proof.
  induction s as [|c s IH]; [reflexivity|].
  cbn [String.length substring]. now rewrite IH.
Qed.

Lemma trimEnd_app_fixed (pre f : string) :
  f <> EmptyString -> trimEnd f = f -> trimEnd (pre ++ f) = (pre ++ f)%string.
Proof.
  intros Hne Hf. induction pre as [|c pre IH]; [exact Hf|].
  cbn [append trimEnd]. rewrite IH.
  destruct (pre ++ f)%string eqn:E; [|reflexivity].
  destruct pre; cbn in E; [congruence|discriminate].
Qed.

Lemma join_cons (sep l : string) (ls : list string) :
  ls <> [] -> join sep (l :: ls) = (l ++ sep ++ join sep ls)%string.
Proof.
  destruct ls; [congruence|reflexivity].
Qed.

(** A text made of lines ends with its last line. *)
Lemma join_last (lines : list string) (f : string) :
  exists pre,
    join (String LF EmptyString) (lines ++ [f]) = (pre ++ f)%string.
Proof.
  induction lines as [|l ls (pre & IH)].
  - exists EmptyString. reflexivity.
  - exists (l ++ String LF pre)%string.
    change ((l :: ls) ++ [f]) with (l :: (ls ++ [f])).
    rewrite join_cons by (destruct ls; discriminate).
    rewrite IH. cbn [append]. now rewrite append_assoc.
Qed.

Lemma indexOf_prefix (s pat : string) :
  String.prefix pat s = true -> indexOf s pat = 0.
Proof.
  intros H. unfold indexOf. destruct s; cbn [indexOf_from]; now rewrite H.
Qed.

Lemma isFenceLine_first (c : ascii) (r : string) :
  isWhiteSpace c = false -> c <> "`"%char -> isFenceLine (String c r) = false.
Proof.
  intros W N. unfold isFenceLine, trim. cbn [trimStart]. rewrite W.
  rewrite (trimEnd_first c r W).
  unfold startsWith. cbn [String.prefix].
  destruct (ascii_dec "`" c) as [E|E]; [congruence|reflexivity].
Qed.

Lemma slice_all (s : string) :
  slice s 0 (Z.of_nat (String.length s)) = s.
Proof.
  unfold slice. change (0 <? 0) with false. cbv iota.
  destruct (Z.ltb_spec (Z.of_nat (String.length s)) 0) as [?|_]; [lia|].
  rewrite Z.min_id.
  replace (Z.min 0 (Z.of_nat (String.length s))) with 0 by lia.
  rewrite Z.sub_0_r.
  replace (Z.to_nat (Z.max (Z.of_nat (String.length s)) 0))
    with (String.length s) by lia.
  apply substring_all.
Qed.

(** A text that opens with a [solid] line and closes with an [endsolid]
    line, without fence lines, is returned as it is.  The lines hold no
    line feed and no final carriage return, and the last line no final
    white space. *)
Theorem cleanStlText_keeps_wellformed_text
    (name rest : string) (body : list string) :
  let first := ("solid " ++ name)%string in
  let last := ("endsolid" ++ rest)%string in
  Forall plainLine (first :: body ++ [last]) ->
  Forall (fun l => isFenceLine l = false) body ->
  trimEnd last = last ->
  cleanStlText (join (String LF EmptyString) (first :: body ++ [last]))
  = join (String LF EmptyString) (first :: body ++ [last]).
Proof.
  intros first last Hp Hf Ht.
  set (T := join (String LF EmptyString) (first :: body ++ [last])).
  assert (Ffirst : isFenceLine first = false)
    by (apply isFenceLine_first; [reflexivity|discriminate]).
  assert (Flast : isFenceLine last = false)
    by (apply isFenceLine_first; [reflexivity|discriminate]).
  assert (Hall : Forall (fun l => negb (isFenceLine l) = true)
                   (first :: body ++ [last])).
  { constructor; [now rewrite Ffirst|]. apply Forall_app. split.
    - eapply Forall_impl; [|exact Hf]. intros l H. now rewrite H.
    - constructor; [now rewrite Flast|constructor]. }
  (* the text ends with its last line *)
  destruct (join_last (first :: body) last) as (pre & Epre).
  change ((first :: body) ++ [last]) with (first :: body ++ [last]) in Epre.
  fold T in Epre.
  (* and begins with the word solid *)
  assert (Estart : exists X, T = ("solid " ++ X)%string).
  { unfold T. rewrite join_cons by (destruct body; discriminate).
    unfold first. rewrite append_assoc. eauto. }
  destruct Estart as (X & EX).
  assert (Tt : trim T = T).
  { unfold trim. rewrite EX at 1. cbn [append trimStart].
    change (isWhiteSpace "s") with false. cbv iota.
    change (String "s" (String "o" (String "l" (String "i" (String "d"
              (String " " X)))))) with ("solid " ++ X)%string.
    rewrite <- EX, Epre. apply trimEnd_app_fixed; [discriminate|exact Ht]. }
  assert (Lpre : (1 <= String.length pre)%nat).
  { destruct pre as [|c pre']; [|cbn; lia].
    rewrite EX in Epre. unfold last in Epre. cbn [append] in Epre.
    discriminate. }
  assert (EL : linesOf T = first :: body ++ [last])
    by (apply linesOf_join_plain; [discriminate|exact Hp]).
  unfold cleanStlText. fold (linesOf T). rewrite EL.
  rewrite (filter_all _ _ Hall). fold T. rewrite Tt.
  (* the two indexes *)
  assert (S0 : indexOf (toLowerCase T) "solid " = 0).
  { apply indexOf_prefix. rewrite EX, toLowerCase_app.
    change (toLowerCase "solid ") with "solid "%string. apply prefix_app. }
  rewrite S0.
  set (E := lastIndexOf (toLowerCase T) "endsolid").
  assert (LT : String.length T = (String.length pre + String.length last)%nat)
    by (rewrite Epre; apply length_append).
  assert (Hlow : Z.of_nat (String.length pre) <= E).
  { unfold E, lastIndexOf.
    apply (lastIndexOf_from_ge "endsolid" (toLowerCase T) (String.length pre) 0);
      [lia|rewrite toLowerCase_length; lia|].
    rewrite drop_toLowerCase, Epre.
    rewrite <- (Nat.add_0_r (String.length pre)), drop_app. cbn [drop].
    unfold last. rewrite toLowerCase_app.
    change (toLowerCase "endsolid") with "endsolid"%string. apply prefix_app. }
  assert (HE : Z.of_nat (String.length pre) <= E <= Z.of_nat (String.length T)).
  { split; [exact Hlow|].
    pose proof (lastIndexOf_from_bounds "endsolid" (toLowerCase T) 0) as B.
    rewrite toLowerCase_length in B.
    fold (lastIndexOf (toLowerCase T) "endsolid") in B. fold E in B. lia. }
  assert (C : negb (0 =? -1) && negb (E =? -1) && (0 <? E) = true).
  { destruct (Z.eqb_spec E (-1)); [lia|].
    destruct (Z.ltb_spec 0 E); [reflexivity|lia]. }
  rewrite C.
  (* no line break after the last endsolid *)
  assert (NB : indexOfAt T (String LF EmptyString) E = -1).
  { unfold indexOfAt.
    replace (Z.min (Z.max E 0) (Z.of_nat (String.length T))) with E by lia.
    apply indexOf_from_char_none.
    replace (Z.to_nat E)
      with (String.length pre + (Z.to_nat E - String.length pre))%nat by lia.
    rewrite Epre, drop_app. apply contains_drop.
    inversion Hp as [|? ? _ Hrest]; subst.
    apply Forall_app in Hrest as [_ Hl].
    inversion Hl as [|? ? [Hn _] _]; subst. exact Hn. }
  rewrite NB. rewrite Z.eqb_refl. rewrite slice_all. exact Tt.
Qed.

Lemma cleanStlText_keeps_wellformed_text_witness :
  cleanStlText
    (join (String LF EmptyString)
       (("solid " ++ "x")%string
          :: ["facet normal 0 0 1"; "endfacet"]%string
          ++ [("endsolid" ++ " x")%string]))
  = join (String LF EmptyString)
      (("solid " ++ "x")%string
         :: ["facet normal 0 0 1"; "endfacet"]%string
         ++ [("endsolid" ++ " x")%string]).
Proof.
  apply (cleanStlText_keeps_wellformed_text "x" " x"
           ["facet normal 0 0 1"; "endfacet"]%string).
  - repeat (apply Forall_cons; [split; reflexivity|]). apply Forall_nil.
  - repeat (apply Forall_cons; [reflexivity|]). apply Forall_nil.
  - reflexivity.
Defined.

(** *** One empty mesh *)

Lemma map_const_repeat {A B} (b : B) (l : list A) :
  map (fun _ => b) l = repeat b (length l).
Proof.
  induction l as [|a l IH]; [reflexivity|]. cbn [map length repeat]. now rewrite IH.
Qed.

Lemma sort_repeat_PInf (n : nat) :
  Array_sort (fun x y => nsub x y) (repeat PInf n) = repeat PInf n.
Proof.
  induction n as [|n IH]; [reflexivity|].
  cbn [repeat]. unfold Array_sort in *. cbn [fold_right]. rewrite IH.
  destruct n; reflexivity.
Qed.

Lemma sum_repeat_PInf (n : nat) :
  fold_left (fun s x => nadd s x) (repeat PInf (S n)) zero = PInf.
Proof.
  cbn [repeat fold_left]. change (nadd zero PInf) with PInf.
  induction n as [|n IH]; [reflexivity|]. exact IH.
Qed.

Lemma nth_error_repeat {A} (a : A) (n i : nat) :
  (i < n)%nat -> nth_error (repeat a n) i = Some a.
Proof.
  revert i. induction n as [|n IH]; intros i Hi; [lia|].
  destruct i as [|i]; [reflexivity|]. cbn [repeat nth_error]. apply IH. lia.
Qed.

(** The statistics of a non-empty cloud against the empty cloud are
    infinite. *)
Lemma oneWay_to_empty (sqrtQ : Q -> Q) (a : list Vec3) :
  a <> [] -> oneWay sqrtQ a [] = (PInf, PInf, PInf).
Proof.
  intros Ha. unfold oneWay.
  change (fun p : Vec3 => Math_sqrt sqrtQ (nearestSquared p []))
    with (fun _ : Vec3 => PInf).
  rewrite map_const_repeat, sort_repeat_PInf, repeat_length.
  destruct a as [|p a]; [congruence|]. cbn [length].
  rewrite sum_repeat_PInf.
  set (n := Z.of_nat (S (length a))).
  assert (Hn : 0 < n) by (unfold n; lia).
  rewrite or_else_count by exact Hn.
  rewrite count_minus_one, floor_of_share, Math_min_ofZ.
  pose proof (floor_share_nonneg n ltac:(lia)) as Hfl.
  rewrite !Array_get_ofZ by lia.
  rewrite !nth_error_repeat by lia.
  cbn [nullish]. unfold ndiv, ofZ.
  assert (P : Qle_bool 0 (inject_Z n) = true).
  { apply Qle_bool_iff. unfold Qle; cbn [inject_Z Qnum Qden]. lia. }
  now rewrite P.
Qed.

Lemma aabbDiagonal_empty (sqrtQ : Q -> Q) :
  aabbDiagonal sqrtQ (aabbOfTriangles []) = PInf.
Proof. reflexivity. Qed.

Lemma scale_infinite (d : num) :
  isNonnegFinite d ->
  Math_max (Fin (1 # 1000000000)) (Math_max PInf d) = PInf.
Proof. intros (x & -> & _). reflexivity. Qed.

(** When the first text decodes to no triangle and the second to a
    non-empty mesh with finite coordinates, [compareAsciiStlText] returns
    a bundle whose three statistics from the second mesh to the first are
    NaN: the distances to an empty cloud are infinite, and so is the
    diagonal of the box of an empty mesh, by which they are divided.  The
    other entries of the bundle are 0. *)
Theorem compareAsciiStlText_empty_first_mesh
    (sqrtQ : Q -> Q) (random : Rng) (srcText genText : string)
    (gen : list Triangle) :
  (forall q, (0 <= q)%Q -> (0 <= sqrtQ q)%Q) ->
  (forall q, (0 <= q < 1)%Q -> (0 <= sqrtQ q <= 1)%Q) ->
  unitRng random ->
  StlUtils.parseAsciiStl srcText = Ok [] ->
  StlUtils.parseAsciiStl genText = Ok gen ->
  gen <> [] -> finiteMesh gen -> Z.of_nat (length gen) <= 2 ^ 30 ->
  exists m,
    Bench.compareAsciiStlText sqrtQ random srcText genText = Ok m
    /\ meanBA (Bench.chamfer m) = NaN
    /\ p95BA (Bench.chamfer m) = NaN
    /\ maxBA (Bench.chamfer m) = NaN
    /\ meanAB (Bench.chamfer m) = zero
    /\ p95AB (Bench.chamfer m) = zero
    /\ maxAB (Bench.chamfer m) = zero
    /\ Bench.aabbIou m = zero
    /\ Bench.surfaceAreaRatio m = zero
    /\ Bench.volumeRatio m = zero.
Proof.
  intros Hs Hu Hr Esrc Egen Ngen Fgen Mgen.
  unfold Bench.compareAsciiStlText. rewrite Esrc, Egen. cbn [bind].
  change (sampleSurfacePoints sqrtQ random [] 2000) with (Ok (@nil Vec3)).
  cbn [bind length Nat.mul Nat.add].
  destruct (sampleSurfacePoints_finite sqrtQ Hu (fun k => random k) gen 2000
              Hr Fgen Ngen Mgen ltac:(lia)) as (p2 & E2 & L2 & F2).
  rewrite E2. cbn [bind].
  eexists. split; [reflexivity|].
  cbn [Bench.aabbIou Bench.surfaceAreaRatio Bench.volumeRatio Bench.chamfer].
  assert (N2 : p2 <> []) by (apply (length_nonempty p2 _ L2); lia).
  rewrite aabbDiagonal_empty.
  rewrite (scale_infinite _ (aabbDiagonal_finite sqrtQ Hs gen Fgen Ngen)).
  unfold chamferDistance.
  rewrite (oneWay_to_empty sqrtQ p2 N2).
  change (oneWay sqrtQ [] p2) with (zero, zero, zero).
  cbn [meanAB meanBA p95AB p95BA maxAB maxBA].
  repeat split.
  - (* the box of the empty mesh meets no box *)
    destruct (aabbOfTriangles_finite_bounds gen Ngen Fgen)
      as (l0 & l1 & l2 & h0 & h1 & h2 & ->).
    reflexivity.
  - change (surfaceArea sqrtQ []) with zero.
    now rewrite andb_false_r.
  - change (Math_abs (signedVolume [])) with zero.
    now rewrite andb_false_r.
Qed.

Lemma compareAsciiStlText_empty_first_mesh_witness :
  exists m,
    Bench.compareAsciiStlText sqrt_fix rngHalf EmptyString twoTrianglesStl = Ok m
    /\ meanBA (Bench.chamfer m) = NaN
    /\ p95BA (Bench.chamfer m) = NaN
    /\ maxBA (Bench.chamfer m) = NaN
    /\ meanAB (Bench.chamfer m) = zero
    /\ p95AB (Bench.chamfer m) = zero
    /\ maxAB (Bench.chamfer m) = zero
    /\ Bench.aabbIou m = zero
    /\ Bench.surfaceAreaRatio m = zero
    /\ Bench.volumeRatio m = zero.
Proof.
  apply (compareAsciiStlText_empty_first_mesh sqrt_fix rngHalf
           EmptyString twoTrianglesStl twoTriangles).
  - exact sqrt_fix_nonneg_on.
  - exact sqrt_fix_unit.
  - exact unitRng_rngHalf.
  - reflexivity.
  - vm_compute. reflexivity.
  - discriminate.
  - exact finiteMesh_twoTriangles.
  - vm_compute. discriminate.
Defined.

(** *** Values that round to zero *)

Lemma zeros_snoc (k : nat) :
  (zeros k ++ "0")%string = String "0"%char (zeros k).
Proof.
  induction k as [|k IH]; [reflexivity|].
  cbn [zeros append]. now rewrite IH.
Qed.

Lemma round_to_zero (a : Q) (p : Z) :
  0 <= p -> (0 <= a < halfUnit p)%Q -> Qfloor (a * pow10 p + (1 # 2)) = 0.
Proof.
  intros Hp [H0 H1]. pose proof (pow10_pos p Hp) as P.
  assert (U : (a * pow10 p < 1 # 2)%Q).
  { apply (Qmult_lt_r _ _ (pow10 p) P) in H1.
    unfold halfUnit in H1.
    assert (E : ((1 # 2) / pow10 p * pow10 p == 1 # 2)%Q) by (field; lra).
    now rewrite E in H1. }
  assert (L : (0 <= a * pow10 p)%Q) by (apply Qmult_le_0_compat; lra).
  apply Z.le_antisymm.
  - assert (Qfloor (a * pow10 p + (1 # 2)) < 1); [|lia].
    rewrite Zlt_Qlt. eapply Qle_lt_trans; [apply Qfloor_le|].
    change (inject_Z 1) with 1%Q. lra.
  - apply round_nonneg; assumption.
Qed.

(** The digits printed for a magnitude that rounds to zero. *)
Lemma fixed_digits_zero (a : Q) (p : Z) :
  0 <= p -> (0 <= a < halfUnit p)%Q ->
  fixed_digits a p
  = if p =? 0 then "0"%string
    else ("0" ++ String "." (zeros (Z.to_nat p)))%string.
Proof.
  intros Hp Ha. unfold fixed_digits.
  rewrite (round_to_zero a p Hp Ha).
  change (Z_to_digits 0) with "0"%string.
  destruct (Z.eqb_spec p 0) as [|Np]; [reflexivity|].
  change (Z.of_nat (String.length "0")) with 1.
  destruct (Z.leb_spec 1 p); [|lia].
  replace (Z.to_nat (p + 1 - 1)) with (Z.to_nat p) by lia.
  rewrite zeros_snoc. cbn [String.length]. rewrite zeros_length.
  replace (Z.to_nat (Z.of_nat (S (Z.to_nat p)) - p)) with 1%nat by lia.
  cbn [substring].
  pose proof (substring_all (zeros (Z.to_nat p))) as S.
  rewrite zeros_length in S. rewrite S.
  assert (E0 : substring 0 0 (zeros (Z.to_nat p)) = EmptyString)
    by (destruct (zeros (Z.to_nat p)); reflexivity).
  rewrite E0. reflexivity.
Qed.

(** A finite value closer to zero than half a unit of the last printed
    decimal is printed by [formatFloat] as [0] when it is not negative and
    as [-0] when it is negative: the sign that [toFixed] writes is kept. *)
Theorem formatFloat_rounds_to_zero (q : Q) (p : Z) :
  0 <= p <= 100 -> (Qabs q < halfUnit p)%Q ->
  formatFloat (Fin q) p
  = Ok (match (q ?= 0)%Q with Lt => "-0" | _ => "0" end)%string.
Proof.
  intros Hp Hq. unfold formatFloat. cbn [Number_isFinite negb].
  rewrite (toFixed_in_range q p Hp). cbv zeta.
  assert (B : Qle_bool (pow10 21) (Qabs q) = false).
  { apply not_true_iff_false. rewrite Qle_bool_iff. apply Qlt_not_le.
    eapply Qlt_trans; [exact Hq|].
    pose proof (pow10_pos p ltac:(lia)) as P.
    unfold halfUnit. apply Qlt_shift_div_r; [exact P|].
    assert (1 <= pow10 p)%Q.
    { unfold pow10, Qle; cbn [inject_Z Qnum Qden].
      pose proof (Z.pow_pos_nonneg 10 p ltac:(lia) ltac:(lia)). lia. }
    assert (0 < pow10 21)%Q by (apply pow10_pos; lia).
    assert (1 <= pow10 21)%Q by (vm_compute; discriminate).
    nra. }
  rewrite B. cbn [bind].
  rewrite (fixed_digits_zero (Qabs q) p ltac:(lia) (conj (Qabs_nonneg q) Hq)).
  set (neg := match (q ?= 0)%Q with Lt => true | _ => false end).
  replace (match (q ?= 0)%Q with Lt => "-"%string | _ => EmptyString end)
    with (if neg then "-"%string else EmptyString)
    by (unfold neg; now destruct (q ?= 0)%Q).
  replace (match (q ?= 0)%Q with Lt => "-0"%string | _ => "0"%string end)
    with (if neg then "-0"%string else "0"%string)
    by (unfold neg; now destruct (q ?= 0)%Q).
  destruct (Z.eqb_spec p 0) as [|Np].
  - now destruct neg.
  - rewrite (trimTrailingZeros_fixed neg "0" (zeros (Z.to_nat p))
               eq_refl (zeros_digits _)).
    + rewrite zeros_all_zero. now destruct neg.
    + destruct (Z.to_nat p) eqn:E; [lia|discriminate].
Qed.

Lemma formatFloat_rounds_to_zero_witness :
  formatFloat (Fin (- (1 # 10000000))) 6 = Ok "-0"%string.
Proof.
  apply (formatFloat_rounds_to_zero (- (1 # 10000000)) 6).
  - lia.
  - vm_compute. reflexivity.
Defined.

(** *** Degenerate triangles *)





(** *** The bytes the decoder reads *)

Lemma payload_count (j : nat) : (j < 4)%nat -> isPayloadByte (80 + j) = true.
Proof.
  intros H. unfold isPayloadByte.
  destruct (Nat.leb_spec 80 (80 + j)); [|lia].
  destruct (Nat.ltb_spec (80 + j) 84); [|lia]. reflexivity.
Qed.

Lemma payload_record (i d : nat) :
  (d < 48)%nat -> isPayloadByte (84 + 50 * i + d) = true.
Proof.
  intros H. unfold isPayloadByte.
  destruct (Nat.leb_spec 84 (84 + 50 * i + d)); [|lia].
  replace (84 + 50 * i + d - 84)%nat with (d + i * 50)%nat by lia.
  rewrite Nat.Div0.mod_add, Nat.mod_small by lia.
  destruct (Nat.ltb_spec d 48); [|lia].
  cbn [andb]. apply orb_true_r.
Qed.

Lemma uint32At_ext (b1 b2 : list byte) (off : nat) :
  (forall j, (j < 4)%nat -> byteAt b1 (off + j) = byteAt b2 (off + j)) ->
  uint32At b1 off = uint32At b2 off.
Proof.
  intros H. unfold uint32At.
  rewrite <- (Nat.add_0_r off) at 1 5.
  now rewrite (H 0%nat), (H 1%nat), (H 2%nat), (H 3%nat) by lia.
Qed.

Lemma float3At_ext (b1 b2 : list byte) (off : nat) :
  (forall j, (j < 12)%nat -> byteAt b1 (off + j) = byteAt b2 (off + j)) ->
  float3At b1 off = float3At b2 off.
Proof.
  intros H. unfold float3At, float32At.
  rewrite (uint32At_ext b1 b2 off),
          (uint32At_ext b1 b2 (off + 4)), (uint32At_ext b1 b2 (off + 8));
    [reflexivity| | |]; intros j Hj.
  - rewrite <- Nat.add_assoc. apply H. lia.
  - rewrite <- Nat.add_assoc. apply H. lia.
  - apply H. lia.
Qed.

Lemma recordAt_ext (b1 b2 : list byte) (off : nat) :
  (forall j, (j < 48)%nat -> byteAt b1 (off + j) = byteAt b2 (off + j)) ->
  recordAt b1 off = recordAt b2 off.
Proof.
  intros H. unfold recordAt.
  rewrite (float3At_ext b1 b2 off), (float3At_ext b1 b2 (off + 12)),
          (float3At_ext b1 b2 (off + 24)), (float3At_ext b1 b2 (off + 36));
    [reflexivity| | | |]; intros j Hj;
    rewrite <- ?Nat.add_assoc; apply H; lia.
Qed.

(** [parseBinaryStl] depends on the length of the buffer, on the count
    and on the first 48 bytes of each record only: two buffers of one
    length that agree on these bytes give the same triangles, or the same
    error.  The 80-byte header and the attribute bytes are never read. *)
Theorem parseBinaryStl_ignores_header_and_attributes (b1 b2 : list byte) :
  length b1 = length b2 ->
  (forall i, isPayloadByte i = true -> byteAt b1 i = byteAt b2 i) ->
  parseBinaryStl b1 = parseBinaryStl b2.
Proof.
  intros HL HB. rewrite !parseBinaryStl_eval, <- HL.
  assert (EC : embeddedCount b1 = embeddedCount b2).
  { apply uint32At_ext. intros j Hj. apply HB, payload_count, Hj. }
  rewrite <- EC.
  destruct (_ <? 84); [reflexivity|].
  destruct (_ =? _); [|reflexivity].
  f_equal. apply map_ext. intros i. apply recordAt_ext.
  intros j Hj. apply HB, payload_record, Hj.
Qed.

Lemma samePayload_sound (b1 b2 : list byte) :
  length b1 = length b2 -> samePayload b1 b2 = true ->
  forall i, isPayloadByte i = true -> byteAt b1 i = byteAt b2 i.
Proof.
  intros HL HS i Hi.
  destruct (Nat.lt_ge_cases i (length b1)) as [L|L].
  - unfold samePayload in HS. rewrite forallb_forall in HS.
    specialize (HS i ltac:(apply in_seq; lia)).
    rewrite Hi in HS. cbn [implb] in HS. now apply Byte.byte_dec_bl.
  - unfold byteAt. rewrite !nth_overflow by lia. reflexivity.
Qed.

Lemma parseBinaryStl_ignores_header_and_attributes_witness :
  parseBinaryStl sampleBinaryStl = parseBinaryStl sampleBinaryStlRelabelled.
Proof.
  apply (parseBinaryStl_ignores_header_and_attributes
           sampleBinaryStl sampleBinaryStlRelabelled).
  - reflexivity.
  - apply samePayload_sound; reflexivity.
Defined.
